(** * surro-sel: surrogate selection dashboard

    A shallow embedding of the selection sidebar
    ([components/sidebar.py]), of the central data store
    ([surro_sel/components/data_store.py], [surro_sel/dashboard/app.py])
    and, for the selection engine the sidebar calls, of the behaviour the
    specification describes.

    Conventions.
    - Python numbers entered in the numeric field are modelled as exact
      rationals ([Q]); an integer count is a rational with an integral
      value.  Floating-point rounding error of [N * n] is not modelled.
    - A blank numeric field ([None]) is outside the model: the size
      input [n] is always a number.
    - Text is a [string] of 8-bit characters.
    - Feature vectors and scores of the engine are real numbers. *)

From Stdlib Require Import Strings.String Strings.Ascii.
From Stdlib Require Import List Bool Arith ZArith QArith Qround Lia.
From Stdlib Require Import Sorting.Sorted Sorting.Permutation.
From Stdlib Require Import Reals Lra.
From Stdlib Require Lqa OrderedTypeEx.
Import ListNotations.

Set Implicit Arguments.

(** ** Python arithmetic used by the sidebar *)

Module Py.

(** [round(x)] with one argument: nearest integer, ties to even. *)
Definition round (x : Q) : Z :=
  let f := Qfloor x in
  match Qcompare (x - inject_Z f) (1 # 2) with
  | Lt => f
  | Gt => (f + 1)%Z
  | Eq => if Z.even f then f else (f + 1)%Z
  end.

(** A number is an integer count when its value is integral. *)
Definition is_integer (x : Q) : bool := Qeq_bool x (inject_Z (Qfloor x)).

(** [list(set(l))]: one representative per value.  The iteration order
    of a Python set is unspecified; the order of first occurrence is
    used here, and every use below sorts the result. *)
Fixpoint set_list (l : list Q) : list Q :=
  match l with
  | [] => []
  | x :: l' => x :: filter (fun y => negb (Qeq_bool x y)) (set_list l')
  end.

(** [sorted(l)] on numbers: a stable insertion sort. *)
Fixpoint insert (x : Q) (l : list Q) : list Q :=
  match l with
  | [] => [x]
  | y :: l' => if Qle_bool x y then x :: l else y :: insert x l'
  end.

Definition sorted (l : list Q) : list Q := fold_right insert [] l.

(** [np.repeat(l, r)]: every element repeated [r] times, in order. *)
Definition np_repeat (A : Type) (l : list A) (r : nat) : list A :=
  flat_map (fun x => repeat x r) l.

End Py.

(** ** Text handling: [str.splitlines] and the ID lookup *)

Module Text.

(** Line boundaries recognised by [str.splitlines] among 8-bit
    characters: LF, VT, FF, CR, FS, GS, RS and NEL. *)
Definition is_linebreak (c : ascii) : bool :=
  let k := nat_of_ascii c in
  (k =? 10) || (k =? 11) || (k =? 12) || (k =? 13)
  || (k =? 28) || (k =? 29) || (k =? 30) || (k =? 133).

Definition is_cr (c : ascii) : bool := nat_of_ascii c =? 13.
Definition is_lf (c : ascii) : bool := nat_of_ascii c =? 10.

(** The one-character texts LF and CR. *)
Definition LF : string := String (ascii_of_nat 10) EmptyString.
Definition CR : string := String (ascii_of_nat 13) EmptyString.

(** [cur] is the line read so far.  A CR LF pair is one boundary; the
    text after the last boundary is a line only when it is not empty. *)
Fixpoint splitlines_from (cur : string) (s : string) : list string :=
  match s with
  | EmptyString =>
      match cur with EmptyString => [] | _ => [cur] end
  | String c rest =>
      if is_linebreak c then
        match rest with
        | String c' rest' =>
            if is_cr c && is_lf c'
            then cur :: splitlines_from EmptyString rest'
            else cur :: splitlines_from EmptyString rest
        | EmptyString => [cur]
        end
      else splitlines_from (String.append cur (String c EmptyString)) rest
  end.

Definition splitlines (s : string) : list string :=
  splitlines_from EmptyString s.

(** A fixed-width numpy string array pads its elements with NUL and
    gives them back without their trailing NULs. *)
Fixpoint rstrip_nul (s : string) : string :=
  match s with
  | EmptyString => EmptyString
  | String c rest =>
      match rstrip_nul rest with
      | EmptyString =>
          if nat_of_ascii c =? 0 then EmptyString else String c EmptyString
      | r => String c r
      end
  end.

(** [np.asarray(lines)], read back element by element. *)
Definition stored (lines : list string) : list string :=
  map rstrip_nul lines.

(** [np.isin(xs, lines)]: elementwise membership mask.  The list
    [lines] becomes a fixed-width string array; the elements of [xs],
    an index of Python strings, are compared as they are. *)
Definition np_isin (xs lines : list string) : list bool :=
  map (fun x => existsb (String.eqb x) (stored lines)) xs.

(** [np.where(mask)[0]]: the positions holding [True], counted from
    [i]. *)
Fixpoint np_where_from (i : nat) (mask : list bool) : list nat :=
  match mask with
  | [] => []
  | b :: mask' =>
      if b then i :: np_where_from (S i) mask'
      else np_where_from (S i) mask'
  end.

Definition np_where (mask : list bool) : list nat := np_where_from 0 mask.

(** [user_idx] of the sidebar: [index] is [desc().index], [user_ids]
    the text area's content. *)
Definition user_idx (index : list string) (user_ids : string) : list nat :=
  np_where (np_isin index (splitlines user_ids)).

End Text.

(** ** The sidebar's selection action *)

Inductive Strategy := HIERARCHICAL | RANDOM.

(** Keys of [notifications.ValidationErrors] the sidebar raises. *)
Inductive ValidationError := NO_DATA | N_INVALID | NO_STRAT | NO_USER.

(** Keys of the selection-results dict: a strategy, or ["user"]. *)
Inductive SurrKey := KStrat (s : Strategy) | KUser.

Definition Strategy_eqb (a b : Strategy) : bool :=
  match a, b with
  | HIERARCHICAL, HIERARCHICAL | RANDOM, RANDOM => true
  | _, _ => false
  end.

Definition SurrKey_eqb (a b : SurrKey) : bool :=
  match a, b with
  | KStrat s, KStrat t => Strategy_eqb s t
  | KUser, KUser => true
  | _, _ => false
  end.

(** Module-level constants of [sidebar.py]. *)
Definition RANDOM_REPS : nat := 100.
Definition RANDOM_NS_init : list Q := [1 # 100; 1 # 10; 2 # 10; 5 # 10].

Definition Subset := list nat.

(** A Python dict as an insertion-ordered association list. *)
Fixpoint dict_set (K V : Type) (eqb : K -> K -> bool)
    (k : K) (v : V) (d : list (K * V)) : list (K * V) :=
  match d with
  | [] => [(k, v)]
  | (k', v') :: d' =>
      if eqb k k' then (k, v) :: d' else (k', v') :: dict_set eqb k v d'
  end.

(** [{**a, **b}] *)
Definition dict_merge (K V : Type) (eqb : K -> K -> bool)
    (a b : list (K * V)) : list (K * V) :=
  fold_left (fun d kv => dict_set eqb (fst kv) (snd kv) d) b a.

(** User inputs read by the action. *)
Record Inputs := {
  in_include_auto : bool;
  in_n : Q;
  in_strats : list Strategy;
  in_include_user : bool;
  in_user_ids : string
}.

Section Sidebar.

(** The selection engine [utils.surrogate_selection.SurrogateSelection]
    is called by the sidebar but is not among the sources.  Its two
    operations are parameters: [World] is whatever state they read and
    advance (the random generator), [Exn] what they may raise, [Row]
    the embedding columns of one descriptor row.  Validation is a
    pure function, so [_process_conditional] takes the already
    computed error list instead of the validation function. *)
Variables (World Score Exn Row : Type).
Variable engine_select :
  list Row -> Q -> Strategy -> World -> (Exn + (Subset * Score)) * World.
Variable engine_score :
  list Row -> Subset -> World -> (Exn + Score) * World.

(** The descriptor table: one (identifier, embedding) pair per row. *)
Definition Desc := list (string * Row).

(** One recorded call of [selector.select]. *)
Record Call := {
  call_size : Q;
  call_strategy : Strategy;
  call_result : Exn + (Subset * Score)
}.

(** What the action can change: the engine's state, the module-level
    list [RANDOM_NS], the calls of [select] made so far and the error
    notifications shown. *)
Record State := {
  world : World;
  RANDOM_NS : list Q;
  calls : list Call;
  notified : list ValidationError
}.

Definition M (A : Type) : Type := State -> (Exn + A) * State.

Definition ret (A : Type) (a : A) : M A := fun st => (inr a, st).

Definition bind (A B : Type) (m : M A) (k : A -> M B) : M B :=
  fun st =>
    match m st with
    | (inl e, st') => (inl e, st')
    | (inr a, st') => k a st'
    end.

Notation "x <- m ;; k" := (bind m (fun x => k))
  (at level 61, m at next level, right associativity).

Fixpoint mapM (A B : Type) (f : A -> M B) (l : list A) : M (list B) :=
  match l with
  | [] => ret []
  | a :: l' => b <- f a ;; bs <- mapM f l' ;; ret (b :: bs)
  end.

(** [selector.select(n, strategy)], recorded. *)
Definition select_call (rows : list Row) (size : Q) (strat : Strategy)
  : M (Subset * Score) :=
  fun st =>
    let (r, w) := engine_select rows size strat (world st) in
    (r, {| world := w; RANDOM_NS := RANDOM_NS st;
           calls := calls st ++ [{| call_size := size;
                                    call_strategy := strat;
                                    call_result := r |}];
           notified := notified st |}).

(** [selector.score(idx)] *)
Definition score_call (rows : list Row) (idx : Subset) : M Score :=
  fun st =>
    let (r, w) := engine_score rows idx (world st) in
    (r, {| world := w; RANDOM_NS := RANDOM_NS st;
           calls := calls st; notified := notified st |}).

(** [notifications.error_notification(err)] *)
Definition error_notification (err : ValidationError) : M unit :=
  fun st =>
    (inr tt, {| world := world st; RANDOM_NS := RANDOM_NS st;
                calls := calls st; notified := notified st ++ [err] |}).

(** [ns.append(x)] where [ns] is bound to the module-level list
    [RANDOM_NS]: the append is made to that list. *)
Definition RANDOM_NS_append (x : Q) : M unit :=
  fun st =>
    (inr tt, {| world := world st; RANDOM_NS := RANDOM_NS st ++ [x];
                calls := calls st; notified := notified st |}).

Definition RANDOM_NS_read : M (list Q) := fun st => (inr (RANDOM_NS st), st).

Definition SurrDict := list (SurrKey * (Subset * Score)).

Definition _validate_auto (n : Q) (strats : list Strategy)
  : list ValidationError :=
  (if Qeq_bool n 0 || Qle_bool n 0 then [N_INVALID] else [])
  ++ (match strats with [] => [NO_STRAT] | _ => [] end).

Definition _process_auto (rows : list Row) (n : Q) (strats : list Strategy)
  : M SurrDict :=
  rs <- mapM (fun strat =>
                r <- select_call rows n strat ;; ret (KStrat strat, r))
             strats ;;
  ret (dict_merge SurrKey_eqb [] rs).

Definition _validate_user (user_idx : list nat) : list ValidationError :=
  match user_idx with [] => [NO_USER] | _ => [] end.

Definition _process_user (rows : list Row) (user_idx : list nat)
  : M SurrDict :=
  s <- score_call rows user_idx ;; ret [(KUser, (user_idx, s))].

Definition _process_conditional (switch : bool)
    (errors : list ValidationError) (process : M SurrDict) : M SurrDict :=
  if switch then
    match errors with
    | [] => process
    | _ => _ <- mapM error_notification errors ;; ret []
    end
  else ret [].

(** The simulation result: [{"scores": ..., "ns": ...}]. *)
Record Sim := { sim_scores : list Score; sim_ns : list Q }.

(** [selector.select(n, Strategy.RANDOM)[1]] *)
Definition random_trial (rows : list Row) (n : Q) : M Score :=
  r <- select_call rows n RANDOM ;; ret (snd r).

Definition _simulate_random (rows : list Row) (ns : list Q) : M Sim :=
  blocks <- mapM (fun n =>
                    mapM (fun _ => random_trial rows n) (seq 0 RANDOM_REPS))
                 ns ;;
  ret {| sim_scores := concat blocks;
         sim_ns := Py.np_repeat ns RANDOM_REPS |}.

(** [n if n >= 1 else round(desc().shape[0] * n)].  The product is
    taken exactly; the code takes it in binary floating point, which
    can move a product lying next to a half to the other side (150
    rows and 0.07 give 11 there and 10 here).  The statements that
    evaluate this function do so at the reference fractions, where both
    agree; the others use only that the result is [n] itself from one
    on and an integer below. *)
Definition effective_size (N : nat) (n : Q) : Q :=
  if Qle_bool 1 n then n
  else inject_Z (Py.round (inject_Z (Z.of_nat N) * n)).

(** The argument of [_simulate_random] in [select]. *)
Definition simulation_sizes (N : nat) (ns : list Q) : list Q :=
  Py.sorted (map (effective_size N) (Py.set_list ns)).

(** The body of the click handler [select] once data is known to be
    loaded.  The result is what the callback [on_surrogates_selected]
    receives, or [None] when it is not called. *)
Definition select_loaded (desc : Desc) (inp : Inputs)
  : M (option (SurrDict * Sim)) :=
  let rows := map snd desc in
  let uidx := Text.user_idx (map fst desc) (in_user_ids inp) in
  auto <- _process_conditional (in_include_auto inp)
            (_validate_auto (in_n inp) (in_strats inp))
            (_process_auto rows (in_n inp) (in_strats inp)) ;;
  user <- _process_conditional (in_include_user inp)
            (_validate_user uidx)
            (_process_user rows uidx) ;;
  let surr := dict_merge SurrKey_eqb auto user in
  match surr with
  | [] => ret None
  | _ =>
      _ <- (if in_include_user inp && (0 <? List.length uidx)
            then RANDOM_NS_append (inject_Z (Z.of_nat (List.length uidx)))
            else ret tt) ;;
      _ <- (if in_include_auto inp
            then RANDOM_NS_append (in_n inp)
            else ret tt) ;;
      ns <- RANDOM_NS_read ;;
      sim <- _simulate_random rows (simulation_sizes (List.length desc) ns) ;;
      ret (Some (surr, sim))
  end.

(** The click handler [select]: an empty table ([desc().empty]) is
    reported and nothing else is done. *)
Definition select (desc : Desc) (inp : Inputs) : M (option (SurrDict * Sim)) :=
  match desc with
  | [] => _ <- error_notification NO_DATA ;; ret None
  | _ => select_loaded desc inp
  end.

(** The state in which the application starts. *)
Definition initial_state (w : World) : State :=
  {| world := w; RANDOM_NS := RANDOM_NS_init; calls := []; notified := [] |}.

(** The call returned a selection with score [s]. *)
Definition scored (c : Call) (s : Score) : Prop :=
  exists sub, call_result c = inr (sub, s).

(** [cs] are [k] successive RANDOM selections of size [n] whose scores
    are [scores]. *)
Definition trials_of (n : Q) (k : nat) (cs : list Call)
    (scores : list Score) : Prop :=
  map call_size cs = repeat n k
  /\ Forall (fun c => call_strategy c = RANDOM) cs
  /\ Forall2 scored cs scores.

(** [grows Pc m]: running [m] leaves [RANDOM_NS] alone and adds to the
    call record only calls satisfying [Pc], whether or not [m]
    raises. *)
Definition grows (Pc : Call -> Prop) (A : Type) (m : M A) : Prop :=
  forall st,
    RANDOM_NS (snd (m st)) = RANDOM_NS st
    /\ exists cs, calls (snd (m st)) = calls st ++ cs /\ Forall Pc cs.

End Sidebar.

(** ** The central data store *)

Module Store.

(** [sorted(x)] on strings: by code point, stable insertion. *)
Fixpoint insert_str (x : string) (l : list string) : list string :=
  match l with
  | [] => [x]
  | y :: l' => if String.leb x y then x :: l else y :: insert_str x l'
  end.

Definition sorted_str (l : list string) : list string :=
  fold_right insert_str [] l.

(** The order [sorted] uses on strings. *)
Definition str_le (a b : string) : Prop := String.leb a b = true.

(** Row [j] is listed in the index array. *)
Definition holds (idx : list Z) (j : nat) : bool :=
  existsb (Z.eqb (Z.of_nat j)) idx.

(** Raised by [labels[i]] when [i] is not a key. *)
Inductive KeyError := KeyError_at (i : Z).

(** [labels] of [surrogate_labels]: a dict whose keys are exactly
    [0 .. N-1] in insertion order, held as the list of its values.
    [labels[i].append(strat)] raises [KeyError] for any other [i]. *)
Fixpoint labels_append (labels : list (list string)) (i : nat)
    (strat : string) : option (list (list string)) :=
  match labels, i with
  | [], _ => None
  | x :: labels', O => Some ((x ++ [strat]) :: labels')
  | x :: labels', S i' =>
      match labels_append labels' i' strat with
      | Some r => Some (x :: r)
      | None => None
      end
  end.

Definition labels_append_at (labels : list (list string)) (i : Z)
    (strat : string) : KeyError + list (list string) :=
  if (i <? 0)%Z then inl (KeyError_at i)
  else match labels_append labels (Z.to_nat i) strat with
       | Some r => inr r
       | None => inl (KeyError_at i)
       end.

(** [for i in idx: labels[i].append(strat)] *)
Fixpoint mark (labels : list (list string)) (strat : string)
    (idx : list Z) : KeyError + list (list string) :=
  match idx with
  | [] => inr labels
  | i :: idx' =>
      match labels_append_at labels i strat with
      | inl e => inl e
      | inr labels' => mark labels' strat idx'
      end
  end.

(** The text of one label: the names joined by an ampersand, or
    the word none. *)
Definition label_text (x : list string) : string :=
  match x with
  | [] => "none"%string
  | _ => String.concat "&" (sorted_str x)
  end.

Section Types.

(** [Cell]: the columns of one data row; [Row]: of one descriptor
    row; [Score]: a LARD score; [SimVal]: a value of the simulation
    dict. *)
Variables (Cell Row Score SimVal : Type).

(** A data frame: its index labels with the row contents. *)
Definition Frame (V : Type) := list (string * V).

(** strategy -> (indices array, LARD score) *)
Definition SurrD := list (string * (list Z * Score)).
Definition SimD := list (string * SimVal).

Record DataStore := {
  data : Frame Cell;
  desc : Frame Row;
  surr : SurrD;
  sim : SimD
}.

(** [DataStore.__init__] *)
Definition init : DataStore :=
  {| data := []; desc := []; surr := []; sim := [] |}.

(** The four [reactive.value.set] calls. *)
Definition set_data (v : Frame Cell) (s : DataStore) : DataStore :=
  {| data := v; desc := desc s; surr := surr s; sim := sim s |}.
Definition set_desc (v : Frame Row) (s : DataStore) : DataStore :=
  {| data := data s; desc := v; surr := surr s; sim := sim s |}.
Definition set_surr (v : SurrD) (s : DataStore) : DataStore :=
  {| data := data s; desc := desc s; surr := v; sim := sim s |}.
Definition set_sim (v : SimD) (s : DataStore) : DataStore :=
  {| data := data s; desc := desc s; surr := surr s; sim := v |}.

(** [data_[data_.index.isin(desc_.index)]] *)
Definition trim (data_ : Frame Cell) (desc_ : Frame Row) : Frame Cell :=
  filter (fun r => existsb (String.eqb (fst r)) (map fst desc_)) data_.

(** [DataStore.update_data] *)
Definition update_data (data_ : Frame Cell) (desc_ : Frame Row)
    (s : DataStore) : DataStore :=
  let data_trimmed := trim data_ desc_ in
  set_sim [] (set_surr [] (set_data data_trimmed (set_desc desc_ s))).

(** [_set_data] of [dashboard/app.py] ([on_data_loaded] of
    [surro_sel/app.py]): the same four writes, derived state
    first. *)
Definition _set_data (data_ : Frame Cell) (desc_ : Frame Row)
    (s : DataStore) : DataStore :=
  set_data (trim data_ desc_) (set_desc desc_ (set_sim [] (set_surr [] s))).

(** [DataStore.update_surrogates] *)
Definition update_surrogates (surr_ : SurrD) (sim_ : SimD)
    (s : DataStore) : DataStore :=
  set_sim sim_ (set_surr surr_ s).

(** The loop over [self.surr().items()]. *)
Fixpoint collect (labels : list (list string)) (items : SurrD)
    : KeyError + list (list string) :=
  match items with
  | [] => inr labels
  | (strat, (idx, _)) :: items' =>
      match mark labels strat idx with
      | inl e => inl e
      | inr labels' => collect labels' items'
      end
  end.

(** [surrogate_labels] on [N] rows with selection results [items]. *)
Definition labels_of (N : nat) (items : SurrD) : KeyError + list string :=
  match collect (repeat [] N) items with
  | inl e => inl e
  | inr labels => inr (map label_text labels)
  end.

(** [DataStore.surrogate_labels] *)
Definition surrogate_labels (s : DataStore) : KeyError + list string :=
  labels_of (List.length (desc s)) (surr s).

(** The labelling stated row by row: the strategies whose index
    array holds row [i], in dict order, and the label they give. *)
Definition selecting (items : SurrD) (i : nat) : list string :=
  map fst (filter (fun kv => existsb (Z.eqb (Z.of_nat i)) (fst (snd kv)))
                  items).

Definition label_spec (items : SurrD) (i : nat) : string :=
  match selecting items i with
  | [] => "none"%string
  | names => String.concat "&" (sorted_str names)
  end.

(** Every index array is within [0, N) and repeats no index. *)
Definition well_formed (N : nat) (items : SurrD) : Prop :=
  forall strat idx sc,
    In (strat, (idx, sc)) items ->
    NoDup idx /\ (forall i, In i idx -> (0 <= i < Z.of_nat N)%Z).

End Types.

End Store.

(** Three rows, two strategies: row 0 is chosen by both. *)
Definition store3 : Store.DataStore unit unit Q unit :=
  Store.update_surrogates
    [("random"%string, ([2; 0]%Z, 1)); ("hierarchical"%string, ([0; 1]%Z, 2))]
    []
    (Store.update_data [] [("a"%string, tt); ("b"%string, tt); ("c"%string, tt)]
       (Store.init unit unit Q unit)).

(** ** The labels for any selection results *)

(** The names appended to the label list of row [i], in order: one for
    every occurrence of [i] in an index array, arrays in dict order. *)
Definition appended (Score : Type) (items : Store.SurrD Score) (i : nat)
  : list string :=
  flat_map (fun kv => repeat (fst kv)
                        (count_occ Z.eq_dec (fst (snd kv)) (Z.of_nat i)))
           items.

(** [i] is one of the keys [0 .. N-1] of [labels]. *)
Definition is_row (N : nat) (i : Z) : bool :=
  (0 <=? i)%Z && (i <? Z.of_nat N)%Z.

(** The first index, in dict order and array order, that is no key. *)
Definition first_outside (Score : Type) (N : nat) (items : Store.SurrD Score)
  : option Z :=
  find (fun i => negb (is_row N i)) (flat_map (fun kv => fst (snd kv)) items).

(** ** Histories of the store *)

(** The two mutations of [DataStore], as requests. *)
Inductive StoreOp (Cell Row Score SimVal : Type) :=
| Load (data_ : Store.Frame Cell) (desc_ : Store.Frame Row)
| Publish (surr_ : Store.SurrD Score) (sim_ : Store.SimD SimVal).

Definition apply_op (Cell Row Score SimVal : Type)
    (s : Store.DataStore Cell Row Score SimVal)
    (op : StoreOp Cell Row Score SimVal)
  : Store.DataStore Cell Row Score SimVal :=
  match op with
  | Load _ _ data_ desc_ => Store.update_data data_ desc_ s
  | Publish _ _ surr_ sim_ => Store.update_surrogates surr_ sim_ s
  end.

(** The store after the requests [ops], made in order on a new store. *)
Definition history (Cell Row Score SimVal : Type)
    (ops : list (StoreOp Cell Row Score SimVal))
  : Store.DataStore Cell Row Score SimVal :=
  fold_left (@apply_op Cell Row Score SimVal) ops
            (Store.init Cell Row Score SimVal).

(** The last dataset loaded by [ops], if any. *)
Fixpoint last_load (Cell Row Score SimVal : Type)
    (ops : list (StoreOp Cell Row Score SimVal))
  : option (Store.Frame Cell * Store.Frame Row) :=
  match ops with
  | [] => None
  | op :: ops' =>
      match last_load ops' with
      | Some p => Some p
      | None =>
          match op with
          | Load _ _ data_ desc_ => Some (data_, desc_)
          | Publish _ _ _ _ => None
          end
      end
  end.

(** ** The selection engine, as specified *)

Module Engine.

Local Open Scope R_scope.

Inductive EngineError :=
  InvalidSizeError | InvalidSelectionError | UnknownStrategyError.

Definition Vec := list R.
Definition Population := list Vec.

Definition sqdist (x y : Vec) : R :=
  fold_right Rplus 0
    (map (fun p => (fst p - snd p) * (fst p - snd p)) (combine x y)).

(** Modelled from the spec: the Euclidean distance in the feature
    space that sections 4.1 and 4.2 name (absent with the engine). *)
Definition dist (x y : Vec) : R := sqrt (sqdist x y).

Definition rowN (P : Population) (i : nat) : Vec := nth i P [].
Definition row (P : Population) (i : Z) : Vec := rowN P (Z.to_nat i).

(** Modelled from the spec: the nearest-surrogate distance of section
    4.1 (part of the absent scoring function): the distance from [x]
    to the nearest member of the subset. *)
Definition nearest (P : Population) (S : list Z) (x : Vec) : R :=
  match S with
  | [] => 0
  | j :: S' =>
      fold_right Rmin (dist x (row P j)) (map (fun k => dist x (row P k)) S')
  end.

Definition Rsum (l : list R) : R := fold_right Rplus 0 l.

(** Modelled from the spec: the representativeness metric of section
    4.1 (the scoring function of the absent module
    [utils.surrogate_selection]): the nearest-member distance of
    every entity, averaged over all [N] entities. *)
Definition lard (P : Population) (S : list Z) : R :=
  Rsum (map (nearest P S) P) / INR (List.length P).

Definition in_range (N : nat) (i : Z) : bool :=
  ((0 <=? i) && (i <? Z.of_nat N))%Z.

Fixpoint has_dup (l : list Z) : bool :=
  match l with
  | [] => false
  | x :: l' => existsb (Z.eqb x) l' || has_dup l'
  end.

(** Modelled from the spec: [score(subset)] of the absent class
    [SurrogateSelection] (sections 4.1, 4.3 and 7): an empty subset,
    an index outside [0, N) or a repeated index is rejected with
    [InvalidSelectionError]; otherwise the metric is returned. *)
Definition score (P : Population) (S : list Z) : EngineError + R :=
  match S with
  | [] => inl InvalidSelectionError
  | _ =>
      if negb (forallb (in_range (List.length P)) S)
      then inl InvalidSelectionError
      else if has_dup S then inl InvalidSelectionError
      else inr (lard P S)
  end.

(** What [score] accepts. *)
Definition valid_subset (N : nat) (S : list Z) : Prop :=
  S <> [] /\ (forall i, In i S -> (0 <= i < Z.of_nat N)%Z) /\ NoDup S.

(** A size is acceptable when it is a count in [1, N]. *)
Definition valid_size (N : nat) (size : Z) : bool :=
  ((1 <=? size) && (size <=? Z.of_nat N))%Z.

(** [l] without its element at position [i]. *)
Definition remove_at (A : Type) (i : nat) (l : list A) : list A :=
  firstn i l ++ skipn (S i) l.

(** [l] with [x] in place of its element at position [i]. *)
Definition replace_at (A : Type) (i : nat) (x : A) (l : list A) : list A :=
  firstn i l ++ x :: skipn (S i) l.

(** All position pairs [(i, j)] with [i < j < n], in lexicographic
    order. *)
Definition pairs (n : nat) : list (nat * nat) :=
  flat_map (fun i => map (pair i) (seq (S i) (n - S i))) (seq 0 n).

Definition vadd (x y : Vec) : Vec :=
  map (fun p => fst p + snd p) (combine x y).

Definition vscale (c : R) (x : Vec) : Vec := map (Rmult c) x.

(** Modelled from the spec: the centroid of a cluster (section 4.2,
    absent with the engine), the mean of its member vectors. *)
Definition centroid (P : Population) (c : list nat) : Vec :=
  match c with
  | [] => []
  | i :: c' =>
      vscale (/ INR (List.length c))
             (fold_left vadd (map (rowN P) c') (rowN P i))
  end.

(** The better of the current best [i] and the candidate [j]: the one
    nearer to [ctr], the smaller index on equal distance. *)
Definition closer (P : Population) (ctr : Vec) (i j : nat) : nat :=
  if Rlt_dec (dist (rowN P j) ctr) (dist (rowN P i) ctr) then j
  else if Rlt_dec (dist (rowN P i) ctr) (dist (rowN P j) ctr) then i
  else Nat.min i j.

(** [b] is at least as good a representative as [j]: not farther
    from [ctr], and not a larger index at equal distance. *)
Definition nearer (P : Population) (ctr : Vec) (b j : nat) : Prop :=
  dist (rowN P b) ctr <= dist (rowN P j) ctr
  /\ (dist (rowN P b) ctr = dist (rowN P j) ctr -> (b <= j)%nat).

(** The clusters partition the positions [0 .. N-1] into non-empty
    parts. *)
Definition partition_of (N : nat) (cs : list (list nat)) : Prop :=
  Permutation (concat cs) (seq 0 N) /\ Forall (fun c => c <> []) cs.


(** Modelled from the spec: the representative of a cluster (section
    4.2, absent with the engine): the member closest to the centroid,
    the smallest index among equally close members. *)
Definition representative (P : Population) (c : list nat) : nat :=
  match c with
  | [] => 0%nat
  | i :: c' => fold_left (closer P (centroid P c)) c' i
  end.

Section Strategies.

(** The random generator is injected: [draw g b] is a draw for the
    bound [b] together with the advanced generator.  [link] is the
    linkage criterion, which the specification leaves open: it
    combines the pairwise distances between the members of two
    clusters into the distance between the clusters. *)
Variable Gen : Type.
Variable draw : Gen -> nat -> nat * Gen.
Variable link : list R -> R.

(** [k] draws without replacement from [pool]. *)
Fixpoint sample (k : nat) (pool : list nat) (g : Gen) : list nat * Gen :=
  match k with
  | O => ([], g)
  | S k' =>
      match pool with
      | [] => ([], g)
      | _ =>
          let (r, g1) := draw g (List.length pool) in
          let j := (r mod List.length pool)%nat in
          let (rest, g2) := sample k' (remove_at j pool) g1 in
          (nth j pool 0%nat :: rest, g2)
      end
  end.

(** Modelled from the spec: the RANDOM strategy of section 4.2 (the
    absent module's random selection): [size] distinct positions
    drawn without replacement; [InvalidSizeError] unless
    [1 <= size <= N]. *)
Definition random_execute (P : Population) (size : Z) (g : Gen)
  : (EngineError + list Z) * Gen :=
  if valid_size (List.length P) size then
    let (s, g') := sample (Z.to_nat size) (seq 0 (List.length P)) g in
    (inr (map Z.of_nat s), g')
  else (inl InvalidSizeError, g).

Definition linkage (P : Population) (a b : list nat) : R :=
  link (flat_map (fun i => map (fun j => dist (rowN P i) (rowN P j)) b) a).

Definition cost (P : Population) (cs : list (list nat)) (p : nat * nat)
  : R :=
  linkage P (nth (fst p) cs []) (nth (snd p) cs []).

(** The pair of clusters at the least linkage distance, the first
    such pair on ties. *)
Definition closest_pair (P : Population) (cs : list (list nat))
  : option (nat * nat) :=
  match pairs (List.length cs) with
  | [] => None
  | p0 :: ps =>
      Some (fold_left
              (fun best p =>
                 if Rlt_dec (cost P cs p) (cost P cs best) then p else best)
              ps p0)
  end.

(** Cluster [j] is absorbed into cluster [i]. *)
Definition merge (cs : list (list nat)) (i j : nat) : list (list nat) :=
  replace_at i (nth i cs [] ++ nth j cs []) (remove_at j cs).

Definition merge_step (P : Population) (cs : list (list nat))
  : list (list nat) :=
  match closest_pair P cs with
  | Some (i, j) => merge cs i j
  | None => cs
  end.

(** Modelled from the spec: the agglomerative clustering of section
    4.2 (absent with the engine) into [k] clusters: start from the [N]
    singletons and merge the closest pair [N - k] times. *)
Definition agglomerate (P : Population) (k : nat) : list (list nat) :=
  Nat.iter (List.length P - k) (merge_step P)
           (map (fun i => [i]) (seq 0 (List.length P))).

(** Modelled from the spec: the HIERARCHICAL strategy of section 4.2
    (the absent module's clustering selection): [InvalidSizeError]
    unless [1 <= size <= N]; otherwise the representative of each of
    the [size] clusters.  The clustering above starts from the [N]
    entities and always yields [size] clusters, so that the failure
    which section 7 names for a clustering that cannot yield the
    requested number of clusters does not arise. *)
Definition hierarchical_execute (P : Population) (size : Z)
  : EngineError + list Z :=
  if valid_size (List.length P) size then
    inr (map (fun c => Z.of_nat (representative P c))
             (agglomerate P (Z.to_nat size)))
  else inl InvalidSizeError.

(** Modelled from the spec: the common contract of the strategies in
    section 4.2 (absent with the engine): the size has to be a
    concrete integer count, and the strategy fails with
    [InvalidSizeError] otherwise; a fraction is never resolved by the
    engine (section 6). *)
Definition execute (strat : Strategy) (P : Population) (size : Q)
    (g : Gen) : (EngineError + list Z) * Gen :=
  if Py.is_integer size then
    match strat with
    | RANDOM => random_execute P (Qfloor size) g
    | HIERARCHICAL => (hierarchical_execute P (Qfloor size), g)
    end
  else (inl InvalidSizeError, g).

(** Modelled from the spec: [select(size, strategy)] of the absent
    class [SurrogateSelection] (section 4.3): run the strategy, then
    score its subset.  An unrecognised strategy token is not a value
    of [Strategy]; [UnknownStrategyError] belongs to decoding such a
    token and cannot arise here. *)
Definition select (P : Population) (size : Q) (strat : Strategy)
    (g : Gen) : (EngineError + (list Z * R)) * Gen :=
  let (r, g') := execute strat P size g in
  match r with
  | inl e => (inl e, g')
  | inr s =>
      match score P s with
      | inl e => (inl e, g')
      | inr sc => (inr (s, sc), g')
      end
  end.

End Strategies.

(** Single linkage, one admissible criterion: the least pairwise
    distance. *)
Definition single_link (l : list R) : R :=
  match l with
  | [] => 0
  | d :: l' => fold_right Rmin d l'
  end.

(** A generator that counts: each draw returns the counter. *)
Definition counter_draw (g : nat) (bound : nat) : nat * nat := (g, S g).

(** Three entities on a line. *)
Definition line3 : Population := [[0]; [1]; [5]].

End Engine.

(** ** A stand-in engine

    The sidebar is run on concrete inputs with this engine in place of
    the absent one: its state counts the calls made, a selection of
    size [s] returns the first [floor s] positions with [s] as score,
    and a subset scores its length.  Rows carry no columns. *)

Module Toy.

Definition select (rows : list unit) (size : Q) (strat : Strategy)
    (w : nat) : (unit + (Subset * Q)) * nat :=
  (inr (seq 0 (Z.to_nat (Qfloor size)), size), S w).

Definition score (rows : list unit) (idx : Subset) (w : nat)
    : (unit + Q) * nat :=
  (inr (inject_Z (Z.of_nat (List.length idx))), w).

(** A descriptor table of [k] rows named by one character each. *)
Definition table (k : nat) : Desc unit :=
  map (fun i => (String (ascii_of_nat (65 + i)) EmptyString, tt)) (seq 0 k).

(** Automatic selection only, with size input [n] and the default
    strategy list. *)
Definition auto_only (n : Q) : Inputs :=
  {| in_include_auto := true; in_n := n; in_strats := [HIERARCHICAL];
     in_include_user := false; in_user_ids := EmptyString |}.

Definition start : State nat Q unit := initial_state Q unit 0%nat.


End Toy.

(** The click handler over the stand-in engine. *)
Definition toy_click (desc : Desc unit) (inp : Inputs) (st : State nat Q unit) :=
  select Toy.select Toy.score desc inp st.

(** ** A stand-in engine that rejects sizes

    As [Toy], but a selection whose size is not positive raises. *)

Module Strict.

Definition select (rows : list unit) (size : Q) (strat : Strategy)
    (w : nat) : (unit + (Subset * Q)) * nat :=
  if Qle_bool size 0 then (inl tt, S w)
  else (inr (seq 0 (Z.to_nat (Qfloor size)), size), S w).

End Strict.

(** ** What one click of the selection action reports and publishes *)

(** The part of the action that selects automatically runs when it is
    switched on and its inputs pass validation; likewise the part that
    scores the user's rows. *)
Definition auto_runs (inp : Inputs) : bool :=
  in_include_auto inp
  && match _validate_auto (in_n inp) (in_strats inp) with
     | [] => true
     | _ => false
     end.

Definition user_runs (index : list string) (inp : Inputs) : bool :=
  in_include_user inp
  && match _validate_user (Text.user_idx index (in_user_ids inp)) with
     | [] => true
     | _ => false
     end.

(** The validation errors one click notifies, in order. *)
Definition click_errors (index : list string) (inp : Inputs)
  : list ValidationError :=
  match index with
  | [] => [NO_DATA]
  | _ =>
      (if in_include_auto inp
       then _validate_auto (in_n inp) (in_strats inp) else [])
      ++ (if in_include_user inp
          then _validate_user (Text.user_idx index (in_user_ids inp))
          else [])
  end.

(** [st'] is [st] with the notifications [errs] added and nothing else
    changed. *)
Definition notified_only (World Score Exn : Type)
    (errs : list ValidationError) (st st' : State World Score Exn) : Prop :=
  world st' = world st
  /\ RANDOM_NS st' = RANDOM_NS st
  /\ calls st' = calls st
  /\ notified st' = notified st ++ errs.

(** The call returned normally. *)
Definition succeeded (Score Exn : Type) (c : Call Score Exn) : Prop :=
  exists r, call_result c = inr r.

(** The calls [cs] end with the one that raised [e]; the calls before
    it returned normally. *)
Definition stopped_at (Score Exn : Type) (e : Exn)
    (cs : list (Call Score Exn)) : Prop :=
  exists cs0 c,
    cs = cs0 ++ [c] /\ call_result c = inl e /\ Forall (@succeeded Score Exn) cs0.

(** The record of a call of the real selection that returned [snd p]
    for the strategy [fst p]. *)
Definition real_call (Score Exn : Type) (n : Q)
    (p : Strategy * (Subset * Score)) : Call Score Exn :=
  {| call_size := n; call_strategy := fst p; call_result := inr (snd p) |}.

(** The entry of the selection results for a strategy and its result. *)
Definition strategy_entry (Score : Type) (p : Strategy * (Subset * Score))
  : SurrKey * (Subset * Score) :=
  (KStrat (fst p), snd p).

(** * Dataset files and the data dialogs *)

(** ** Dataset names *)

Module Names.

(** [str.lower] on characters below 256: the letters A to Z and the
    capital letters of Latin-1 move up by 32. *)
Definition lower_char (c : ascii) : ascii :=
  let k := nat_of_ascii c in
  if ((65 <=? k) && (k <=? 90))
     || ((192 <=? k) && (k <=? 222) && negb (k =? 215))
  then ascii_of_nat (k + 32)
  else c.

Fixpoint lower (s : string) : string :=
  match s with
  | EmptyString => EmptyString
  | String c s' => String (lower_char c) (lower s')
  end.

(** The character class of [NAME_PATTERN]: letters, digits, underscore,
    dash and space. *)
Definition name_char (c : ascii) : bool :=
  let k := nat_of_ascii c in
  ((65 <=? k) && (k <=? 90)) || ((97 <=? k) && (k <=? 122))
  || ((48 <=? k) && (k <=? 57))
  || (k =? 95) || (k =? 45) || (k =? 32).

(** [re.fullmatch(NAME_PATTERN, name)]: between 2 and 32 characters,
    all of the class. *)
Definition NAME_PATTERN (name : string) : bool :=
  (2 <=? String.length name) && (String.length name <=? 32)
  && forallb name_char (list_ascii_of_string name).

(** A name that is one path component: joined to a folder it names
    an entry of that folder.  It is not empty, not a dot or two dots,
    and holds no slash and no NUL. *)
Definition component (name : string) : bool :=
  negb (String.eqb name EmptyString) && negb (String.eqb name ".")
  && negb (String.eqb name "..")
  && forallb (fun c => negb (nat_of_ascii c =? 47)
                       && negb (nat_of_ascii c =? 0))
             (list_ascii_of_string name).

End Names.

(** ** The data folder ([utils/data_files.py])

    The folder [DATA_FOLDER] is either absent or holds entries by
    name: files with their bytes and directories with the files they
    hold.  The system lists a folder in an order of its own; the
    order of the entries stands for it while no entry is added, and
    where a new entry falls in a listing is left open: a listing that
    holds a new entry is described up to order.  A dataset
    name is joined to the folder as one path component
    ([Names.component]); the file system tells names apart by case.
    Writing and reading parquet bytes is done by the library, whose two
    operations are parameters and may raise. *)

Module Files.

Definition DATA_FILENAME : string := "data.parquet".
Definition DESC_FILENAME : string := "desc.parquet".
(** [LAST_UPDATED], as a name within the folder. *)
Definition LAST_UPDATED : string := "last_updated.txt".

Inductive OSError :=
| FileExistsError | FileNotFoundError | NotADirectoryError | IsADirectoryError.

Inductive Entry :=
| File (content : string)
| Dir (files : list (string * string)).

Definition Folder := option (list (string * Entry)).

(** A path object [DATA_FOLDER / name]. *)
Inductive Path := Child (name : string).

Definition is_dir (e : Entry) : bool :=
  match e with Dir _ => true | File _ => false end.

(** The entry found under a name. *)
Fixpoint assoc (V : Type) (k : string) (l : list (string * V)) : option V :=
  match l with
  | [] => None
  | (k', v) :: l' => if String.eqb k k' then Some v else assoc k l'
  end.

(** The entries of the folder, none when it is absent. *)
Definition entries (fs : Folder) : list (string * Entry) :=
  match fs with None => [] | Some es => es end.

(** [get_datasets]: [iterdir] raises on an absent folder. *)
Definition get_datasets (fs : Folder) : OSError + list Path :=
  match fs with
  | None => inl FileNotFoundError
  | Some es =>
      inr (map (fun e => Child (fst e)) (filter (fun e => is_dir (snd e)) es))
  end.

(** [update_log], where [now] is the formatted current time: the
    folder is created when absent, and the log file is opened for
    writing, which a directory of that name refuses. *)
Definition update_log (now : string) (fs : Folder)
  : (OSError + unit) * Folder :=
  let es := entries fs in
  match assoc LAST_UPDATED es with
  | Some (Dir _) => (inl IsADirectoryError, Some es)
  | _ => (inr tt, Some (dict_set String.eqb LAST_UPDATED (File now) es))
  end.

(** Writing the file [file] in the directory [name]. *)
Definition write_in (name file content : string)
    (es : list (string * Entry)) : list (string * Entry) :=
  map (fun e =>
         if String.eqb (fst e) name
         then match snd e with
              | Dir files =>
                  (fst e, Dir (dict_set String.eqb file content files))
              | File _ => e
              end
         else e) es.

Section Codec.

(** [Table] stands for [pd.DataFrame], [E] for what the library
    raises. *)
Variables (Table E : Type).
Variable to_parquet : Table -> E + string.
Variable read_parquet : string -> E + Table.

Inductive Exn := OS (e : OSError) | Lib (e : E).

(** [pd.read_parquet(DATA_FOLDER / name / file)]: a path that leads
    to no file is reported as not found. *)
Definition read_at (name file : string) (fs : Folder) : Exn + Table :=
  match fs with
  | None => inl (OS FileNotFoundError)
  | Some es =>
      match assoc name es with
      | None => inl (OS FileNotFoundError)
      | Some (File _) => inl (OS FileNotFoundError)
      | Some (Dir files) =>
          match assoc file files with
          | None => inl (OS FileNotFoundError)
          | Some bytes =>
              match read_parquet bytes with
              | inl e => inl (Lib e)
              | inr t => inr t
              end
          end
      end
  end.

Definition load_data (name : string) (fs : Folder) : Exn + (Table * Table) :=
  match read_at name DATA_FILENAME fs with
  | inl e => inl e
  | inr data =>
      match read_at name DESC_FILENAME fs with
      | inl e => inl e
      | inr desc => inr (data, desc)
      end
  end.

(** [save_data]: [mkdir(parents=True)] creates the folder when absent
    and raises when the name is taken, by a directory or by a file;
    then the two files are written and the log is updated.  A frame
    the library cannot write raises and leaves no file. *)
Definition save_data (name : string) (data desc : Table) (now : string)
    (fs : Folder) : (Exn + unit) * Folder :=
  match assoc name (entries fs) with
  | Some _ => (inl (OS FileExistsError), fs)
  | None =>
      let es1 := entries fs ++ [(name, Dir [])] in
      match to_parquet data with
      | inl e => (inl (Lib e), Some es1)
      | inr b1 =>
          let es2 := write_in name DATA_FILENAME b1 es1 in
          match to_parquet desc with
          | inl e => (inl (Lib e), Some es2)
          | inr b2 =>
              let es3 := write_in name DESC_FILENAME b2 es2 in
              match update_log now (Some es3) with
              | (inl e, fs4) => (inl (OS e), fs4)
              | (inr _, fs4) => (inr tt, fs4)
              end
          end
      end
  end.

End Codec.

(** The dataset [name] is a directory of the folder holding [files]. *)
Definition holds_dataset (fs : Folder) (name : string)
    (files : list (string * string)) : Prop :=
  assoc name (entries fs) = Some (Dir files).

(** The name is taken in the folder. *)
Definition taken (fs : Folder) (name : string) : bool :=
  match assoc name (entries fs) with Some _ => true | None => false end.

End Files.

(** ** Data frames as the dialogs use them

    A frame is held column by column: its index labels and, per
    column label, the cells of that column.  The readers of tabular
    files rename repeated column labels, so the labels of a parsed
    frame are pairwise different. *)

Module Frames.

(** Raised by a lookup of column labels; it lists the labels that are
    missing. *)
Inductive KeyError := KeyError_of (labels : list string).

Section Cells.

Variable Cell : Type.

(** An index label: a position of the default index, or a cell of the
    column made the index. *)
Inductive Label := Pos (i : nat) | Key (c : Cell).

Record Table := { index : list Label; cols : list (string * list Cell) }.

(** [pd.DataFrame()] *)
Definition empty_frame : Table := {| index := []; cols := [] |}.

Definition columns (t : Table) : list string := map fst (cols t).

(** [df.shape[0]] *)
Definition shape0 (t : Table) : nat := List.length (index t).

(** [df.empty]: no rows or no columns. *)
Definition empty (t : Table) : bool :=
  match index t, cols t with
  | [], _ => true
  | _, [] => true
  | _, _ => false
  end.

Definition has_column (t : Table) (label : string) : bool :=
  existsb (String.eqb label) (columns t).

(** [df[label]] *)
Definition getitem (label : string) (t : Table) : KeyError + list Cell :=
  match Files.assoc label (cols t) with
  | None => inl (KeyError_of [label])
  | Some cells => inr cells
  end.

(** [df.set_index(label)]: the column becomes the index and is no
    column any more. *)
Definition set_index (label : string) (t : Table) : KeyError + Table :=
  match Files.assoc label (cols t) with
  | None => inl (KeyError_of [label])
  | Some cells =>
      inr {| index := map Key cells;
             cols := filter (fun c => negb (String.eqb (fst c) label))
                            (cols t) |}
  end.

(** [df.drop(columns=labels)]: every label has to be a column. *)
Definition drop (labels : list string) (t : Table) : KeyError + Table :=
  match filter (fun l => negb (has_column t l)) labels with
  | [] =>
      inr {| index := index t;
             cols := filter (fun c => negb (existsb (String.eqb (fst c)) labels))
                            (cols t) |}
  | missing => inl (KeyError_of missing)
  end.

End Cells.

End Frames.

(** ** The load and upload dialogs ([modules/modals.py]) *)

Module Modals.

Inductive ValidationErrors :=
| NO_NAME | NAME_DUP | NAME_INVALID | NO_FILE | COLS_DUP | FILE_INVALID.

(** An element of the list [datasets()]: a name, or a path object,
    which has no method [lower]. *)
Inductive DatasetEntry := Name (s : string) | PathObj (p : Files.Path).

Inductive AttributeError := AttributeError_lower.

Definition lower_of (x : DatasetEntry) : AttributeError + string :=
  match x with
  | Name s => inr (Names.lower s)
  | PathObj _ => inl AttributeError_lower
  end.

(** [[x.lower() for x in datasets()]] *)
Fixpoint lowered (l : list DatasetEntry) : AttributeError + list string :=
  match l with
  | [] => inr []
  | x :: l' =>
      match lower_of x with
      | inl e => inl e
      | inr s =>
          match lowered l' with
          | inl e => inl e
          | inr r => inr (s :: r)
          end
      end
  end.

Definition _validate_name (name : string) (datasets : list DatasetEntry)
  : AttributeError + list ValidationErrors :=
  if String.eqb name EmptyString then inr [NO_NAME]
  else
    match lowered datasets with
    | inl e => inl e
    | inr names =>
        if existsb (String.eqb (Names.lower name)) names then inr [NAME_DUP]
        else if negb (Names.NAME_PATTERN name) then inr [NAME_INVALID]
        else inr []
    end.

(** The file extensions [FileExtensions] and the reader each selects
    in [_read_file]. *)
Inductive Reader := READ_CSV | READ_EXCEL | READ_TABLE_TAB | READ_TABLE_SNIFF.

(** [os.path.splitext(name)[1]], with the slash as the separator of
    path components: the text from the last dot of the last component
    on, when a character other than a dot comes before that dot in
    the component; empty otherwise.  [seen] tells
    whether the component read so far holds such a character, [ext]
    is the extension found so far. *)
Fixpoint splitext_from (seen : bool) (ext : string) (s : string) : string :=
  match s with
  | EmptyString => ext
  | String c rest =>
      if nat_of_ascii c =? 47 then splitext_from false EmptyString rest
      else if nat_of_ascii c =? 46 then
        if seen then splitext_from seen (String c rest) rest
        else splitext_from seen ext rest
      else splitext_from true ext rest
  end.

Definition splitext (name : string) : string :=
  splitext_from false EmptyString name.

Definition reader_of (ext : string) : option Reader :=
  if String.eqb ext ".csv" then Some READ_CSV
  else if String.eqb ext ".xls" || String.eqb ext ".xlsx" then Some READ_EXCEL
  else if String.eqb ext ".tsv" then Some READ_TABLE_TAB
  else if String.eqb ext ".txt" then Some READ_TABLE_SNIFF
  else None.

Section Dialog.

(** [Cell]: a cell of a frame; [E]: what the libraries raise besides
    the two parser errors caught by [upload_temp]. *)
Variables (Cell E : Type).

Definition Table := Frames.Table Cell.

Variable to_parquet : Table -> E + string.
Variable read_parquet : string -> E + Table.

(** [ionization_efficiency.calculate_ionization_efficiency] is not
    among the sources: it is a parameter, from the structures and the
    index to the descriptor frame. *)
Variable calculate_ionization_efficiency :
  list Cell -> list (Frames.Label Cell) -> E + Table.

(** The outcome of a reader of tabular files on the uploaded
    content. *)
Inductive Parse :=
| Parsed (t : Table) | EmptyDataError | ParserError | OtherError (e : E).

Variable read : Reader -> string -> Parse.

Inductive Exn :=
| Attribute (e : AttributeError)
| Key (e : Frames.KeyError)
| Storage (e : Files.Exn E)
| Library (e : E).

(** What the dialogs read and change: the data folder, the frame
    [temp], the error notifications shown, the calls of the callback
    [on_data_loaded], the success notifications with their two row
    counts, and whether the dialog is still shown. *)
Record State := {
  folder : Files.Folder;
  temp : Table;
  shown : list ValidationErrors;
  loaded : list (Table * Table);
  success : list (nat * nat);
  open : bool
}.

Definition notify (errs : list ValidationErrors) (st : State) : State :=
  {| folder := folder st; temp := temp st; shown := shown st ++ errs;
     loaded := loaded st; success := success st; open := open st |}.

Definition set_temp (t : Table) (st : State) : State :=
  {| folder := folder st; temp := t; shown := shown st;
     loaded := loaded st; success := success st; open := open st |}.

Definition set_folder (fs : Files.Folder) (st : State) : State :=
  {| folder := fs; temp := temp st; shown := shown st;
     loaded := loaded st; success := success st; open := open st |}.

(** [on_data_loaded(data, desc)], the success notification and
    [ui.modal_remove()]. *)
Definition finish (data desc : Table) (st : State) : State :=
  {| folder := folder st; temp := temp st; shown := shown st;
     loaded := loaded st ++ [(data, desc)];
     success := success st ++ [(Frames.shape0 data, Frames.shape0 desc)];
     open := false |}.

Definition _clear_temp (st : State) : State :=
  set_temp (Frames.empty_frame Cell) st.

(** [load] of the load dialog. *)
Definition load (name : string) (st : State) : (Exn + unit) * State :=
  if String.eqb name EmptyString then (inr tt, notify [NO_NAME] st)
  else
    match Files.load_data read_parquet name (folder st) with
    | inl e => (inl (Storage e), st)
    | inr (data, desc) => (inr tt, finish data desc st)
    end.

(** A file of [input.file()]: its name and its content. *)
Definition _read_file (file : string * string) : Parse :=
  match reader_of (splitext (fst file)) with
  | Some r => read r (snd file)
  | None => Parsed (Frames.empty_frame Cell)
  end.

Definition _validate_data (data : Table) (id_col qrs_col : string)
  : list ValidationErrors :=
  if Frames.empty data then [NO_FILE]
  else if String.eqb id_col qrs_col then [COLS_DUP]
  else [].

Definition _process_data (data : Table) (id_col qrs_col : string)
    (ignore_cols : list string) : Frames.KeyError + Table :=
  match Frames.set_index id_col data with
  | inl e => inl e
  | inr t =>
      Frames.drop
        (filter (fun col => negb (String.eqb col qrs_col)) ignore_cols) t
  end.

(** The body of [upload_temp], run on the value of [input.file()]:
    the [finally] clause looks at [temp] as it is then, also when the
    exception is not one of the two caught. *)
Definition upload_temp (file : list (string * string)) (st : State)
  : (Exn + unit) * State :=
  match file with
  | [] => (inr tt, _clear_temp st)
  | f :: _ =>
      let finally (st1 : State) : State :=
        if Frames.empty (temp st1) then notify [FILE_INVALID] st1 else st1 in
      match _read_file f with
      | Parsed t => (inr tt, finally (set_temp t st))
      | EmptyDataError | ParserError => (inr tt, finally (_clear_temp st))
      | OtherError e => (inl (Library e), finally st)
      end
  end.

(** [upload_temp] as the session runs it.  [input.file()] is [None]
    while no file has been chosen and a list of files afterwards;
    [@reactive.event(input.file)], with [ignore_none] left at its
    default, does not run the body on [None]. *)
Definition upload_temp_event (file : option (list (string * string)))
    (st : State) : (Exn + unit) * State :=
  match file with
  | None => (inr tt, st)
  | Some files => upload_temp files st
  end.

(** [update_select]: the choices offered for the three column
    inputs. *)
Definition update_select (st : State) : list string :=
  if Frames.empty (temp st) then [] else Frames.columns (temp st).

(** The inputs of the upload dialog. *)
Record Inputs := {
  in_name : string;
  in_id_col : string;
  in_qrs_col : string;
  in_ignore_cols : list string
}.

(** [upload], where [datasets] is the value of the reactive list and
    [now] the formatted current time. *)
Definition upload (inp : Inputs) (datasets : list DatasetEntry)
    (now : string) (st : State) : (Exn + unit) * State :=
  match _validate_name (in_name inp) datasets with
  | inl e => (inl (Attribute e), st)
  | inr name_errors =>
      match name_errors
            ++ _validate_data (temp st) (in_id_col inp) (in_qrs_col inp) with
      | err :: errs => (inr tt, notify (err :: errs) st)
      | [] =>
          match _process_data (temp st) (in_id_col inp) (in_qrs_col inp)
                  (in_ignore_cols inp) with
          | inl e => (inl (Key e), st)
          | inr data =>
              match Frames.getitem (in_qrs_col inp) data with
              | inl e => (inl (Key e), st)
              | inr structures =>
                  match calculate_ionization_efficiency structures
                          (Frames.index data) with
                  | inl e => (inl (Library e), st)
                  | inr desc =>
                      match Files.save_data to_parquet (in_name inp)
                              data desc now (folder st) with
                      | (inl e, fs) => (inl (Storage e), set_folder fs st)
                      | (inr _, fs) =>
                          (inr tt,
                           _clear_temp (finish data desc (set_folder fs st)))
                      end
                  end
              end
          end
      end
  end.

(** [close] *)
Definition close (st : State) : State :=
  {| folder := folder st; temp := Frames.empty_frame Cell; shown := shown st;
     loaded := loaded st; success := success st; open := false |}.

End Dialog.

End Modals.

(** ** A stand-in parquet library

    Frames are texts, written as they are; the empty text cannot be
    written. *)

Module Plain.

Definition to_parquet (t : string) : unit + string :=
  if String.eqb t EmptyString then inl tt else inr t.

Definition read_parquet (bytes : string) : unit + string := inr bytes.

(** A folder holding one dataset and the log. *)
Definition folder1 : Files.Folder :=
  Some [("first set"%string,
         Files.Dir [(Files.DATA_FILENAME, "d1"%string);
                    (Files.DESC_FILENAME, "s1"%string)]);
        (Files.LAST_UPDATED, Files.File "2026-11-02 08:00:00")].

End Plain.

(** ** A stand-in for the libraries of the upload dialog

    Cells are texts.  The descriptors of a dataset are one column
    holding the structures; the parquet library can write two frames
    only, the processed example and its descriptors. *)

Module PlainDialog.

Definition Table := Frames.Table string.

(** The frame read from an uploaded file: three columns, two rows. *)
Definition frame3 : Table :=
  {| Frames.index := [Frames.Pos string 0; Frames.Pos string 1];
     Frames.cols := [("id"%string, ["a"; "b"]%string);
                     ("smiles"%string, ["C"; "CC"]%string);
                     ("mass"%string, ["16"; "30"]%string)] |}.

Definition calculate (structures : list string)
    (index : list (Frames.Label string)) : unit + Table :=
  inr {| Frames.index := index;
         Frames.cols := [("logIE"%string, structures)] |}.

Definition data3 : Table :=
  {| Frames.index := [Frames.Key "a"%string; Frames.Key "b"%string];
     Frames.cols := [("smiles"%string, ["C"; "CC"]%string)] |}.

Definition desc3 : Table :=
  {| Frames.index := [Frames.Key "a"%string; Frames.Key "b"%string];
     Frames.cols := [("logIE"%string, ["C"; "CC"]%string)] |}.

Definition table_eq_dec (a b : Table) : {a = b} + {a <> b}.
Proof.
  decide equality.
  - apply list_eq_dec. decide equality.
    + apply list_eq_dec, string_dec.
    + apply string_dec.
  - apply list_eq_dec. decide equality; [apply Nat.eq_dec | apply string_dec].
Defined.

Definition to_parquet (t : Table) : unit + string :=
  if table_eq_dec t data3 then inr "data3"%string
  else if table_eq_dec t desc3 then inr "desc3"%string
  else inl tt.

Definition read_parquet (bytes : string) : unit + Table :=
  if String.eqb bytes "data3" then inr data3
  else if String.eqb bytes "desc3" then inr desc3
  else inl tt.

(** The dialog after the file has been read, with one dataset in the
    folder. *)
Definition ready : Modals.State string :=
  {| Modals.folder := Plain.folder1; Modals.temp := frame3;
     Modals.shown := []; Modals.loaded := []; Modals.success := [];
     Modals.open := true |}.

(** The dialog as it is opened. *)
Definition opened : Modals.State string :=
  {| Modals.folder := Plain.folder1; Modals.temp := Frames.empty_frame string;
     Modals.shown := []; Modals.loaded := []; Modals.success := [];
     Modals.open := true |}.

Definition inputs (name : string) : Modals.Inputs :=
  {| Modals.in_name := name; Modals.in_id_col := "id";
     Modals.in_qrs_col := "smiles"; Modals.in_ignore_cols := ["mass"%string] |}.

(** The stand-in reader: comma-separated content parses to the example
    frame unless it is empty; the other readers raise. *)
Definition read (r : Modals.Reader) (content : string)
  : Modals.Parse string unit :=
  match r with
  | Modals.READ_CSV =>
      if String.eqb content EmptyString then Modals.EmptyDataError string unit
      else Modals.Parsed unit frame3
  | _ => Modals.OtherError string tt
  end.

End PlainDialog.

(** ** File names

    The part of a file name before its extension: no slash, and a
    character other than a dot; the part after the dot of the
    extension: no slash and no dot. *)

Definition plain_base (s : string) : bool :=
  forallb (fun c => negb (nat_of_ascii c =? 47)) (list_ascii_of_string s)
  && existsb (fun c => negb (nat_of_ascii c =? 46)) (list_ascii_of_string s).

Definition plain_suffix (s : string) : bool :=
  forallb (fun c => negb (nat_of_ascii c =? 47) && negb (nat_of_ascii c =? 46))
          (list_ascii_of_string s).

(** ** The report card

    [desc().index[idx]] in [report]: the identifiers at the positions
    [idx]; a position that is no row raises. *)

Inductive IndexError := IndexError_at (i : nat).

Fixpoint index_take (index : list string) (idx : list nat)
  : IndexError + list string :=
  match idx with
  | [] => inr []
  | i :: idx' =>
      match nth_error index i with
      | None => inl (IndexError_at i)
      | Some id =>
          match index_take index idx' with
          | inl e => inl e
          | inr ids => inr (id :: ids)
          end
      end
  end.

(** An identifier that can be entered on a line of its own: not empty
    and free of line boundaries and of NUL. *)
Definition one_line (id : string) : bool :=
  negb (String.eqb id EmptyString)
  && forallb (fun c => negb (Text.is_linebreak c)) (list_ascii_of_string id)
  && forallb (fun c => negb (nat_of_ascii c =? 0)) (list_ascii_of_string id).

(** What a completed click has appended to [RANDOM_NS]. *)
Definition appended_sizes (index : list string) (inp : Inputs) : list Q :=
  (if in_include_user inp
      && (0 <? List.length (Text.user_idx index (in_user_ids inp)))%nat
   then [inject_Z (Z.of_nat (List.length
           (Text.user_idx index (in_user_ids inp))))]
   else [])
  ++ (if in_include_auto inp then [in_n inp] else []).

(** * Properties *)

Unset Implicit Arguments.

(** ** The user subset *)

Module TextFacts.
Import Text.

Local Open Scope string_scope.

Example splitlines_plain :
  splitlines ("ab" ++ LF ++ "cd") = ["ab"; "cd"].
Proof. reflexivity. Qed.

Example splitlines_trailing_break :
  splitlines ("ab" ++ LF) = ["ab"] /\ splitlines LF = [""]
  /\ splitlines "" = [].
Proof. repeat split. Qed.

Example splitlines_crlf_and_blank :
  splitlines ("ab" ++ CR ++ LF ++ LF ++ "cd" ++ CR ++ "e")
  = ["ab"; ""; "cd"; "e"].
Proof. reflexivity. Qed.

Example user_idx_example :
  user_idx ["x"; "y"; "z"; "y"] ("y" ++ LF ++ "q" ++ LF ++ "y")
  = [1; 3]%nat.
Proof. reflexivity. Qed.

Local Close Scope string_scope.

Lemma np_where_from_ge (mask : list bool) :
  forall i, Forall (fun k => i <= k)%nat (np_where_from i mask).
Proof.
  induction mask as [|b mask IH]; intros i; simpl; [constructor|].
  assert (Forall (fun k => i <= k)%nat (np_where_from (S i) mask)) as H.
  { eapply Forall_impl; [|apply IH]. simpl. intros; lia. }
  destruct b; [constructor; [lia | exact H] | exact H].
Qed.

Lemma np_where_from_sorted (mask : list bool) :
  forall i, StronglySorted lt (np_where_from i mask).
Proof.
  induction mask as [|b mask IH]; intros i; simpl; [constructor|].
  destruct b; [|apply IH].
  constructor; [apply IH|].
  eapply Forall_impl; [|apply np_where_from_ge]. simpl. intros; lia.
Qed.

Lemma np_where_from_In (mask : list bool) :
  forall i k,
    In k (np_where_from i mask) <->
    exists j, k = (i + j)%nat /\ nth_error mask j = Some true.
Proof.
  induction mask as [|b mask IH]; intros i k; simpl.
  - split; [tauto|]. intros [j [_ H]]. destruct j; discriminate.
  - assert (In k (np_where_from (S i) mask) <->
            exists j, k = (i + S j)%nat /\ nth_error mask j = Some true) as E.
    { rewrite IH. split; intros [j [H1 H2]]; exists j; split; auto; lia. }
    destruct b; simpl; rewrite ?E; split.
    + intros [H | [j [H1 H2]]].
      * exists 0%nat. split; [lia | reflexivity].
      * exists (S j). auto.
    + intros [[|j] [H1 H2]]; [left; lia | right; exists j; auto].
    + intros [j [H1 H2]]. exists (S j). auto.
    + intros [[|j] [H1 H2]]; [discriminate | exists j; auto].
Qed.

Lemma StronglySorted_lt_NoDup (l : list nat) :
  StronglySorted lt l -> NoDup l.
Proof.
  induction 1 as [|a l _ IH Hall]; constructor; auto.
  intros Hin. rewrite Forall_forall in Hall.
  specialize (Hall _ Hin). lia.
Qed.

Lemma np_isin_nth (xs lines : list string) (j : nat) :
  nth_error (np_isin xs lines) j = Some true <->
  exists id, nth_error xs j = Some id /\ In id (stored lines).
Proof.
  unfold np_isin. rewrite nth_error_map.
  destruct (nth_error xs j) as [x|]; simpl.
  - split.
    + intros H. injection H as H. apply existsb_exists in H.
      destruct H as [y [Hy E]]. apply String.eqb_eq in E. subst y.
      exists x. auto.
    + intros [id [E Hin]]. injection E as <-. f_equal.
      apply existsb_exists. exists x. split; [auto | apply String.eqb_refl].
  - split; [discriminate | intros [id [E _]]; discriminate].
Qed.

Lemma np_isin_ext (xs l1 l2 : list string) :
  (forall id, In id xs -> (In id (stored l1) <-> In id (stored l2))) ->
  np_isin xs l1 = np_isin xs l2.
Proof.
  intros H. unfold np_isin. apply map_ext_in. intros x Hx.
  destruct (existsb (String.eqb x) (stored l1)) eqn:E1,
           (existsb (String.eqb x) (stored l2)) eqn:E2; auto; exfalso.
  - apply existsb_exists in E1. destruct E1 as [y [Hy E]].
    apply String.eqb_eq in E. subst y. apply (H x Hx) in Hy.
    assert (existsb (String.eqb x) (stored l2) = true) as C.
    { apply existsb_exists. exists x. split; [auto | apply String.eqb_refl]. }
    congruence.
  - apply existsb_exists in E2. destruct E2 as [y [Hy E]].
    apply String.eqb_eq in E. subst y. apply (H x Hx) in Hy.
    assert (existsb (String.eqb x) (stored l1) = true) as C.
    { apply existsb_exists. exists x. split; [auto | apply String.eqb_refl]. }
    congruence.
Qed.

(** A line ending in NUL selects the row named by the text before
    it. *)
Example user_idx_trailing_nul :
  user_idx ["id"; "b"]%string ("id" ++ String (ascii_of_nat 0) EmptyString)
  = [0%nat]
  /\ splitlines ("id" ++ String (ascii_of_nat 0) EmptyString)
     = [("id" ++ String (ascii_of_nat 0) EmptyString)%string].
Proof. split; reflexivity. Qed.

(** Text without NUL is stored as it is. *)
Lemma rstrip_nul_plain (s : string) :
  forallb (fun c => negb (nat_of_ascii c =? 0)%nat) (list_ascii_of_string s)
  = true ->
  rstrip_nul s = s.
Proof.
  induction s as [|c s IH]; intros H; [reflexivity|].
  simpl in H. apply andb_prop in H. destruct H as [Hc Hs].
  apply negb_true_iff in Hc. cbn [rstrip_nul].
  rewrite (IH Hs), Hc. destruct s; reflexivity.
Qed.

End TextFacts.

(** C9.  For every descriptor index and every entered text, [user_idx]
    is a strictly increasing list of positions below the number of
    rows, without repetition; a position is listed exactly when the
    row's identifier is one of the entered lines as the string array
    stores them, that is without their trailing NULs.  Hence the
    result depends only on which row identifiers occur among the
    stored lines: entries matching no row and repeated entries change
    nothing, and no input makes the computation fail. *)
Theorem user_idx_increasing_positions (index : list string) (text : string) :
  let idx := Text.user_idx index text in
  StronglySorted lt idx
  /\ NoDup idx
  /\ (forall i, In i idx -> (i < List.length index)%nat)
  /\ (forall i, In i idx <->
        exists id, nth_error index i = Some id
                   /\ In id (Text.stored (Text.splitlines text)))
  /\ (forall text',
        (forall id, In id index ->
           (In id (Text.stored (Text.splitlines text))
            <-> In id (Text.stored (Text.splitlines text')))) ->
        Text.user_idx index text' = idx).
Proof.
  intros idx. unfold idx, Text.user_idx, Text.np_where.
  assert (forall i, In i (Text.np_where_from 0
                            (Text.np_isin index (Text.splitlines text))) <->
            exists id, nth_error index i = Some id
                       /\ In id (Text.stored (Text.splitlines text)))
    as Hchar.
  { intros i. rewrite TextFacts.np_where_from_In. split.
    - intros [j [-> H]]. simpl. apply TextFacts.np_isin_nth. exact H.
    - intros H. exists i. split; [reflexivity|].
      apply TextFacts.np_isin_nth. exact H. }
  repeat split.
  - apply TextFacts.np_where_from_sorted.
  - apply TextFacts.StronglySorted_lt_NoDup, TextFacts.np_where_from_sorted.
  - intros i Hi. apply Hchar in Hi. destruct Hi as [id [E _]].
    apply nth_error_Some. congruence.
  - apply Hchar.
  - apply Hchar.
  - intros text' H. f_equal. symmetry. apply TextFacts.np_isin_ext. exact H.
Qed.

(** ** Sorting and deduplication of sizes *)

Module PyFacts.

Lemma insert_perm (x : Q) (l : list Q) :
  Permutation (Py.insert x l) (x :: l).
Proof.
  induction l as [|y l IH]; simpl; [reflexivity|].
  destruct (Qle_bool x y); [reflexivity|].
  rewrite IH. apply perm_swap.
Qed.

Lemma sorted_perm (l : list Q) : Permutation (Py.sorted l) l.
Proof.
  unfold Py.sorted. induction l as [|x l IH]; simpl; [reflexivity|].
  rewrite insert_perm. constructor. exact IH.
Qed.

Lemma sorted_In (x : Q) (l : list Q) : In x (Py.sorted l) <-> In x l.
Proof.
  split; apply Permutation_in; [|symmetry]; apply sorted_perm.
Qed.

Lemma insert_ascending (x : Q) (l : list Q) :
  Sorted Qle l -> Sorted Qle (Py.insert x l).
Proof.
  induction l as [|y l IH]; intros H; simpl.
  - repeat constructor.
  - destruct (Qle_bool x y) eqn:E.
    + apply Qle_bool_iff in E. constructor; [exact H | constructor; exact E].
    + assert (y <= x)%Q as Hyx.
      { destruct (Qlt_le_dec y x) as [Hlt|Hle]; [apply Qlt_le_weak; exact Hlt|].
        apply Qle_bool_iff in Hle. congruence. }
      inversion H as [|a l' Hs Hh]; subst.
      constructor; [apply IH; exact Hs|].
      destruct l as [|z l]; simpl; [constructor; exact Hyx|].
      destruct (Qle_bool x z); constructor; [exact Hyx|].
      inversion Hh; assumption.
Qed.

(** [sorted] returns an ascending list. *)
Lemma sorted_ascending (l : list Q) : Sorted Qle (Py.sorted l).
Proof.
  unfold Py.sorted. induction l as [|x l IH]; simpl; [constructor|].
  apply insert_ascending. exact IH.
Qed.

Lemma set_list_In (x : Q) (l : list Q) : In x (Py.set_list l) -> In x l.
Proof.
  induction l as [|y l IH]; simpl; [tauto|].
  intros [H | H]; [left; exact H|]. right. apply IH.
  apply filter_In in H. tauto.
Qed.

(** [set_list] keeps one representative of every value and no two
    equal ones. *)
Lemma set_list_covers (x : Q) (l : list Q) :
  In x l -> exists y, In y (Py.set_list l) /\ (y == x)%Q.
Proof.
  induction l as [|a l IH]; simpl; [tauto|].
  intros [-> | H]; [exists x; split; [left; reflexivity | reflexivity]|].
  destruct (IH H) as [y [Hy E]].
  destruct (Qeq_bool a y) eqn:Eay.
  - exists a. split; [left; reflexivity|].
    apply Qeq_bool_iff in Eay. rewrite Eay. exact E.
  - exists y. split; [|exact E]. right. apply filter_In.
    split; [exact Hy | rewrite Eay; reflexivity].
Qed.

End PyFacts.

(** ** The sidebar *)

Section SidebarFacts.

Variables (World Score Exn Row : Type).
Variable engine_select :
  list Row -> Q -> Strategy -> World -> (Exn + (Subset * Score)) * World.
Variable engine_score :
  list Row -> Subset -> World -> (Exn + Score) * World.

Lemma random_trial_runs (rows : list Row) (n : Q) :
  (forall w, exists r w', engine_select rows n RANDOM w = (inr r, w')) ->
  forall st, exists s st' c,
    random_trial engine_select rows n st = (inr s, st')
    /\ RANDOM_NS st' = RANDOM_NS st
    /\ calls st' = calls st ++ [c]
    /\ call_size c = n /\ call_strategy c = RANDOM /\ scored c s.
Proof.
  intros H st. destruct (H (world st)) as [[sub s] [w' E]].
  unfold random_trial, bind, select_call, ret. rewrite E. simpl.
  eexists; eexists; eexists. split; [reflexivity|]. simpl.
  repeat split. exists sub. reflexivity.
Qed.

Lemma random_block_runs (rows : list Row) (n : Q) :
  (forall w, exists r w', engine_select rows n RANDOM w = (inr r, w')) ->
  forall (l : list nat) st, exists scores st' cs,
    mapM (fun _ => random_trial engine_select rows n) l st = (inr scores, st')
    /\ RANDOM_NS st' = RANDOM_NS st
    /\ calls st' = calls st ++ cs
    /\ List.length scores = List.length l
    /\ trials_of n (List.length l) cs scores.
Proof.
  intros H. induction l as [|x l IH]; intros st.
  - exists [], st, []. simpl. unfold ret, trials_of. simpl.
    rewrite app_nil_r. repeat split; constructor.
  - destruct (random_trial_runs rows n H st)
      as [s [st1 [c [E1 [Hns1 [Hc1 [Hsz [Hst Hsc]]]]]]]].
    destruct (IH st1) as [ss [st2 [cs [E2 [Hns2 [Hc2 [Hlen [T1 [T2 T3]]]]]]]]].
    exists (s :: ss), st2, (c :: cs).
    simpl mapM. unfold bind at 1. rewrite E1.
    unfold bind at 1. rewrite E2. unfold ret.
    split; [reflexivity|]. split; [congruence|].
    split; [rewrite Hc2, Hc1, <- app_assoc; reflexivity|].
    split; [simpl; congruence|].
    unfold trials_of. simpl. rewrite Hsz, T1.
    repeat split; constructor; auto.
Qed.

Lemma grows_ret (Pc : Call Score Exn -> Prop) {A : Type} (a : A) :
  grows Pc (@ret World Score Exn A a).
Proof.
  intros st. simpl. split; [reflexivity|].
  exists []. rewrite app_nil_r. split; [reflexivity | constructor].
Qed.

Lemma grows_bind (Pc : Call Score Exn -> Prop) {A B : Type} (m : M World Score Exn A)
    (k : A -> M World Score Exn B) :
  grows Pc m -> (forall a, grows Pc (k a)) -> grows Pc (bind m k).
Proof.
  intros Hm Hk st. unfold bind.
  destruct (Hm st) as [N1 [cs1 [C1 F1]]].
  destruct (m st) as [[e|a] st1]; simpl in *.
  - split; [exact N1|]. exists cs1. auto.
  - destruct (Hk a st1) as [N2 [cs2 [C2 F2]]].
    split; [congruence|]. exists (cs1 ++ cs2).
    split; [rewrite C2, C1, <- app_assoc; reflexivity|].
    apply Forall_app; auto.
Qed.

Lemma grows_mapM (Pc : Call Score Exn -> Prop) {A B : Type} (f : A -> M World Score Exn B)
    (l : list A) :
  (forall a, In a l -> grows Pc (f a)) -> grows Pc (mapM f l).
Proof.
  induction l as [|a l IH]; intros H; simpl.
  - apply grows_ret.
  - apply grows_bind; [apply H; left; reflexivity|].
    intros b. apply grows_bind; [|intros bs; apply grows_ret].
    apply IH. intros x Hx. apply H. right. exact Hx.
Qed.

Lemma grows_select_call (Pc : Call Score Exn -> Prop) rows size strat :
  (forall r, Pc {| call_size := size; call_strategy := strat;
                   call_result := r |}) ->
  grows Pc (select_call engine_select rows size strat).
Proof.
  intros H st. unfold select_call.
  destruct (engine_select rows size strat (world st)) as [r w]. simpl.
  split; [reflexivity|]. eexists. split; [reflexivity|].
  constructor; [apply H | constructor].
Qed.

Lemma grows_score_call (Pc : Call Score Exn -> Prop) rows idx :
  grows Pc (score_call engine_score rows idx).
Proof.
  intros st. unfold score_call.
  destruct (engine_score rows idx (world st)) as [r w]. simpl.
  split; [reflexivity|]. exists []. rewrite app_nil_r.
  split; [reflexivity | constructor].
Qed.

Lemma grows_error_notification (Pc : Call Score Exn -> Prop) err :
  grows Pc (@error_notification World Score Exn err).
Proof.
  intros st. simpl. split; [reflexivity|]. exists []. rewrite app_nil_r.
  split; [reflexivity | constructor].
Qed.

Lemma grows_simulate_random rows ns :
  grows (fun c => call_strategy c = RANDOM /\ In (call_size c) ns)
        (_simulate_random engine_select rows ns).
Proof.
  unfold _simulate_random.
  apply grows_bind; [|intros; apply grows_ret].
  apply grows_mapM. intros n Hn. apply grows_mapM. intros _ _.
  unfold random_trial. apply grows_bind; [|intros; apply grows_ret].
  apply grows_select_call. intros r. simpl. auto.
Qed.

Lemma select_call_inv rows size strat st r st1 :
  select_call engine_select rows size strat st = (r, st1) ->
  RANDOM_NS st1 = RANDOM_NS st
  /\ calls st1 = calls st ++ [{| call_size := size; call_strategy := strat;
                                 call_result := r |}].
Proof.
  unfold select_call.
  destruct (engine_select rows size strat (world st)) as [r0 w].
  intros H. injection H as <- <-. simpl. auto.
Qed.

(** The calls of the loop in [_process_auto]: one per strategy, in
    order, each with the size [n] it was given; all of them when the
    loop completes. *)
Lemma process_auto_loop rows n :
  forall strats st res st',
    mapM (fun strat =>
            bind (select_call engine_select rows n strat)
                 (fun r => ret (KStrat strat, r))) strats st = (res, st') ->
    RANDOM_NS st' = RANDOM_NS st
    /\ exists cs,
         calls st' = calls st ++ cs
         /\ Forall (fun c => call_size c = n) cs
         /\ (exists k, map (@call_strategy Score Exn) cs = firstn k strats)
         /\ (forall d, res = inr d ->
               map (@call_strategy Score Exn) cs = strats).
Proof.
  induction strats as [|s strats IH]; intros st res st' H.
  - simpl in H. unfold ret in H. injection H as <- <-.
    split; [reflexivity|]. exists []. rewrite app_nil_r.
    repeat split; try constructor. exists 0%nat. reflexivity.
  - simpl mapM in H. unfold bind at 1 2 in H.
    destruct (select_call engine_select rows n s st) as [r st1] eqn:E1.
    apply select_call_inv in E1. destruct E1 as [N1 C1].
    destruct r as [e|r].
    + injection H as <- <-. split; [exact N1|].
      eexists. split; [exact C1|].
      split; [repeat constructor|]. split; [exists 1%nat; reflexivity|].
      intros d Hd. discriminate.
    + unfold ret at 1 in H. unfold bind at 1 in H.
      match type of H with
      | context [mapM ?f strats st1] =>
          destruct (mapM f strats st1) as [res2 st2] eqn:E2
      end.
      apply IH in E2. destruct E2 as [N2 [cs [C2 [F2 [[k P2] S2]]]]].
      assert (st' = st2 /\ (forall d, res = inr d -> exists d', res2 = inr d'))
        as [-> Hres].
      { destruct res2 as [e|ds]; unfold ret in H; injection H as <- <-;
          split; auto; intros d Hd; [discriminate | eauto]. }
      split; [congruence|].
      exists ({| call_size := n; call_strategy := s;
                 call_result := inr r |} :: cs).
      split; [rewrite C2, C1, <- app_assoc; reflexivity|].
      split; [constructor; [reflexivity | exact F2]|].
      split; [exists (S k); simpl; rewrite P2; reflexivity|].
      intros d Hd. simpl. f_equal.
      destruct (Hres d Hd) as [d' Hd']. eapply S2. exact Hd'.
Qed.

Lemma process_auto_calls rows n strats st res st' :
  _process_auto engine_select rows n strats st = (res, st') ->
  RANDOM_NS st' = RANDOM_NS st
  /\ exists cs,
       calls st' = calls st ++ cs
       /\ Forall (fun c => call_size c = n) cs
       /\ (exists k, map (@call_strategy Score Exn) cs = firstn k strats)
       /\ (forall d, res = inr d ->
             map (@call_strategy Score Exn) cs = strats).
Proof.
  unfold _process_auto, bind. intros H.
  match type of H with
  | context [mapM ?f strats st] =>
      destruct (mapM f strats st) as [res1 st1] eqn:E
  end.
  apply process_auto_loop in E.
  destruct E as [N1 [cs [C1 [F1 [P1 S1]]]]].
  destruct res1 as [e|ds]; unfold ret in H; cbv beta iota in H;
    injection H as <- <-;
    (split; [exact N1|]); exists cs; repeat split; auto.
  intros d _. eapply S1. reflexivity.
Qed.

Lemma grows_nothing {A : Type} (m : M World Score Exn A) :
  grows (fun _ => False) m ->
  forall st res st', m st = (res, st') ->
    RANDOM_NS st' = RANDOM_NS st /\ calls st' = calls st.
Proof.
  intros H st res st' E. destruct (H st) as [N1 [cs [C1 F1]]].
  rewrite E in *. simpl in *. split; [exact N1|].
  destruct cs as [|c cs]; [rewrite app_nil_r in C1; exact C1|].
  inversion F1; contradiction.
Qed.

Lemma conditional_auto_calls sw rows n strats st res st1 :
  _process_conditional sw (_validate_auto n strats)
    (_process_auto engine_select rows n strats) st = (res, st1) ->
  RANDOM_NS st1 = RANDOM_NS st
  /\ exists cs,
       calls st1 = calls st ++ cs
       /\ Forall (fun c => call_size c = n) cs
       /\ (exists k, map (@call_strategy Score Exn) cs = firstn k strats)
       /\ (forall d, res = inr d -> sw = true ->
             _validate_auto n strats = [] ->
             map (@call_strategy Score Exn) cs = strats).
Proof.
  unfold _process_conditional. intros H.
  assert (forall (m : M World Score Exn (SurrDict Score)),
            grows (fun _ => False) m -> m st = (res, st1) ->
            (sw = true -> _validate_auto n strats = [] -> False) ->
            RANDOM_NS st1 = RANDOM_NS st
            /\ exists cs,
                 calls st1 = calls st ++ cs
                 /\ Forall (fun c => call_size c = n) cs
                 /\ (exists k, map (@call_strategy Score Exn) cs
                               = firstn k strats)
                 /\ (forall d, res = inr d -> sw = true ->
                       _validate_auto n strats = [] ->
                       map (@call_strategy Score Exn) cs = strats)) as Hq.
  { intros m Hm E Hno. destruct (grows_nothing m Hm st res st1 E) as [N1 C1].
    split; [exact N1|]. exists []. rewrite app_nil_r.
    split; [exact C1|]. split; [constructor|].
    split; [exists 0%nat; reflexivity|].
    intros d _ Hsw Hv. destruct (Hno Hsw Hv). }
  destruct sw.
  - destruct (_validate_auto n strats) as [|err errs] eqn:V.
    + apply process_auto_calls in H.
      destruct H as [N1 [cs [C1 [F1 [P1 S1]]]]].
      split; [exact N1|]. exists cs. repeat split; auto.
      intros d Hd _ _. eapply S1. exact Hd.
    + eapply Hq; [|exact H|intros _ Hv; discriminate].
      apply grows_bind; [|intros; apply grows_ret].
      apply grows_mapM. intros; apply grows_error_notification.
  - eapply Hq; [|exact H|intros Hsw; discriminate]. apply grows_ret.
Qed.

Lemma conditional_user_calls sw rows uidx st res st1 :
  _process_conditional sw (_validate_user uidx)
    (_process_user engine_score rows uidx) st = (res, st1) ->
  RANDOM_NS st1 = RANDOM_NS st /\ calls st1 = calls st.
Proof.
  apply grows_nothing. unfold _process_conditional.
  destruct sw; [|apply grows_ret].
  destruct (_validate_user uidx).
  - unfold _process_user. apply grows_bind; [|intros; apply grows_ret].
    apply grows_score_call.
  - apply grows_bind; [|intros; apply grows_ret].
    apply grows_mapM. intros; apply grows_error_notification.
Qed.

Lemma append_if_runs (c : bool) (x : Q) (st : State World Score Exn) :
  exists st1,
    (if c then RANDOM_NS_append x else ret tt) st = (inr tt, st1)
    /\ calls st1 = calls st
    /\ RANDOM_NS st1 = RANDOM_NS st ++ (if c then [x] else []).
Proof.
  destruct c; eexists; (split; [reflexivity|]); split; try reflexivity.
  simpl. rewrite app_nil_r. reflexivity.
Qed.

(** The calls recorded by one run of the click handler split into the
    calls of the real selection and those of the simulation. *)
Lemma select_calls desc inp st res st' :
  select engine_select engine_score desc inp st = (res, st') ->
  exists real sims,
    calls st' = calls st ++ real ++ sims
    /\ Forall (fun c => call_size c = in_n inp) real
    /\ (exists k, map (@call_strategy Score Exn) real
                  = firstn k (in_strats inp))
    /\ Forall (fun c => call_strategy c = RANDOM
                        /\ In (call_size c)
                              (simulation_sizes (List.length desc)
                                                (RANDOM_NS st'))) sims
    /\ (forall r, res = inr (Some r) ->
          in_include_auto inp = true ->
          _validate_auto (in_n inp) (in_strats inp) = [] ->
          map (@call_strategy Score Exn) real = in_strats inp).
Proof.
  intros H. destruct desc as [|d0 ds].
  - simpl in H. unfold bind, error_notification, ret in H.
    injection H as <- <-. exists [], []. simpl. rewrite app_nil_r.
    repeat split; try constructor; try discriminate.
    exists 0%nat. reflexivity.
  - remember (d0 :: ds) as desc eqn:Hd.
    assert (select_loaded engine_select engine_score desc inp st
            = (res, st')) as H'.
    { rewrite <- H, Hd. reflexivity. }
    clear H. rename H' into H. clear Hd. unfold select_loaded in H.
    unfold bind at 1 in H.
    match type of H with
    | context [_process_conditional ?sw ?errs ?m st] =>
        destruct (_process_conditional sw errs m st) as [ra st1] eqn:Ea
    end.
    apply conditional_auto_calls in Ea.
    destruct Ea as [N1 [real [C1 [F1 [P1 S1]]]]].
    assert (forall e, res = inl e -> calls st' = calls st1 ->
              exists real sims,
                calls st' = calls st ++ real ++ sims
                /\ Forall (fun c => call_size c = in_n inp) real
                /\ (exists k, map (@call_strategy Score Exn) real
                              = firstn k (in_strats inp))
                /\ Forall (fun c => call_strategy c = RANDOM
                            /\ In (call_size c)
                                  (simulation_sizes (List.length desc)
                                                    (RANDOM_NS st'))) sims
                /\ (forall r, res = inr (Some r) ->
                      in_include_auto inp = true ->
                      _validate_auto (in_n inp) (in_strats inp) = [] ->
                      map (@call_strategy Score Exn) real
                      = in_strats inp)) as Hfail.
    { intros e -> Hc. exists real, []. rewrite app_nil_r.
      split; [congruence|]. split; [exact F1|]. split; [exact P1|].
      split; [constructor|]. intros r Hr. discriminate. }
    destruct ra as [e|auto].
    { injection H as <- <-. eapply Hfail; reflexivity. }
    unfold bind at 1 in H.
    match type of H with
    | context [_process_conditional ?sw ?errs ?m st1] =>
        destruct (_process_conditional sw errs m st1) as [ru st2] eqn:Eu
    end.
    apply conditional_user_calls in Eu. destruct Eu as [N2 C2].
    destruct ru as [e|user].
    { injection H as <- <-. eapply Hfail; [reflexivity | exact C2]. }
    destruct (dict_merge SurrKey_eqb auto user) as [|kv surr] eqn:Hs.
    { unfold ret in H. injection H as <- <-.
      exists real, []. rewrite app_nil_r.
      split; [congruence|]. split; [exact F1|]. split; [exact P1|].
      split; [constructor|]. intros r Hr. discriminate. }
    unfold bind at 1 in H.
    match type of H with
    | context [(if ?c then RANDOM_NS_append ?x else ret tt) st2] =>
        destruct (append_if_runs c x st2) as [st3 [E3 [C3 _]]]; rewrite E3 in H
    end.
    unfold bind at 1 in H.
    match type of H with
    | context [(if ?c then RANDOM_NS_append ?x else ret tt) st3] =>
        destruct (append_if_runs c x st3) as [st4 [E4 [C4 _]]]; rewrite E4 in H
    end.
    unfold bind at 1 in H. unfold RANDOM_NS_read at 1 in H.
    unfold bind at 1 in H.
    destruct (grows_simulate_random (map snd desc)
                (simulation_sizes (List.length desc) (RANDOM_NS st4)) st4)
      as [N5 [sims [C5 F5]]].
    destruct (_simulate_random engine_select (map snd desc)
                (simulation_sizes (List.length desc) (RANDOM_NS st4)) st4)
      as [rs st5] eqn:E5.
    simpl in N5, C5.
    assert (st' = st5) as ->.
    { destruct rs; unfold ret in H; injection H as _ <-; reflexivity. }
    exists real, sims.
    split; [rewrite C5, C4, C3, C2, C1, <- app_assoc; reflexivity|].
    split; [exact F1|]. split; [exact P1|].
    split; [rewrite N5; exact F5|].
    intros r Hr Hsw Hv. eapply S1; [reflexivity | exact Hsw | exact Hv].
Qed.

(** X6.  Every completed selection leaves its counts in the module-level
    list: the list after the run is the list before it, followed by
    the number of user-selected rows (when user selection is on and
    not empty) and by the size input (when automatic selection is
    on). *)
Lemma select_extends_RANDOM_NS desc inp st r st' :
  select engine_select engine_score desc inp st = (inr (Some r), st') ->
  RANDOM_NS st'
  = RANDOM_NS st
    ++ (if in_include_user inp
           && (0 <? List.length
                      (Text.user_idx (map fst desc) (in_user_ids inp)))%nat
        then [inject_Z (Z.of_nat (List.length
                (Text.user_idx (map fst desc) (in_user_ids inp))))]
        else [])
    ++ (if in_include_auto inp then [in_n inp] else []).
Proof.
  intros H. destruct desc as [|d0 ds].
  - simpl in H. unfold bind, error_notification, ret in H. discriminate.
  - remember (d0 :: ds) as desc eqn:Hd.
    assert (select_loaded engine_select engine_score desc inp st
            = (inr (Some r), st')) as H'.
    { rewrite <- H, Hd. reflexivity. }
    clear H. rename H' into H. clear Hd. unfold select_loaded in H.
    unfold bind at 1 in H.
    match type of H with
    | context [_process_conditional ?sw ?errs ?m st] =>
        destruct (_process_conditional sw errs m st) as [ra st1] eqn:Ea
    end.
    apply conditional_auto_calls in Ea. destruct Ea as [N1 _].
    destruct ra as [e|auto]; [discriminate|].
    unfold bind at 1 in H.
    match type of H with
    | context [_process_conditional ?sw ?errs ?m st1] =>
        destruct (_process_conditional sw errs m st1) as [ru st2] eqn:Eu
    end.
    apply conditional_user_calls in Eu. destruct Eu as [N2 _].
    destruct ru as [e|user]; [discriminate|].
    destruct (dict_merge SurrKey_eqb auto user) as [|kv surr] eqn:Hs;
      [discriminate|].
    unfold bind at 1 in H.
    match type of H with
    | context [(if ?c then RANDOM_NS_append ?x else ret tt) st2] =>
        destruct (append_if_runs c x st2) as [st3 [E3 [_ N3]]];
        rewrite E3 in H
    end.
    unfold bind at 1 in H.
    match type of H with
    | context [(if ?c then RANDOM_NS_append ?x else ret tt) st3] =>
        destruct (append_if_runs c x st3) as [st4 [E4 [_ N4]]];
        rewrite E4 in H
    end.
    unfold bind at 1 in H. unfold RANDOM_NS_read at 1 in H.
    unfold bind at 1 in H.
    destruct (grows_simulate_random (map snd desc)
                (simulation_sizes (List.length desc) (RANDOM_NS st4)) st4)
      as [N5 _].
    destruct (_simulate_random engine_select (map snd desc)
                (simulation_sizes (List.length desc) (RANDOM_NS st4)) st4)
      as [rs st5] eqn:E5.
    simpl in N5.
    assert (st' = st5) as ->.
    { destruct rs; unfold ret in H; injection H as _ <-; reflexivity. }
    rewrite N5, N4, N3, N2, N1, <- app_assoc. reflexivity.
Qed.

(** C1, as the code has it.  In every run of the selection action the
    calls of [select] are those of the real selection followed by
    those of the simulation.  Every real call carries the size input
    [n] itself, whatever its value: a fraction is passed on as
    entered, a count as the literal count.  The strategies of the
    real calls are the enabled strategies in order, all of them once
    the action completes with automatic selection enabled and valid.
    Only the simulation calls carry resolved sizes: an entry of the
    size list that is at least one as it is, and an integer in the
    place of an entry below one. *)
Theorem select_passes_size_input (desc : Desc Row) (inp : Inputs)
    (st : State World Score Exn) :
  let out := select engine_select engine_score desc inp st in
  exists real sims,
    calls (snd out) = calls st ++ real ++ sims
    /\ Forall (fun c => call_size c = in_n inp) real
    /\ (exists k, map (@call_strategy Score Exn) real
                  = firstn k (in_strats inp))
    /\ (forall r, fst out = inr (Some r) ->
          in_include_auto inp = true ->
          _validate_auto (in_n inp) (in_strats inp) = [] ->
          map (@call_strategy Score Exn) real = in_strats inp)
    /\ Forall (fun c => call_strategy c = RANDOM
                        /\ exists m,
                             In m (RANDOM_NS (snd out))
                             /\ ((1 <= m /\ call_size c = m)
                                 \/ (m < 1
                                     /\ exists z, call_size c = inject_Z z)))
              sims.
Proof.
  intros out.
  destruct (select_calls desc inp st (fst out) (snd out))
    as [real [sims [C [F [P [Fs S]]]]]].
  { unfold out. apply surjective_pairing. }
  exists real, sims. repeat split; auto.
  eapply Forall_impl; [|exact Fs]. simpl. intros c [Hr Hin].
  split; [exact Hr|].
  unfold simulation_sizes in Hin.
  apply PyFacts.sorted_In, in_map_iff in Hin.
  destruct Hin as [m [E Hm]]. exists m.
  split; [apply PyFacts.set_list_In; exact Hm|].
  unfold effective_size in E.
  destruct (Qle_bool 1 m) eqn:E1.
  - left. split; [apply Qle_bool_iff; exact E1 | symmetry; exact E].
  - right. split.
    + apply Qnot_le_lt. intros H. apply Qle_bool_iff in H. congruence.
    + eexists. symmetry. exact E.
Qed.

Lemma simulation_blocks_run (rows : list Row) (l : list nat) :
  forall (ns : list Q) st,
    (forall n w, In n ns ->
       exists r w', engine_select rows n RANDOM w = (inr r, w')) ->
    exists blocks st' cs,
      mapM (fun n => mapM (fun _ => random_trial engine_select rows n) l)
           ns st = (inr blocks, st')
      /\ RANDOM_NS st' = RANDOM_NS st
      /\ calls st' = calls st ++ cs
      /\ List.length (concat blocks) = (List.length l * List.length ns)%nat
      /\ map (@call_size Score Exn) cs
         = flat_map (fun n => repeat n (List.length l)) ns
      /\ Forall (fun c => call_strategy c = RANDOM) cs
      /\ Forall2 (@scored Score Exn) cs (concat blocks).
Proof.
  induction ns as [|n ns IH]; intros st H.
  - exists [], st, []. simpl. unfold ret. rewrite app_nil_r.
    repeat split; try constructor. lia.
  - assert (forall w, exists r w',
               engine_select rows n RANDOM w = (inr r, w')) as Hn.
    { intros w. apply H. left. reflexivity. }
    destruct (random_block_runs rows n Hn l st)
      as [b [st1 [cb [E1 [Hns1 [Hc1 [Hlen1 [T1 [T2 T3]]]]]]]]].
    destruct (IH st1) as [bs [st2 [cs [E2 [Hns2 [Hc2 [Hlen2 [S1 [S2 S3]]]]]]]]].
    { intros m w Hm. apply H. right. exact Hm. }
    exists (b :: bs), st2, (cb ++ cs).
    simpl mapM. unfold bind at 1. rewrite E1.
    unfold bind at 1. rewrite E2. unfold ret.
    split; [reflexivity|]. split; [congruence|].
    split; [rewrite Hc2, Hc1, <- app_assoc; reflexivity|].
    split; [simpl; rewrite length_app, Hlen1, Hlen2; lia|].
    split; [simpl; rewrite map_app, T1, S1; reflexivity|].
    split; [apply Forall_app; auto|].
    simpl. apply Forall2_app; assumption.
Qed.

(** C2, as the code has it.  When no call of [select] on the listed
    sizes raises, [_simulate_random] returns a result.  With [R = RANDOM_REPS = 100]
    it makes, for each listed size in order, [R] calls
    [select(size, RANDOM)] and no other call; the scores of the
    result are the scores those calls returned, in call order; the
    parallel list repeats each size [R] times in block order, so its
    i-th entry is the size of the i-th call; both lists have length
    [R * m]. *)
Theorem simulate_random_blocks (rows : list Row) (ns : list Q)
    (st : State World Score Exn) :
  (forall n w, In n ns ->
     exists r w', engine_select rows n RANDOM w = (inr r, w')) ->
  exists sim st' cs,
    _simulate_random engine_select rows ns st = (inr sim, st')
    /\ RANDOM_REPS = 100%nat
    /\ calls st' = calls st ++ cs
    /\ map (@call_size Score Exn) cs
       = flat_map (fun n => repeat n RANDOM_REPS) ns
    /\ Forall (fun c => call_strategy c = RANDOM) cs
    /\ Forall2 (@scored Score Exn) cs (sim_scores sim)
    /\ sim_ns sim = map (@call_size Score Exn) cs
    /\ List.length (sim_scores sim) = (RANDOM_REPS * List.length ns)%nat
    /\ List.length (sim_ns sim) = (RANDOM_REPS * List.length ns)%nat.
Proof.
  intros H.
  destruct (simulation_blocks_run rows (seq 0 RANDOM_REPS) ns st H)
    as [blocks [st' [cs [E [_ [Hc [Hlen [Hsz [Hst Hsc]]]]]]]]].
  rewrite length_seq in Hlen, Hsz.
  exists {| sim_scores := concat blocks;
            sim_ns := Py.np_repeat ns RANDOM_REPS |}, st', cs.
  unfold _simulate_random, bind. rewrite E. unfold ret.
  cbn [sim_scores sim_ns].
  split; [reflexivity|]. split; [reflexivity|]. split; [exact Hc|].
  split; [exact Hsz|]. split; [exact Hst|]. split; [exact Hsc|].
  split; [rewrite Hsz; reflexivity|]. split; [exact Hlen|].
  unfold Py.np_repeat. rewrite <- Hsz, length_map, <- Hlen.
  eapply Forall2_length. exact Hsc.
Qed.

End SidebarFacts.

(** ** The sidebar on concrete inputs *)

(** With ten rows and the default size input 0.2, the real selection
    calls [select] with 0.2 itself: not an integer, and not the count
    [round(10 * 0.2) = 2] that [effective_size] gives. *)
Lemma select_receives_fraction :
  let out := toy_click (Toy.table 10) (Toy.auto_only (2 # 10)) Toy.start in
  (exists r, fst out = inr (Some r))
  /\ exists c,
       hd_error (calls (snd out)) = Some c
       /\ call_strategy c = HIERARCHICAL
       /\ call_size c = 2 # 10
       /\ Py.is_integer (call_size c) = false
       /\ effective_size 10 (2 # 10) = 2
       /\ ~ (call_size c == effective_size 10 (2 # 10))%Q.
Proof.
  cbv zeta. split.
  - eexists. vm_compute. reflexivity.
  - eexists. split; [vm_compute; reflexivity|]. simpl.
    repeat split. intros H. vm_compute in H. discriminate.
Qed.

(** C2 on a list holding a size the engine rejects.  The list is not
    empty, the selection of size 0 raises, and the simulation raises
    with it: it returns no scores and no sizes, and has made 101 of the
    300 calls, the last of them the one that raised. *)
Lemma simulate_random_without_result :
  let out := _simulate_random Strict.select [tt; tt] [1; 0; 2] Toy.start in
  [1; 0; 2] <> @nil Q
  /\ fst out = inl tt
  /\ (forall sim, fst out <> inr sim)
  /\ List.length (calls (snd out)) = 101%nat
  /\ map (@call_size Q unit) (calls (snd out)) = repeat 1 100 ++ [0].
Proof.
  cbv zeta.
  assert (fst (_simulate_random Strict.select [tt; tt] [1; 0; 2] Toy.start)
          = inl tt) as F by (vm_compute; reflexivity).
  split; [discriminate|]. split; [exact F|].
  split; [intros sim; rewrite F; discriminate|].
  split; vm_compute; reflexivity.
Qed.

(** C2 at a concrete input: three rows, the sizes 1 and 2. *)
Lemma simulate_random_blocks_witness :
  (forall n w, In n [1; 2] ->
     exists r w', Toy.select [tt; tt; tt] n RANDOM w = (inr r, w'))
  /\ exists sim st' cs,
       _simulate_random Toy.select [tt; tt; tt] [1; 2] Toy.start
       = (inr sim, st')
       /\ RANDOM_REPS = 100%nat
       /\ calls st' = calls Toy.start ++ cs
       /\ map (@call_size Q unit) cs
          = flat_map (fun n => repeat n RANDOM_REPS) [1; 2]
       /\ Forall (fun c => call_strategy c = RANDOM) cs
       /\ Forall2 (@scored Q unit) cs (sim_scores sim)
       /\ sim_ns sim = map (@call_size Q unit) cs
       /\ List.length (sim_scores sim) = (RANDOM_REPS * 2)%nat
       /\ List.length (sim_ns sim) = (RANDOM_REPS * 2)%nat.
Proof.
  assert (forall n w, In n [1; 2] ->
            exists r w', Toy.select [tt; tt; tt] n RANDOM w = (inr r, w'))
    as H.
  { intros n w _. eexists. eexists. reflexivity. }
  split; [exact H|].
  exact (simulate_random_blocks nat Q unit unit Toy.select
           [tt; tt; tt] [1; 2] Toy.start H).
Defined.

(** C3 on the code.  A hundred rows, automatic selection of ten
    surrogates: the sizes handed to the simulation are 1, 10, 10, 20,
    50.  The value 10 occurs twice, once as the count entered and once
    as [round(100 * 0.1)], because the values are made unique before
    the fractions are resolved; the simulation result carries two
    blocks labelled 10. *)
Theorem simulation_sizes_repeat_value :
  let out := toy_click (Toy.table 100) (Toy.auto_only 10) Toy.start in
  (exists surr sim,
     fst out = inr (Some (surr, sim))
     /\ sim_ns sim = Py.np_repeat [1; 10; 10; 20; 50] RANDOM_REPS)
  /\ simulation_sizes 100 (RANDOM_NS (snd out)) = [1; 10; 10; 20; 50]
  /\ ~ NoDup [1; 10; 10; 20; 50].
Proof.
  cbv zeta. split; [|split].
  - eexists. eexists. split; vm_compute; reflexivity.
  - vm_compute. reflexivity.
  - intros H. inversion H as [|x l _ H1]; subst.
    inversion H1 as [|y l' Hn _]; subst. apply Hn. left. reflexivity.
Qed.

(** C4 on the code.  Two runs of the action on the same hundred rows,
    the first with size input 30, the second with 40.  After the first
    run the module-level list holds 30 as a fifth entry; the second run
    starts from that list, so its simulation covers size 30 as well. *)
Theorem simulation_sizes_carry_over :
  let st1 := snd (toy_click (Toy.table 100) (Toy.auto_only 30) Toy.start) in
  let out2 := toy_click (Toy.table 100) (Toy.auto_only 40) st1 in
  RANDOM_NS Toy.start = [1 # 100; 1 # 10; 2 # 10; 5 # 10]
  /\ RANDOM_NS st1 = [1 # 100; 1 # 10; 2 # 10; 5 # 10; 30]
  /\ RANDOM_NS (snd out2) = [1 # 100; 1 # 10; 2 # 10; 5 # 10; 30; 40]
  /\ simulation_sizes 100 (RANDOM_NS (snd out2)) = [1; 10; 20; 30; 40; 50]
  /\ exists surr sim,
       fst out2 = inr (Some (surr, sim))
       /\ sim_ns sim = Py.np_repeat [1; 10; 20; 30; 40; 50] RANDOM_REPS.
Proof.
  cbv zeta. repeat split; try (vm_compute; reflexivity).
  eexists. eexists. split; vm_compute; reflexivity.
Qed.

(** The sizes handed to the simulation are always ascending. *)
Lemma simulation_sizes_ascending (N : nat) (ns : list Q) :
  Sorted Qle (simulation_sizes N ns).
Proof. apply PyFacts.sorted_ascending. Qed.

(** ** The data store *)

Module StoreFacts.
Import Store.

Lemma insert_str_perm (x : string) (l : list string) :
  Permutation (insert_str x l) (x :: l).
Proof.
  induction l as [|y l IH]; simpl; [reflexivity|].
  destruct (String.leb x y); [reflexivity|].
  rewrite IH. apply perm_swap.
Qed.

Lemma sorted_str_perm (l : list string) : Permutation (sorted_str l) l.
Proof.
  unfold sorted_str. induction l as [|x l IH]; simpl; [reflexivity|].
  rewrite insert_str_perm. constructor. exact IH.
Qed.

Lemma insert_str_ascending (x : string) (l : list string) :
  Sorted str_le l -> Sorted str_le (insert_str x l).
Proof.
  induction l as [|y l IH]; intros H; simpl.
  - repeat constructor.
  - destruct (String.leb x y) eqn:E.
    + constructor; [exact H | constructor; exact E].
    + assert (str_le y x) as Hyx.
      { destruct (String.leb_total x y) as [T|T]; [congruence | exact T]. }
      inversion H as [|a l' Hs Hh]; subst.
      constructor; [apply IH; exact Hs|].
      destruct l as [|z l]; simpl; [constructor; exact Hyx|].
      destruct (String.leb x z); constructor; [exact Hyx|].
      inversion Hh; assumption.
Qed.

(** [sorted_str] returns the names in ascending code-point order. *)
Lemma sorted_str_ascending (l : list string) : Sorted str_le (sorted_str l).
Proof.
  unfold sorted_str. induction l as [|x l IH]; simpl; [constructor|].
  apply insert_str_ascending. exact IH.
Qed.

(** One append to the label list held as a function of the row. *)
Lemma labels_append_seq (f : nat -> list string) (strat : string) :
  forall (k a i : nat),
    (i < k)%nat ->
    labels_append (map f (seq a k)) i strat
    = Some (map (fun j => f j ++ (if (j =? a + i)%nat then [strat] else []))
                (seq a k)).
Proof.
  induction k as [|k IH]; intros a i Hi; [lia|].
  simpl seq. simpl map. destruct i as [|i].
  - simpl. f_equal. f_equal.
    + replace (a + 0)%nat with a by lia. rewrite Nat.eqb_refl. reflexivity.
    + apply map_ext_in. intros j Hj. apply in_seq in Hj.
      replace (j =? a + 0)%nat with false
        by (symmetry; apply Nat.eqb_neq; lia).
      rewrite app_nil_r. reflexivity.
  - simpl. rewrite (IH (S a) i) by lia. f_equal. f_equal.
    + replace (a =? a + S i)%nat with false
        by (symmetry; apply Nat.eqb_neq; lia).
      rewrite app_nil_r. reflexivity.
    + apply map_ext. intros j.
      replace (S a + i)%nat with (a + S i)%nat by lia. reflexivity.
Qed.

Lemma labels_append_out (labels : list (list string)) (strat : string) :
  forall i, (List.length labels <= i)%nat ->
            labels_append labels i strat = None.
Proof.
  induction labels as [|x labels IH]; intros i Hi; simpl; [reflexivity|].
  destruct i as [|i]; [simpl in Hi; lia|].
  rewrite IH by (simpl in Hi; lia). reflexivity.
Qed.

(** Marking one strategy's rows, for an index array within range and
    without repetition. *)
Lemma mark_seq (N : nat) (strat : string) :
  forall (idx : list Z) (f : nat -> list string),
    NoDup idx ->
    (forall i, In i idx -> (0 <= i < Z.of_nat N)%Z) ->
    mark (map f (seq 0 N)) strat idx
    = inr (map (fun j => f j ++ (if holds idx j then [strat] else []))
               (seq 0 N)).
Proof.
  induction idx as [|i idx IH]; intros f Hnd Hin; simpl.
  - f_equal. apply map_ext. intros j. rewrite app_nil_r. reflexivity.
  - assert (0 <= i < Z.of_nat N)%Z as Hi by (apply Hin; left; reflexivity).
    unfold labels_append_at.
    destruct (i <? 0)%Z eqn:E; [apply Z.ltb_lt in E; lia|].
    rewrite (labels_append_seq f strat N 0 (Z.to_nat i)) by lia.
    inversion Hnd as [|a l Hni Hnd']; subst.
    rewrite IH; [|exact Hnd'|intros k Hk; apply Hin; right; exact Hk].
    f_equal. apply map_ext. intros j. rewrite <- app_assoc. f_equal.
    unfold holds. simpl.
    destruct (j =? Z.to_nat i)%nat eqn:Ej.
    + apply Nat.eqb_eq in Ej.
      assert (Z.of_nat j = i) as Hji by lia.
      rewrite Hji, Z.eqb_refl. simpl.
      destruct (existsb (Z.eqb i) idx) eqn:Ex; [|reflexivity].
      exfalso. apply Hni. apply existsb_exists in Ex.
      destruct Ex as [y [Hy Ey]]. apply Z.eqb_eq in Ey. subst y. exact Hy.
    + apply Nat.eqb_neq in Ej.
      assert ((Z.of_nat j =? i)%Z = false) as -> by (apply Z.eqb_neq; lia).
      reflexivity.
Qed.

Section WithTypes.

Variables (Cell Row Score SimVal : Type).

Lemma collect_seq (N : nat) :
  forall (items : SurrD Score) (f : nat -> list string),
    well_formed N items ->
    collect (map f (seq 0 N)) items
    = inr (map (fun j => f j ++ selecting items j) (seq 0 N)).
Proof.
  induction items as [|[strat [idx sc]] items IH]; intros f Hwf; simpl.
  - f_equal. apply map_ext. intros j. unfold selecting. simpl.
    rewrite app_nil_r. reflexivity.
  - destruct (Hwf strat idx sc) as [Hnd Hin]; [left; reflexivity|].
    rewrite (mark_seq N strat idx f Hnd Hin).
    rewrite IH.
    + f_equal. apply map_ext. intros j. rewrite <- app_assoc. f_equal.
      unfold selecting, holds. simpl.
      destruct (existsb (Z.eqb (Z.of_nat j)) idx); reflexivity.
    + intros s i c H. apply (Hwf s i c). right. exact H.
Qed.

Lemma labels_of_rows (N : nat) (items : SurrD Score) :
  well_formed N items ->
  labels_of N items = inr (map (label_spec items) (seq 0 N)).
Proof.
  intros Hwf. unfold labels_of.
  replace (repeat (@nil string) N)
    with (map (fun _ : nat => @nil string) (seq 0 N)).
  - rewrite (collect_seq N items _ Hwf). f_equal.
    rewrite map_map. apply map_ext. intros j. simpl.
    unfold label_text, label_spec.
    destruct (selecting items j); reflexivity.
  - clear Hwf. generalize 0%nat. induction N as [|N IH]; intros a; simpl;
      [reflexivity | rewrite IH; reflexivity].
Qed.

Lemma selecting_NoDup (items : SurrD Score) (i : nat) :
  NoDup (map fst items) -> NoDup (selecting items i).
Proof.
  unfold selecting. induction items as [|kv items IH]; simpl; intros H.
  - constructor.
  - inversion H as [|a l Hn Hd]; subst.
    destruct (existsb (Z.eqb (Z.of_nat i)) (fst (snd kv))); simpl; auto.
    constructor; auto. intros Hin. apply Hn.
    apply in_map_iff in Hin. destruct Hin as [x [E Hx]].
    apply filter_In in Hx. apply in_map_iff. exists x. tauto.
Qed.

Lemma selecting_In (items : SurrD Score) (i : nat) (name : string) :
  In name (selecting items i) <->
  exists idx sc, In (name, (idx, sc)) items /\ In (Z.of_nat i) idx.
Proof.
  unfold selecting. rewrite in_map_iff. split.
  - intros [[k [idx sc]] [E H]]. simpl in E. subst k.
    apply filter_In in H. destruct H as [H Hb]. simpl in Hb.
    apply existsb_exists in Hb. destruct Hb as [y [Hy Ey]].
    apply Z.eqb_eq in Ey. subst y. exists idx, sc. auto.
  - intros [idx [sc [H Hi]]]. exists (name, (idx, sc)).
    split; [reflexivity|]. apply filter_In. split; [exact H|].
    simpl. apply existsb_exists. exists (Z.of_nat i).
    split; [exact Hi | apply Z.eqb_refl].
Qed.

End WithTypes.

End StoreFacts.

(** C8.  Loading a dataset with [update_data] leaves the store with
    empty selection results and empty simulation results, next to the
    new descriptors and the trimmed data; every row is then labelled
    "none".  The callback [_set_data] of the dashboard application
    performs the same four writes and produces the same store. *)
Theorem update_data_clears_results (Cell Row Score SimVal : Type)
    (data_ : Store.Frame Cell) (desc_ : Store.Frame Row)
    (s : Store.DataStore Cell Row Score SimVal) :
  let s' := Store.update_data data_ desc_ s in
  Store.surr s' = []
  /\ Store.sim s' = []
  /\ Store.desc s' = desc_
  /\ Store.data s' = Store.trim data_ desc_
  /\ Store.surrogate_labels s'
     = inr (repeat "none"%string (List.length desc_))
  /\ Store._set_data data_ desc_ s = s'.
Proof.
  cbv zeta. repeat split.
  unfold Store.surrogate_labels, Store.labels_of. simpl.
  f_equal. induction (List.length desc_) as [|k IH]; simpl;
    [reflexivity | rewrite IH; reflexivity].
Qed.

(** C10, as the code has it.  When every index array lies within
    [0, N) and repeats no index, [surrogate_labels] returns one label
    per row in row order: the label of row [i] joins with an ampersand
    the ascending names of the strategies whose array holds [i], and is
    "none" when there is no such strategy. *)
Theorem surrogate_labels_by_row (Cell Row Score SimVal : Type)
    (s : Store.DataStore Cell Row Score SimVal) :
  let N := List.length (Store.desc s) in
  Store.well_formed N (Store.surr s) ->
  exists labels,
    Store.surrogate_labels s = inr labels
    /\ List.length labels = N
    /\ (forall i, (i < N)%nat ->
          nth_error labels i = Some (Store.label_spec (Store.surr s) i))
    /\ (forall i name,
          In name (Store.selecting (Store.surr s) i) <->
          exists idx sc, In (name, (idx, sc)) (Store.surr s)
                         /\ In (Z.of_nat i) idx)
    /\ (forall i,
          Sorted Store.str_le
                 (Store.sorted_str (Store.selecting (Store.surr s) i))
          /\ Permutation (Store.sorted_str (Store.selecting (Store.surr s) i))
                         (Store.selecting (Store.surr s) i))
    /\ (NoDup (map fst (Store.surr s)) ->
        forall i, NoDup (Store.selecting (Store.surr s) i)).
Proof.
  intros N Hwf.
  exists (map (Store.label_spec (Store.surr s)) (seq 0 N)).
  split; [apply StoreFacts.labels_of_rows; exact Hwf|].
  split; [rewrite length_map, length_seq; reflexivity|].
  split.
  { intros i Hi. rewrite nth_error_map.
    rewrite (nth_error_nth' (seq 0 N) 0%nat)
      by (rewrite length_seq; exact Hi).
    rewrite seq_nth by exact Hi. reflexivity. }
  split; [intros i name; apply StoreFacts.selecting_In|].
  split.
  { intros i. split;
      [apply StoreFacts.sorted_str_ascending | apply StoreFacts.sorted_str_perm]. }
  intros Hk i. apply StoreFacts.selecting_NoDup. exact Hk.
Qed.

Example store3_labels :
  Store.surrogate_labels store3
  = inr ["hierarchical&random"%string; "hierarchical"%string; "random"%string].
Proof. vm_compute. reflexivity. Qed.

Lemma surrogate_labels_by_row_witness :
  Store.well_formed 3 (Store.surr store3)
  /\ exists labels,
       Store.surrogate_labels store3 = inr labels
       /\ List.length labels = 3%nat
       /\ (forall i, (i < 3)%nat ->
             nth_error labels i
             = Some (Store.label_spec (Store.surr store3) i)).
Proof.
  assert (Store.well_formed 3 (Store.surr store3)) as Hwf.
  { intros strat idx sc H. simpl in H.
    destruct H as [H | [H | []]]; injection H as _ <- _;
      (split; [repeat constructor; simpl; intuition lia
              | intros i Hi; simpl in Hi; lia]). }
  split; [exact Hwf|].
  destruct (surrogate_labels_by_row unit unit Q unit store3 Hwf)
    as [labels [E [L [Nth _]]]].
  exists labels. auto.
Defined.

(** A repeated index is counted twice: the only row, listed twice by
    the one strategy, is labelled with the name twice, where the names
    of the strategies selecting it are just that one name. *)
Lemma surrogate_labels_repeated_index :
  let items := [("user"%string, ([0; 0]%Z, 0%Q))] in
  (forall strat idx sc, In (strat, (idx, sc)) items ->
     forall i, In i idx -> (0 <= i < 1)%Z)
  /\ Store.labels_of 1 items = inr ["user&user"%string]
  /\ Store.label_spec items 0 = "user"%string
  /\ Store.labels_of 1 items <> inr (map (Store.label_spec items) (seq 0 1)).
Proof.
  cbv zeta. split; [|split; [|split]].
  - intros strat idx sc [H | []]. injection H as _ <- _.
    intros i Hi. simpl in Hi. lia.
  - vm_compute. reflexivity.
  - vm_compute. reflexivity.
  - vm_compute. intros H. discriminate.
Qed.

(** ** The engine as specified: the metric *)

Module MetricFacts.
Import Engine.
Local Open Scope R_scope.

Lemma sqdist_self (x : Vec) : sqdist x x = 0.
Proof.
  unfold sqdist. induction x as [|a x IH]; simpl; [reflexivity|].
  rewrite IH. lra.
Qed.

Lemma dist_self (x : Vec) : dist x x = 0.
Proof. unfold dist. rewrite sqdist_self. apply sqrt_0. Qed.

Lemma dist_nonneg (x y : Vec) : 0 <= dist x y.
Proof. apply sqrt_pos. Qed.

Lemma fold_Rmin_nonneg (d : R) (l : list R) :
  0 <= d -> Forall (fun r => 0 <= r) l -> 0 <= fold_right Rmin d l.
Proof.
  intros Hd. induction 1 as [|r l Hr _ IH]; simpl; [exact Hd|].
  apply Rmin_glb; assumption.
Qed.

Lemma fold_Rmin_le_init (d : R) (l : list R) : fold_right Rmin d l <= d.
Proof.
  induction l as [|r l IH]; simpl; [lra|].
  eapply Rle_trans; [apply Rbasic_fun.Rmin_r | exact IH].
Qed.

Lemma fold_Rmin_le_In (d r : R) (l : list R) :
  In r l -> fold_right Rmin d l <= r.
Proof.
  induction l as [|a l IH]; simpl; [tauto|].
  intros [-> | H]; [apply Rbasic_fun.Rmin_l|].
  eapply Rle_trans; [apply Rbasic_fun.Rmin_r | apply IH; exact H].
Qed.

Lemma nearest_nonneg (P : Population) (S : list Z) (x : Vec) :
  0 <= nearest P S x.
Proof.
  destruct S as [|j S]; simpl; [lra|].
  apply fold_Rmin_nonneg; [apply dist_nonneg|].
  apply Forall_forall. intros r Hr. apply in_map_iff in Hr.
  destruct Hr as [k [<- _]]. apply dist_nonneg.
Qed.

(** The nearest-member distance is at most the distance to any
    member. *)
Lemma nearest_le (P : Population) (S : list Z) (x : Vec) (j : Z) :
  In j S -> nearest P S x <= dist x (row P j).
Proof.
  destruct S as [|k S]; simpl; [tauto|].
  intros [-> | H]; [apply fold_Rmin_le_init|].
  apply fold_Rmin_le_In. apply in_map_iff. exists j. auto.
Qed.

Lemma Rsum_nonneg (l : list R) :
  Forall (fun r => 0 <= r) l -> 0 <= Rsum l.
Proof.
  unfold Rsum. induction 1 as [|r l Hr _ IH]; simpl; lra.
Qed.

Lemma Rsum_zero (l : list R) : Forall (fun r => r = 0) l -> Rsum l = 0.
Proof.
  unfold Rsum. induction 1 as [|r l Hr _ IH]; simpl; lra.
Qed.

Lemma has_dup_false (l : list Z) : has_dup l = false <-> NoDup l.
Proof.
  induction l as [|x l IH]; simpl.
  - split; [constructor | reflexivity].
  - rewrite orb_false_iff, IH. split.
    + intros [Hx Hl]. constructor; [|exact Hl]. intros Hin.
      assert (existsb (Z.eqb x) l = true) as C; [|congruence].
      apply existsb_exists. exists x. split; [exact Hin | apply Z.eqb_refl].
    + intros H. inversion H as [|a l' Hn Hd]; subst. split; [|exact Hd].
      destruct (existsb (Z.eqb x) l) eqn:E; [|reflexivity].
      exfalso. apply Hn. apply existsb_exists in E.
      destruct E as [y [Hy Ey]]. apply Z.eqb_eq in Ey. subst y. exact Hy.
Qed.

Lemma in_range_true (N : nat) (i : Z) :
  in_range N i = true <-> (0 <= i < Z.of_nat N)%Z.
Proof. unfold in_range. rewrite andb_true_iff. lia. Qed.

Lemma score_valid (P : Population) (S : list Z) :
  valid_subset (List.length P) S -> score P S = inr (lard P S).
Proof.
  intros [Hne [Hin Hnd]]. unfold score.
  destruct S as [|j S]; [congruence|].
  assert (forallb (in_range (List.length P)) (j :: S) = true) as ->.
  { apply forallb_forall. intros i Hi. apply in_range_true, Hin, Hi. }
  simpl negb. cbv iota.
  assert (has_dup (j :: S) = false) as -> by (apply has_dup_false; exact Hnd).
  reflexivity.
Qed.


(** A duplicate-free subset of [0, N) with [N] members holds every
    position. *)
Lemma full_subset_covers (N : nat) (S : list Z) :
  (forall i, In i S -> (0 <= i < Z.of_nat N)%Z) -> NoDup S ->
  List.length S = N ->
  forall k, (k < N)%nat -> In (Z.of_nat k) S.
Proof.
  intros Hin Hnd Hlen k Hk.
  assert (incl (map Z.of_nat (seq 0 N)) S) as Hincl.
  { apply NoDup_length_incl; [exact Hnd|rewrite length_map, length_seq; lia|].
    intros i Hi. apply in_map_iff. exists (Z.to_nat i).
    specialize (Hin i Hi). split; [lia|]. apply in_seq. lia. }
  apply Hincl. apply in_map_iff. exists k. split; [reflexivity|].
  apply in_seq. lia.
Qed.

End MetricFacts.

(** C5.  For every population and every subset that [score] accepts
    (not empty, indices within [0, N), none repeated), the score is a
    real number that is not negative; when the subset has as many
    members as the population, the score is 0. *)
Theorem score_nonneg_zero_when_full (P : Engine.Population) (S : list Z) :
  Engine.valid_subset (List.length P) S ->
  exists r : R,
    Engine.score P S = inr r
    /\ (0 <= r)%R
    /\ (List.length S = List.length P -> r = 0%R).
Proof.
  intros Hv. exists (Engine.lard P S).
  split; [apply MetricFacts.score_valid; exact Hv|].
  destruct Hv as [Hne [Hin Hnd]].
  assert (0 < List.length P)%nat as HN.
  { destruct S as [|j S]; [congruence|].
    specialize (Hin j (or_introl eq_refl)). lia. }
  assert (0 < INR (List.length P))%R as HR by (apply lt_0_INR; exact HN).
  unfold Engine.lard. split.
  - apply Rle_mult_inv_pos; [|exact HR].
    apply MetricFacts.Rsum_nonneg, Forall_forall. intros r Hr.
    apply in_map_iff in Hr. destruct Hr as [x [<- _]].
    apply MetricFacts.nearest_nonneg.
  - intros Hlen. rewrite MetricFacts.Rsum_zero; [apply Rdiv_0_l|].
    apply Forall_forall. intros r Hr.
    apply in_map_iff in Hr. destruct Hr as [x [<- Hx]].
    destruct (In_nth P x [] Hx) as [k [Hk Ek]].
    apply Rle_antisym; [|apply MetricFacts.nearest_nonneg].
    eapply Rle_trans.
    + apply (MetricFacts.nearest_le P S x (Z.of_nat k)).
      apply (MetricFacts.full_subset_covers (List.length P)); assumption.
    + unfold Engine.row, Engine.rowN. rewrite Nat2Z.id, Ek.
      rewrite MetricFacts.dist_self. apply Rle_refl.
Qed.

Lemma score_nonneg_zero_when_full_witness :
  Engine.valid_subset 2 [1; 0]%Z
  /\ exists r : R,
       Engine.score [[0%R]; [1%R]] [1; 0]%Z = inr r
       /\ (0 <= r)%R
       /\ (List.length [1; 0]%Z = List.length [[0%R]; [1%R]] -> r = 0%R).
Proof.
  assert (Engine.valid_subset 2 [1; 0]%Z) as Hv.
  { split; [discriminate|]. split.
    - intros i Hi. simpl in Hi. lia.
    - repeat constructor; simpl; intuition lia. }
  split; [exact Hv|].
  exact (score_nonneg_zero_when_full [[0%R]; [1%R]] [1; 0]%Z Hv).
Defined.

(** ** The engine as specified: the strategies *)

Module ListFacts.
Import Engine.

Lemma split_at (A : Type) (d : A) (l : list A) :
  forall i, (i < List.length l)%nat ->
            l = firstn i l ++ nth i l d :: skipn (S i) l.
Proof.
  induction l as [|x l IH]; intros i Hi; simpl in Hi; [lia|].
  destruct i as [|i]; simpl; [reflexivity|].
  f_equal. apply IH. lia.
Qed.


Lemma remove_at_length (A : Type) (l : list A) (i : nat) :
  (i < List.length l)%nat ->
  List.length (remove_at i l) = (List.length l - 1)%nat.
Proof.
  intros Hi. unfold remove_at.
  rewrite length_app, length_firstn, length_skipn. lia.
Qed.

Lemma remove_at_In (A : Type) (l : list A) (i : nat) (x : A) :
  In x (remove_at i l) -> In x l.
Proof.
  unfold remove_at. intros H. rewrite <- (firstn_skipn i l).
  apply in_app_or in H. apply in_or_app.
  destruct H as [H | H]; [left; exact H|]. right.
  rewrite <- (firstn_skipn 1 (skipn i l)). apply in_or_app. right.
  rewrite skipn_skipn. exact H.
Qed.

Lemma remove_at_nth_lt (A : Type) (d : A) (l : list A) (i j : nat) :
  (i < j)%nat -> nth i (remove_at j l) d = nth i l d.
Proof.
  intros Hij. unfold remove_at.
  destruct (Nat.lt_ge_cases j (List.length l)) as [Hj | Hj].
  - rewrite app_nth1 by (rewrite length_firstn; lia).
    rewrite nth_firstn.
    assert ((i <? j)%nat = true) as -> by (apply Nat.ltb_lt; exact Hij).
    reflexivity.
  - rewrite skipn_all2 by lia. rewrite app_nil_r.
    rewrite firstn_all2 by lia. reflexivity.
Qed.

Lemma replace_at_length (A : Type) (l : list A) (i : nat) (x : A) :
  (i < List.length l)%nat ->
  List.length (replace_at i x l) = List.length l.
Proof.
  intros Hi. unfold replace_at.
  rewrite length_app, length_firstn. cbn [List.length].
  rewrite length_skipn. lia.
Qed.

Lemma replace_at_In (A : Type) (l : list A) (i : nat) (x y : A) :
  In y (replace_at i x l) -> y = x \/ In y l.
Proof.
  unfold replace_at. intros H. apply in_app_or in H.
  destruct H as [H | [H | H]].
  - right. rewrite <- (firstn_skipn i l). apply in_or_app. left. exact H.
  - left. symmetry. exact H.
  - right. apply (remove_at_In A l i). unfold remove_at.
    apply in_or_app. right. exact H.
Qed.

Lemma concat_replace_at (A : Type) (l : list (list A)) (i : nat)
    (x : list A) :
  Permutation (concat (replace_at i x l)) (x ++ concat (remove_at i l)).
Proof.
  unfold replace_at, remove_at. rewrite !concat_app. simpl.
  rewrite !app_assoc. apply Permutation_app_tail, Permutation_app_comm.
Qed.

Lemma concat_remove_at (A : Type) (l : list (list A)) (i : nat) :
  (i < List.length l)%nat ->
  Permutation (concat l) (nth i l [] ++ concat (remove_at i l)).
Proof.
  intros Hi. rewrite (split_at _ [] l i Hi) at 1.
  apply (concat_replace_at A l i (nth i l [])).
Qed.

Lemma fold_left_choice (A : Type) (f : A -> A -> A) :
  (forall b p, f b p = b \/ f b p = p) ->
  forall ps p0, In (fold_left f ps p0) (p0 :: ps).
Proof.
  intros Hf. induction ps as [|p ps IH]; intros p0; simpl.
  - left. reflexivity.
  - destruct (IH (f p0 p)) as [E | H].
    + destruct (Hf p0 p) as [E' | E']; [left | right; left];
        (transitivity (f p0 p); [symmetry; exact E' | exact E]).
    + right. right. exact H.
Qed.

Lemma pairs_In (n i j : nat) :
  In (i, j) (pairs n) -> (i < j < n)%nat.
Proof.
  unfold pairs. intros H. apply in_flat_map in H.
  destruct H as [a [Ha H]]. apply in_map_iff in H.
  destruct H as [b [E Hb]]. injection E as -> ->.
  apply in_seq in Ha. apply in_seq in Hb. lia.
Qed.

Lemma pairs_nonempty (n : nat) : (2 <= n)%nat -> pairs n <> [].
Proof.
  intros Hn H.
  assert (In (0, 1)%nat (pairs n)) as Hin; [|rewrite H in Hin; exact Hin].
  unfold pairs. apply in_flat_map. exists 0%nat.
  split; [apply in_seq; lia|]. apply in_map. apply in_seq. lia.
Qed.

Lemma concat_singletons (l : list nat) :
  concat (map (fun i => [i]) l) = l.
Proof.
  induction l as [|x l IH]; simpl; [reflexivity | rewrite IH; reflexivity].
Qed.

(** One chosen member per part of a duplicate-free partition: the
    chosen members are distinct. *)
Lemma chosen_NoDup (f : list nat -> nat) (cs : list (list nat)) :
  NoDup (concat cs) -> (forall c, In c cs -> In (f c) c) ->
  NoDup (map f cs).
Proof.
  induction cs as [|c cs IH]; simpl; intros Hnd Hf; [constructor|].
  constructor.
  - intros Hin. apply in_map_iff in Hin. destruct Hin as [c' [E Hc']].
    assert (In (f c) c) as H1 by (apply Hf; left; reflexivity).
    assert (In (f c) (concat cs)) as H2.
    { apply in_concat. exists c'. split; [exact Hc'|].
      rewrite <- E. apply Hf. right. exact Hc'. }
    assert (forall r, In r c -> In r (concat cs) -> False) as Hdisj.
    { clear - Hnd. induction c as [|a c IHc]; intros r H1 H2;
        simpl in *; [tauto|].
      inversion Hnd as [|x l Hn Hd]; subst.
      destruct H1 as [E1 | H1]; [subst a|apply (IHc Hd r); assumption].
      apply Hn. apply in_or_app. right. exact H2. }
    exact (Hdisj (f c) H1 H2).
  - apply IH; [apply (NoDup_app_remove_l c); exact Hnd|].
    intros c' Hc'. apply Hf. right. exact Hc'.
Qed.

End ListFacts.

Section StrategyFacts.
Import Engine.

Variable Gen : Type.
Variable draw : Gen -> nat -> nat * Gen.
Variable link : list R -> R.


Lemma merge_partition (N : nat) (cs : list (list nat)) (i j : nat) :
  (i < j < List.length cs)%nat ->
  partition_of N cs ->
  partition_of N (merge cs i j)
  /\ List.length (merge cs i j) = (List.length cs - 1)%nat.
Proof.
  intros Hij [Hp Hne]. unfold merge.
  assert (List.length (remove_at j cs) = (List.length cs - 1)%nat) as Hl
    by (apply ListFacts.remove_at_length; lia).
  assert (nth i (remove_at j cs) [] = nth i cs []) as Hi
    by (apply ListFacts.remove_at_nth_lt; lia).
  split; [split|].
  - rewrite ListFacts.concat_replace_at. rewrite <- Hp.
    rewrite (ListFacts.concat_remove_at nat cs j) by lia.
    rewrite (ListFacts.concat_remove_at nat (remove_at j cs) i) by lia.
    rewrite Hi. rewrite <- app_assoc. apply Permutation_app_swap_app.
  - apply Forall_forall. intros c Hc.
    rewrite Forall_forall in Hne.
    apply ListFacts.replace_at_In in Hc. destruct Hc as [-> | Hc].
    + assert (nth i cs [] <> []) as Hn
        by (apply Hne, nth_In; lia).
      destruct (nth i cs []); [congruence | discriminate].
    + apply Hne. eapply ListFacts.remove_at_In. exact Hc.
  - rewrite ListFacts.replace_at_length; lia.
Qed.

Lemma closest_pair_some (P : Population) (cs : list (list nat)) :
  (2 <= List.length cs)%nat ->
  exists i j, closest_pair link P cs = Some (i, j)
              /\ (i < j < List.length cs)%nat.
Proof.
  intros Hn. unfold closest_pair.
  pose proof (ListFacts.pairs_nonempty (List.length cs) Hn) as Hne.
  destruct (pairs (List.length cs)) as [|p0 ps] eqn:E; [congruence|].
  match goal with
  | |- context [fold_left ?f ps p0] =>
      pose proof (ListFacts.fold_left_choice _ f) as Hc
  end.
  simpl in Hc. specialize (Hc (fun b p =>
    match Rlt_dec (cost link P cs p) (cost link P cs b) as s
      return ((if s then p else b) = b \/ (if s then p else b) = p)
    with left _ => or_intror eq_refl | right _ => or_introl eq_refl end)
    ps p0).
  match goal with
  | |- context [fold_left ?f ps p0] => destruct (fold_left f ps p0) as [i j]
  end.
  exists i, j. split; [reflexivity|].
  apply ListFacts.pairs_In. rewrite E. exact Hc.
Qed.

Lemma merge_step_partition (P : Population) (N : nat)
    (cs : list (list nat)) :
  partition_of N cs ->
  partition_of N (merge_step link P cs)
  /\ List.length (merge_step link P cs)
     = (if (2 <=? List.length cs)%nat then List.length cs - 1
        else List.length cs)%nat.
Proof.
  intros Hp. unfold merge_step.
  destruct (2 <=? List.length cs)%nat eqn:E.
  - apply Nat.leb_le in E.
    destruct (closest_pair_some P cs E) as [i [j [-> Hij]]].
    apply merge_partition; assumption.
  - apply Nat.leb_gt in E. unfold closest_pair.
    assert (pairs (List.length cs) = []) as ->.
    { destruct (pairs (List.length cs)) as [|[i j] ps] eqn:Ep; [reflexivity|].
      assert (i < j < List.length cs)%nat
        by (apply ListFacts.pairs_In; rewrite Ep; left; reflexivity).
      lia. }
    split; [exact Hp | reflexivity].
Qed.

Lemma iter_merge_partition (P : Population) (N : nat) :
  forall (m : nat) (cs : list (list nat)),
    partition_of N cs -> (m < List.length cs)%nat ->
    partition_of N (Nat.iter m (merge_step link P) cs)
    /\ List.length (Nat.iter m (merge_step link P) cs)
       = (List.length cs - m)%nat.
Proof.
  induction m as [|m IH]; intros cs Hp Hm; simpl.
  - split; [exact Hp | lia].
  - destruct (IH cs Hp) as [Hp' Hl']; [lia|].
    destruct (merge_step_partition P N _ Hp') as [Hp'' Hl''].
    split; [exact Hp''|]. rewrite Hl'', Hl'.
    assert ((2 <=? List.length cs - m)%nat = true) as ->
      by (apply Nat.leb_le; lia).
    lia.
Qed.

(** Agglomeration into [k] clusters, [1 <= k <= N], yields a partition
    of the positions into exactly [k] non-empty clusters. *)
Lemma agglomerate_partition (P : Population) (k : nat) :
  (1 <= k <= List.length P)%nat ->
  partition_of (List.length P) (agglomerate link P k)
  /\ List.length (agglomerate link P k) = k.
Proof.
  intros Hk. unfold agglomerate.
  destruct (iter_merge_partition P (List.length P) (List.length P - k)
              (map (fun i => [i]) (seq 0 (List.length P)))) as [Hp Hl].
  - split; [rewrite ListFacts.concat_singletons; reflexivity|].
    apply Forall_forall. intros c Hc. apply in_map_iff in Hc.
    destruct Hc as [i [<- _]]. discriminate.
  - rewrite length_map, length_seq. lia.
  - split; [exact Hp|]. rewrite Hl, length_map, length_seq. lia.
Qed.

Lemma closer_step (P : Population) (ctr : Vec) (b x : nat) :
  (closer P ctr b x = b \/ closer P ctr b x = x)
  /\ nearer P ctr (closer P ctr b x) x
  /\ (forall j, nearer P ctr b j -> nearer P ctr (closer P ctr b x) j).
Proof.
  unfold closer, nearer.
  destruct (Rlt_dec (dist (rowN P x) ctr) (dist (rowN P b) ctr)) as [H1|H1].
  - split; [right; reflexivity|]. split; [split; [lra | lia]|].
    intros j [Hj _]. split; lra.
  - destruct (Rlt_dec (dist (rowN P b) ctr) (dist (rowN P x) ctr))
      as [H2|H2].
    + split; [left; reflexivity|]. split; [split; lra|]. auto.
    + assert (dist (rowN P b) ctr = dist (rowN P x) ctr) as E by lra.
      destruct (Nat.le_ge_cases b x) as [Hbx|Hbx].
      * rewrite Nat.min_l by exact Hbx.
        split; [left; reflexivity|]. split; [split; [lra | lia]|]. auto.
      * rewrite Nat.min_r by exact Hbx.
        split; [right; reflexivity|]. split; [split; [lra | lia]|].
        intros j [Hj Hij]. split; [lra|].
        intros Ej. assert (b <= j)%nat by (apply Hij; lra). lia.
Qed.

Lemma closer_fold (P : Population) (ctr : Vec) :
  forall (c' : list nat) (b : nat) (seen : list nat),
    In b seen -> (forall j, In j seen -> nearer P ctr b j) ->
    In (fold_left (closer P ctr) c' b) (seen ++ c')
    /\ (forall j, In j (seen ++ c') ->
                  nearer P ctr (fold_left (closer P ctr) c' b) j).
Proof.
  induction c' as [|x c' IH]; intros b seen Hb Hall; simpl.
  - rewrite app_nil_r. auto.
  - destruct (closer_step P ctr b x) as [Hc [Hx Hj]].
    replace (seen ++ x :: c') with ((seen ++ [x]) ++ c')
      by (rewrite <- app_assoc; reflexivity).
    apply IH.
    + apply in_or_app. destruct Hc as [-> | ->];
        [left; exact Hb | right; left; reflexivity].
    + intros j Hin. apply in_app_or in Hin.
      destruct Hin as [Hin | [<- | []]]; [apply Hj, Hall, Hin | exact Hx].
Qed.

(** The representative of a non-empty cluster is the member closest
    to the centroid, the smallest index among equally close ones. *)
Lemma representative_closest (P : Population) (c : list nat) :
  c <> [] ->
  In (representative P c) c
  /\ (forall j, In j c ->
        nearer P (centroid P c) (representative P c) j).
Proof.
  destruct c as [|i c']; [congruence|]. intros _.
  unfold representative.
  apply (closer_fold P (centroid P (i :: c')) c' i [i]).
  - left. reflexivity.
  - intros j [<- | []]. split; [apply Rle_refl | lia].
Qed.

Lemma of_nat_NoDup (l : list nat) : NoDup l -> NoDup (map Z.of_nat l).
Proof.
  induction 1 as [|x l Hn _ IH]; simpl; constructor; [|exact IH].
  intros Hin. apply in_map_iff in Hin. destruct Hin as [y [E Hy]].
  apply Nat2Z.inj in E. subst y. exact (Hn Hy).
Qed.

Lemma valid_size_true (N : nat) (size : Z) :
  valid_size N size = true <-> (1 <= size <= Z.of_nat N)%Z.
Proof. unfold valid_size. rewrite andb_true_iff. lia. Qed.

(** The representatives of a partition into [k >= 1] clusters form a
    subset the metric accepts. *)
Lemma representatives_valid (P : Population) (cs : list (list nat)) :
  partition_of (List.length P) cs -> (1 <= List.length cs)%nat ->
  let subset := map (fun c => Z.of_nat (representative P c)) cs in
  List.length subset = List.length cs
  /\ NoDup subset
  /\ (forall i, In i subset -> (0 <= i < Z.of_nat (List.length P))%Z).
Proof.
  intros [Hp Hne] Hk subset. unfold subset.
  rewrite Forall_forall in Hne.
  split; [apply length_map|]. split.
  - rewrite <- (map_map (representative P) Z.of_nat).
    apply of_nat_NoDup, ListFacts.chosen_NoDup.
    + eapply Permutation_NoDup; [symmetry; exact Hp | apply seq_NoDup].
    + intros c Hc. apply representative_closest, Hne, Hc.
  - intros i Hi. apply in_map_iff in Hi. destruct Hi as [c [<- Hc]].
    assert (In (representative P c) (seq 0 (List.length P))) as Hin.
    { eapply Permutation_in; [exact Hp|]. apply in_concat.
      exists c. split; [exact Hc|].
      apply representative_closest, Hne, Hc. }
    apply in_seq in Hin. lia.
Qed.

End StrategyFacts.

Section EngineClaims.
Import Engine.

Variable Gen : Type.
Variable draw : Gen -> nat -> nat * Gen.
Variable link : list R -> R.


Lemma hierarchical_execute_valid (P : Population) (size : Z) :
  (1 <= size <= Z.of_nat (List.length P))%Z ->
  hierarchical_execute link P size
  = inr (map (fun c => Z.of_nat (representative P c))
             (agglomerate link P (Z.to_nat size))).
Proof.
  intros Hs. unfold hierarchical_execute.
  rewrite (proj2 (valid_size_true (List.length P) size) Hs).
  reflexivity.
Qed.

(** An integer size is handed to the strategy as the count it is. *)
Lemma execute_count (P : Population) (size : Q) (strat : Strategy)
    (g : Gen) :
  Py.is_integer size = true ->
  execute draw link strat P size g
  = match strat with
    | RANDOM => random_execute draw P (Qfloor size) g
    | HIERARCHICAL => (hierarchical_execute link P (Qfloor size), g)
    end.
Proof. intros H. unfold execute. rewrite H. reflexivity. Qed.

Lemma is_integer_count (z : Z) : Py.is_integer (inject_Z z) = true.
Proof.
  unfold Py.is_integer. rewrite Qfloor_Z. apply Qeq_bool_iff. reflexivity.
Qed.



(** With an acceptable size, HIERARCHICAL selection returns the
    representatives of the clusters together with their score. *)
Lemma hierarchical_select_returns (P : Population) (k : Z) (g : Gen) :
  (1 <= k <= Z.of_nat (List.length P))%Z ->
  select draw link P (inject_Z k) HIERARCHICAL g
  = (inr (map (fun c => Z.of_nat (representative P c))
              (agglomerate link P (Z.to_nat k)),
          lard P (map (fun c => Z.of_nat (representative P c))
                      (agglomerate link P (Z.to_nat k)))), g).
Proof.
  intros Hk.
  destruct (agglomerate_partition link P (Z.to_nat k)) as [Hp Hl]; [lia|].
  destruct (representatives_valid P _ Hp) as [L [N I]]; [lia|].
  unfold select.
  rewrite (execute_count P (inject_Z k) HIERARCHICAL g (is_integer_count k)).
  rewrite Qfloor_Z.
  rewrite (hierarchical_execute_valid P k Hk).
  rewrite MetricFacts.score_valid; [reflexivity|].
  split; [|split; assumption].
  destruct (agglomerate link P (Z.to_nat k)); [simpl in Hl; lia | discriminate].
Qed.

(** C7.  For every population of size [N] and every [k] in [1, N],
    [select(k, HIERARCHICAL)] returns a subset with its score.  The
    subset has exactly [k] indices, each in [0, N), none repeated:
    one per cluster of a partition of the population into [k]
    non-empty clusters, namely the member closest to the cluster's
    centroid, the smallest index among equally close members. *)
Theorem hierarchical_selects_representatives (P : Population) (k : Z)
    (g : Gen) :
  (1 <= k <= Z.of_nat (List.length P))%Z ->
  exists clusters subset sc,
    select draw link P (inject_Z k) HIERARCHICAL g = (inr (subset, sc), g)
    /\ subset = map (fun c => Z.of_nat (representative P c)) clusters
    /\ partition_of (List.length P) clusters
    /\ List.length clusters = Z.to_nat k
    /\ List.length subset = Z.to_nat k
    /\ NoDup subset
    /\ (forall i, In i subset -> (0 <= i < Z.of_nat (List.length P))%Z)
    /\ (forall c, In c clusters ->
          In (representative P c) c
          /\ forall j, In j c ->
               nearer P (centroid P c) (representative P c) j).
Proof.
  intros Hk.
  destruct (agglomerate_partition link P (Z.to_nat k)) as [Hp Hl]; [lia|].
  destruct (representatives_valid P _ Hp) as [L [N I]]; [lia|].
  set (cs := agglomerate link P (Z.to_nat k)) in *.
  set (subset := map (fun c => Z.of_nat (representative P c)) cs) in *.
  exists cs, subset, (lard P subset).
  split.
  - apply hierarchical_select_returns; assumption.
  - split; [reflexivity|]. split; [exact Hp|]. split; [exact Hl|].
    split; [lia|]. split; [exact N|]. split; [exact I|].
    intros c Hc. apply representative_closest.
    destruct Hp as [_ Hne]. rewrite Forall_forall in Hne. apply Hne, Hc.
Qed.



End EngineClaims.

(** ** The engine on concrete populations *)


Lemma hierarchical_selects_representatives_witness :
  (1 <= 2 <= Z.of_nat (List.length Engine.line3))%Z
  /\ exists clusters subset sc,
       Engine.select Engine.counter_draw Engine.single_link
         Engine.line3 (inject_Z 2) HIERARCHICAL 0%nat
       = (inr (subset, sc), 0%nat)
       /\ subset
          = map (fun c => Z.of_nat (Engine.representative Engine.line3 c))
                clusters
       /\ List.length subset = 2%nat
       /\ NoDup subset
       /\ (forall i, In i subset -> (0 <= i < 3)%Z).
Proof.
  assert (1 <= 2 <= Z.of_nat (List.length Engine.line3))%Z as H1
    by (simpl; lia).
  split; [exact H1|].
  destruct (hierarchical_selects_representatives nat Engine.counter_draw
              Engine.single_link Engine.line3 2 0%nat H1)
    as [cs [subset [sc [E [Es [_ [_ [L [N I]]]]]]]]].
  exists cs, subset, sc. repeat split; try assumption; apply I; assumption.
Defined.

(** * Further properties of the code *)

(** ** Resolved simulation sizes *)

Module RoundFacts.

(** At most one half rounds down to zero: the tie goes to the even
    neighbour. *)
Lemma round_small (x : Q) :
  (0 <= x)%Q -> (x <= 1 # 2)%Q -> Py.round x = 0%Z.
Proof.
  intros H0 H1.
  assert (Qfloor x = 0%Z) as F.
  { pose proof (Qfloor_le x) as Hlo. pose proof (Qlt_floor x) as Hhi.
    assert (-1 < Qfloor x)%Z.
    { rewrite Zlt_Qlt. rewrite inject_Z_plus in Hhi.
      change (inject_Z 1) with 1%Q in Hhi. change (inject_Z (-1)) with (-1)%Q.
      Lqa.lra. }
    assert (Qfloor x < 1)%Z.
    { rewrite Zlt_Qlt. change (inject_Z 1) with 1%Q. Lqa.lra. }
    lia. }
  unfold Py.round. cbv zeta. rewrite F. change (inject_Z 0) with 0%Q.
  destruct (Qcompare (x - 0) (1 # 2)) eqn:E; try reflexivity.
  apply Qgt_alt in E. Lqa.lra.
Qed.

End RoundFacts.

(** X2.  On a table of at most fifty rows the one-percent reference
    fraction resolves to the size 0, so the list handed to the
    simulation holds the size 0 whenever the fraction is among the
    sizes of interest. *)
Theorem small_table_simulates_size_zero (N : nat) (ns : list Q) :
  (N <= 50)%nat ->
  (exists q, In q ns /\ (q == 1 # 100)%Q) ->
  In 0%Q (simulation_sizes N ns).
Proof.
  intros HN [q [Hq Eq]].
  destruct (PyFacts.set_list_covers q ns Hq) as [y [Hy Ey]].
  unfold simulation_sizes. apply PyFacts.sorted_In, in_map_iff.
  exists y. split; [|exact Hy].
  assert (y == 1 # 100)%Q as E by (rewrite Ey; exact Eq).
  unfold effective_size.
  assert (Qle_bool 1 y = false) as ->.
  { destruct (Qle_bool 1 y) eqn:B; [|reflexivity].
    apply Qle_bool_iff in B. rewrite E in B.
    exfalso. apply (Qle_not_lt _ _ B). reflexivity. }
  assert (0 <= inject_Z (Z.of_nat N) <= 50)%Q as [H0 H50].
  { split.
    - change 0%Q with (inject_Z 0). rewrite <- Zle_Qle. lia.
    - change 50%Q with (inject_Z 50). rewrite <- Zle_Qle. lia. }
  rewrite RoundFacts.round_small; [reflexivity | |].
  - apply Qmult_le_0_compat; [exact H0|]. rewrite E. discriminate.
  - rewrite E. Lqa.lra.
Qed.

Lemma small_table_simulates_size_zero_witness :
  (10 <= 50)%nat
  /\ (exists q, In q RANDOM_NS_init /\ (q == 1 # 100)%Q)
  /\ In 0%Q (simulation_sizes 10 RANDOM_NS_init).
Proof.
  assert (10 <= 50)%nat as H1 by lia.
  assert (exists q, In q RANDOM_NS_init /\ (q == 1 # 100)%Q) as H2.
  { exists (1 # 100). split; [left; reflexivity | reflexivity]. }
  split; [exact H1|]. split; [exact H2|].
  exact (small_table_simulates_size_zero 10 RANDOM_NS_init H1 H2).
Defined.

(** ** The selection action: what it reports, publishes and leaves alone *)

Section SidebarMore.

Variables (World Score Exn Row : Type).
Variable engine_select :
  list Row -> Q -> Strategy -> World -> (Exn + (Subset * Score)) * World.
Variable engine_score :
  list Row -> Subset -> World -> (Exn + Score) * World.

Lemma notified_only_refl (st : State World Score Exn) :
  notified_only [] st st.
Proof. unfold notified_only. rewrite app_nil_r. auto. Qed.

Lemma notified_only_trans e1 e2 (st st1 st2 : State World Score Exn) :
  notified_only e1 st st1 -> notified_only e2 st1 st2 ->
  notified_only (e1 ++ e2) st st2.
Proof.
  intros [A1 [A2 [A3 A4]]] [B1 [B2 [B3 B4]]]. unfold notified_only.
  rewrite B1, B2, B3, B4, A1, A2, A3, A4, app_assoc. auto.
Qed.

Lemma notify_all (errs : list ValidationError) :
  forall st, exists us st',
    mapM (@error_notification World Score Exn) errs st = (inr us, st')
    /\ notified_only errs st st'.
Proof.
  induction errs as [|e errs IH]; intros st.
  - exists [], st. split; [reflexivity | apply notified_only_refl].
  - set (st1 := {| world := world st; RANDOM_NS := RANDOM_NS st;
                   calls := calls st; notified := notified st ++ [e] |}).
    destruct (IH st1) as [us [st' [E H]]].
    exists (tt :: us), st'. split.
    + simpl mapM. unfold bind at 1. unfold error_notification at 1.
      cbv beta iota. fold st1. unfold bind at 1. rewrite E. reflexivity.
    + apply (notified_only_trans [e] errs st st1 st'); [|exact H].
      unfold notified_only. simpl. auto.
Qed.

(** A part of the action that is switched off or fails validation
    yields no entry and only notifies its errors. *)
Lemma conditional_skipped (sw : bool) (errs : list ValidationError)
    (m : M World Score Exn (SurrDict Score)) (st : State World Score Exn) :
  sw && match errs with [] => true | _ => false end = false ->
  exists st',
    _process_conditional sw errs m st = (inr [], st')
    /\ notified_only (if sw then errs else []) st st'.
Proof.
  intros H. unfold _process_conditional. destruct sw.
  - destruct errs as [|e errs]; [discriminate|].
    destruct (notify_all (e :: errs) st) as [us [st' [E N]]].
    unfold bind. rewrite E. unfold ret. exists st'. auto.
  - exists st. split; [reflexivity | apply notified_only_refl].
Qed.

(** X3.  When no data is loaded, or neither the automatic nor the user
    part of the selection runs (each switched off or failing its
    validation), a click calls neither [select] nor [score], leaves the
    list [RANDOM_NS] and the engine alone, does not invoke the callback
    and notifies exactly the validation errors, in order. *)
Theorem select_nothing_to_do (desc : Desc Row) (inp : Inputs)
    (st : State World Score Exn) :
  desc = []
  \/ (auto_runs inp = false /\ user_runs (map fst desc) inp = false) ->
  exists st',
    select engine_select engine_score desc inp st = (inr None, st')
    /\ world st' = world st
    /\ RANDOM_NS st' = RANDOM_NS st
    /\ calls st' = calls st
    /\ notified st' = notified st ++ click_errors (map fst desc) inp.
Proof.
  intros H. destruct desc as [|d0 ds].
  - eexists. split; [reflexivity|]. simpl. auto.
  - destruct H as [H | [Ha Hu]]; [discriminate|].
    remember (d0 :: ds) as desc eqn:Hd.
    assert (select engine_select engine_score desc inp
            = select_loaded engine_select engine_score desc inp) as ->
      by (rewrite Hd; reflexivity).
    assert (click_errors (map fst desc) inp
            = (if in_include_auto inp
               then _validate_auto (in_n inp) (in_strats inp) else [])
              ++ (if in_include_user inp
                  then _validate_user
                         (Text.user_idx (map fst desc) (in_user_ids inp))
                  else [])) as ->
      by (rewrite Hd; reflexivity).
    clear Hd. unfold select_loaded, auto_runs, user_runs in *.
    match goal with
    | |- context [_process_conditional ?sw ?errs ?m] =>
        destruct (conditional_skipped sw errs m st Ha) as [st1 [E1 N1]]
    end.
    unfold bind at 1. rewrite E1.
    match goal with
    | |- context [bind (_process_conditional ?sw ?errs ?m)] =>
        destruct (conditional_skipped sw errs m st1 Hu) as [st2 [E2 N2]]
    end.
    unfold bind at 1. rewrite E2. simpl dict_merge. cbv iota.
    exists st2. split; [reflexivity|].
    exact (notified_only_trans _ _ st st1 st2 N1 N2).
Qed.

End SidebarMore.

Lemma select_nothing_to_do_witness :
  auto_runs (Toy.auto_only 0) = false
  /\ user_runs (map fst (Toy.table 3)) (Toy.auto_only 0) = false
  /\ exists st',
       toy_click (Toy.table 3) (Toy.auto_only 0) Toy.start = (inr None, st')
       /\ calls st' = []
       /\ RANDOM_NS st' = RANDOM_NS_init
       /\ notified st' = [N_INVALID].
Proof.
  assert (auto_runs (Toy.auto_only 0) = false) as H1 by reflexivity.
  assert (user_runs (map fst (Toy.table 3)) (Toy.auto_only 0) = false)
    as H2 by reflexivity.
  split; [exact H1|]. split; [exact H2|].
  destruct (select_nothing_to_do nat Q unit unit Toy.select Toy.score
              (Toy.table 3) (Toy.auto_only 0) Toy.start
              (or_intror (conj H1 H2)))
    as [st' [E [_ [N [C T]]]]].
  exists st'. split; [exact E|]. split; [exact C|].
  split; [exact N | exact T].
Defined.

(** ** The simulation when a selection raises *)

Section SimulationFailure.

Variables (World Score Exn Row : Type).
Variable engine_select :
  list Row -> Q -> Strategy -> World -> (Exn + (Subset * Score)) * World.

Lemma firstn_repeat (A : Type) (x : A) (k m : nat) :
  (m <= k)%nat -> firstn m (repeat x k) = repeat x m.
Proof.
  revert k. induction m as [|m IH]; intros k H; [reflexivity|].
  destruct k as [|k]; [lia|]. simpl. f_equal. apply IH. lia.
Qed.

Lemma random_trial_outcome (rows : list Row) (n : Q)
    (st : State World Score Exn) res st' :
  random_trial engine_select rows n st = (res, st') ->
  RANDOM_NS st' = RANDOM_NS st /\ notified st' = notified st
  /\ exists c,
       calls st' = calls st ++ [c]
       /\ call_size c = n /\ call_strategy c = RANDOM
       /\ match res with
          | inl e => call_result c = inl e
          | inr s => exists sub, call_result c = inr (sub, s)
          end.
Proof.
  unfold random_trial, bind, select_call.
  destruct (engine_select rows n RANDOM (world st)) as [[e|[sub s]] w];
    unfold ret; intros H; injection H as <- <-; simpl;
    (split; [reflexivity|]); (split; [reflexivity|]);
    eexists; (split; [reflexivity|]); simpl; repeat split.
  exists sub. reflexivity.
Qed.

(** One block of trials: the calls made are trials of the size, as
    many as asked when the block completes, fewer or as many and ending
    with the raising call otherwise. *)
Lemma random_block_outcome (rows : list Row) (n : Q) :
  forall (l : list nat) (st : State World Score Exn) res st',
    mapM (fun _ => random_trial engine_select rows n) l st = (res, st') ->
    RANDOM_NS st' = RANDOM_NS st /\ notified st' = notified st
    /\ exists cs,
         calls st' = calls st ++ cs
         /\ map (@call_size Score Exn) cs = repeat n (List.length cs)
         /\ Forall (fun c => call_strategy c = RANDOM) cs
         /\ (List.length cs <= List.length l)%nat
         /\ match res with
            | inl e => stopped_at e cs
            | inr scores =>
                List.length cs = List.length l
                /\ Forall (@succeeded Score Exn) cs
            end.
Proof.
  induction l as [|x l IH]; intros st res st' H.
  - simpl in H. unfold ret in H. injection H as <- <-.
    split; [reflexivity|]. split; [reflexivity|].
    exists []. rewrite app_nil_r. simpl.
    repeat split; constructor.
  - simpl mapM in H. unfold bind at 1 in H.
    destruct (random_trial engine_select rows n st) as [r1 st1] eqn:E1.
    apply random_trial_outcome in E1.
    destruct E1 as [N1 [T1 [c [C1 [Sz [St R1]]]]]].
    destruct r1 as [e|s].
    + injection H as <- <-. split; [exact N1|]. split; [exact T1|].
      exists [c]. simpl. rewrite Sz.
      split; [exact C1|]. split; [reflexivity|].
      split; [constructor; [exact St | constructor]|].
      split; [lia|].
      exists [], c. split; [reflexivity|]. split; [exact R1 | constructor].
    + unfold bind at 1 in H.
      destruct (mapM (fun _ => random_trial engine_select rows n) l st1)
        as [r2 st2] eqn:E2.
      apply IH in E2.
      destruct E2 as [N2 [T2 [cs [C2 [Sz2 [St2 [Le2 R2]]]]]]].
      assert (st' = st2) as ->
        by (destruct r2; unfold ret in H; injection H as _ <-; reflexivity).
      split; [congruence|]. split; [congruence|].
      exists (c :: cs).
      split; [rewrite C2, C1, <- app_assoc; reflexivity|].
      split; [simpl; rewrite Sz, Sz2; reflexivity|].
      split; [constructor; assumption|].
      split; [simpl; lia|].
      assert (succeeded c) as Hc.
      { destruct R1 as [sub R1]. eexists. exact R1. }
      destruct r2 as [e|ss]; unfold ret in H; injection H as <-.
      * destruct R2 as [cs0 [c' [-> [Rc F0]]]].
        exists (c :: cs0), c'. repeat split; [exact Rc|].
        constructor; assumption.
      * destruct R2 as [L2 F2]. split; [simpl; lia|].
        constructor; assumption.
Qed.

Lemma simulation_blocks_outcome (rows : list Row) (l : list nat) :
  forall (ns : list Q) (st : State World Score Exn) res st',
    mapM (fun n => mapM (fun _ => random_trial engine_select rows n) l)
         ns st = (res, st') ->
    RANDOM_NS st' = RANDOM_NS st /\ notified st' = notified st
    /\ exists cs,
         calls st' = calls st ++ cs
         /\ map (@call_size Score Exn) cs
            = firstn (List.length cs)
                     (flat_map (fun n => repeat n (List.length l)) ns)
         /\ Forall (fun c => call_strategy c = RANDOM) cs
         /\ match res with
            | inl e => stopped_at e cs
            | inr _ => Forall (@succeeded Score Exn) cs
            end.
Proof.
  induction ns as [|n ns IH]; intros st res st' H.
  - simpl in H. unfold ret in H. injection H as <- <-.
    split; [reflexivity|]. split; [reflexivity|].
    exists []. rewrite app_nil_r. simpl. repeat split; constructor.
  - simpl mapM in H. unfold bind at 1 in H.
    destruct (mapM (fun _ => random_trial engine_select rows n) l st)
      as [r1 st1] eqn:E1.
    apply random_block_outcome in E1.
    destruct E1 as [N1 [T1 [cb [C1 [Sz1 [St1 [Le1 R1]]]]]]].
    destruct r1 as [e|b].
    + injection H as <- <-. split; [exact N1|]. split; [exact T1|].
      exists cb. split; [exact C1|]. split.
      { cbn [flat_map]. rewrite firstn_app, repeat_length.
        replace (List.length cb - List.length l)%nat with 0%nat by lia.
        cbn [firstn]. rewrite app_nil_r, firstn_repeat by exact Le1.
        exact Sz1. }
      split; [exact St1 | exact R1].
    + unfold bind at 1 in H.
      destruct (mapM (fun n0 =>
                        mapM (fun _ => random_trial engine_select rows n0) l)
                     ns st1) as [r2 st2] eqn:E2.
      apply IH in E2. destruct E2 as [N2 [T2 [cs [C2 [Sz2 [St2 R2]]]]]].
      destruct R1 as [L1 F1].
      assert (st' = st2) as ->
        by (destruct r2; unfold ret in H; injection H as _ <-; reflexivity).
      split; [congruence|]. split; [congruence|].
      exists (cb ++ cs).
      split; [rewrite C2, C1, <- app_assoc; reflexivity|].
      split.
      { cbn [flat_map]. rewrite map_app, Sz1, Sz2, L1, length_app, L1.
        rewrite firstn_app, repeat_length.
        rewrite (@firstn_all2 Q (List.length l + List.length cs)
                   (repeat n (List.length l)))
          by (rewrite repeat_length; lia).
        replace (List.length l + List.length cs - List.length l)%nat
          with (List.length cs) by lia.
        reflexivity. }
      split; [apply Forall_app; auto|].
      destruct r2 as [e|bs]; unfold ret in H; injection H as <-.
      * destruct R2 as [cs0 [c' [-> [Rc F0]]]].
        exists (cb ++ cs0), c'. rewrite app_assoc.
        repeat split; [exact Rc|]. apply Forall_app; auto.
      * apply Forall_app; auto.
Qed.

(** X4.  When a selection raises during the simulation, the simulation
    raises the same exception and returns no result.  The calls it has
    made are the trials in block order up to the raising one, which is
    the last; every earlier call returned normally.  The list
    [RANDOM_NS] and the notifications are as before. *)
Theorem simulation_stops_at_failure (rows : list Row) (ns : list Q)
    (st st' : State World Score Exn) (e : Exn) :
  _simulate_random engine_select rows ns st = (inl e, st') ->
  exists cs,
    calls st' = calls st ++ cs
    /\ stopped_at e cs
    /\ Forall (fun c => call_strategy c = RANDOM) cs
    /\ map (@call_size Score Exn) cs
       = firstn (List.length cs) (Py.np_repeat ns RANDOM_REPS)
    /\ RANDOM_NS st' = RANDOM_NS st
    /\ notified st' = notified st.
Proof.
  unfold _simulate_random, bind. intros H.
  destruct (mapM (fun n =>
                    mapM (fun _ => random_trial engine_select rows n)
                         (seq 0 RANDOM_REPS))
                 ns st) as [r st1] eqn:E.
  apply simulation_blocks_outcome in E.
  destruct E as [N1 [T1 [cs [C1 [Sz [St R]]]]]].
  destruct r as [e'|blocks]; [|unfold ret in H; discriminate].
  injection H as <- <-. rewrite length_seq in Sz.
  exists cs. repeat split; assumption.
Qed.

End SimulationFailure.

Lemma simulation_stops_at_failure_witness :
  exists st' cs,
    _simulate_random Strict.select [tt; tt] [1; 0; 2] Toy.start
    = (inl tt, st')
    /\ calls st' = calls Toy.start ++ cs
    /\ stopped_at tt cs.
Proof.
  pose (out := _simulate_random Strict.select [tt; tt] [1; 0; 2] Toy.start).
  assert (fst out = inl tt) as F by (vm_compute; reflexivity).
  assert (out = (inl tt, snd out)) as E
    by (rewrite <- F; apply surjective_pairing).
  destruct (simulation_stops_at_failure nat Q unit unit Strict.select
              [tt; tt] [1; 0; 2] Toy.start (snd out) tt E)
    as [cs [C [S _]]].
  exists (snd out), cs. split; [exact E|]. split; [exact C | exact S].
Defined.

(** ** What a completed selection publishes *)

Module DictFacts.

Lemma SurrKey_eqb_eq (a b : SurrKey) : SurrKey_eqb a b = true <-> a = b.
Proof.
  destruct a as [[|]|], b as [[|]|]; simpl; split; intros H;
    try reflexivity; try discriminate; congruence.
Qed.

(** Setting a key the dict does not hold appends the entry. *)
Lemma dict_set_fresh (K V : Type) (eqb : K -> K -> bool)
    (k : K) (v : V) (d : list (K * V)) :
  (forall k', In k' (map fst d) -> eqb k k' = false) ->
  dict_set eqb k v d = d ++ [(k, v)].
Proof.
  induction d as [|[k' v'] d IH]; intros H; simpl; [reflexivity|].
  rewrite (H k') by (left; reflexivity).
  rewrite IH; [reflexivity|]. intros k'' Hk. apply H. right. exact Hk.
Qed.

(** Merging in entries with pairwise different keys, none of them held
    already, appends them in order. *)
Lemma dict_merge_fresh (K V : Type) (eqb : K -> K -> bool) :
  (forall a b, eqb a b = true <-> a = b) ->
  forall (b a : list (K * V)),
    NoDup (map fst b) ->
    (forall k, In k (map fst b) -> ~ In k (map fst a)) ->
    dict_merge eqb a b = a ++ b.
Proof.
  intros Heq. unfold dict_merge.
  induction b as [|[k v] b IH]; intros a Hnd Hdis; simpl.
  - rewrite app_nil_r. reflexivity.
  - inversion Hnd as [|x l Hn Hd]; subst.
    rewrite dict_set_fresh.
    + rewrite IH; [rewrite <- app_assoc; reflexivity | exact Hd |].
      intros k' Hk' Hin. rewrite map_app in Hin. apply in_app_or in Hin.
      destruct Hin as [Hin | [<- | []]].
      * apply (Hdis k'); [right; exact Hk' | exact Hin].
      * exact (Hn Hk').
    + intros k' Hk'. destruct (eqb k k') eqn:E; [|reflexivity].
      apply Heq in E. subst k'. exfalso.
      apply (Hdis k); [left; reflexivity | exact Hk'].
Qed.

End DictFacts.

Section Publishing.

Variables (World Score Exn Row : Type).
Variable engine_select :
  list Row -> Q -> Strategy -> World -> (Exn + (Subset * Score)) * World.
Variable engine_score :
  list Row -> Subset -> World -> (Exn + Score) * World.

Lemma select_call_frame (rows : list Row) (size : Q) (strat : Strategy)
    (st : State World Score Exn) r st1 :
  select_call engine_select rows size strat st = (r, st1) ->
  RANDOM_NS st1 = RANDOM_NS st /\ notified st1 = notified st
  /\ calls st1 = calls st ++ [{| call_size := size; call_strategy := strat;
                                 call_result := r |}].
Proof.
  unfold select_call.
  destruct (engine_select rows size strat (world st)) as [r0 w].
  intros H. injection H as <- <-. simpl. auto.
Qed.

(** The loop of [_process_auto], when it completes: one result per
    strategy, in order, each returned by the call recorded for it. *)
Lemma process_auto_loop_results (rows : list Row) (n : Q) :
  forall strats (st : State World Score Exn) rs' st',
    mapM (fun strat =>
            bind (select_call engine_select rows n strat)
                 (fun r => ret (KStrat strat, r))) strats st
    = (inr rs', st') ->
    exists rs,
      rs' = map (@strategy_entry Score) rs
      /\ map fst rs = strats
      /\ calls st' = calls st ++ map (@real_call Score Exn n) rs
      /\ RANDOM_NS st' = RANDOM_NS st
      /\ notified st' = notified st.
Proof.
  induction strats as [|s strats IH]; intros st rs' st' H.
  - simpl in H. unfold ret in H. injection H as <- <-.
    exists []. simpl. rewrite app_nil_r. auto.
  - simpl mapM in H. unfold bind at 1 2 in H.
    destruct (select_call engine_select rows n s st) as [r st1] eqn:E1.
    apply select_call_frame in E1. destruct E1 as [N1 [T1 C1]].
    destruct r as [e|r]; [discriminate|].
    unfold ret at 1 in H. unfold bind at 1 in H.
    match type of H with
    | context [mapM ?f strats st1] =>
        destruct (mapM f strats st1) as [res2 st2] eqn:E2
    end.
    destruct res2 as [e|ds]; [discriminate|].
    unfold ret in H. injection H as <- <-.
    apply IH in E2. destruct E2 as [rs [-> [Hs [C2 [N2 T2]]]]].
    exists ((s, r) :: rs). simpl.
    split; [reflexivity|]. split; [rewrite Hs; reflexivity|].
    split; [rewrite C2, C1, <- app_assoc; reflexivity|].
    split; congruence.
Qed.

Lemma process_auto_results (rows : list Row) (n : Q) (strats : list Strategy)
    (st : State World Score Exn) d st' :
  NoDup strats ->
  _process_auto engine_select rows n strats st = (inr d, st') ->
  exists rs,
    d = map (@strategy_entry Score) rs
    /\ map fst rs = strats
    /\ calls st' = calls st ++ map (@real_call Score Exn n) rs
    /\ RANDOM_NS st' = RANDOM_NS st
    /\ notified st' = notified st.
Proof.
  intros Hnd H. unfold _process_auto, bind in H.
  match type of H with
  | context [mapM ?f strats st] =>
      destruct (mapM f strats st) as [res1 st1] eqn:E
  end.
  destruct res1 as [e|rs']; [discriminate|].
  unfold ret in H. injection H as <- <-.
  apply process_auto_loop_results in E.
  destruct E as [rs [-> [Hs [C [N T]]]]].
  exists rs. split; [|auto].
  rewrite (DictFacts.dict_merge_fresh _ _ SurrKey_eqb
             DictFacts.SurrKey_eqb_eq (map (@strategy_entry Score) rs) []).
  - reflexivity.
  - rewrite map_map. simpl.
    rewrite <- (map_map fst KStrat), Hs.
    clear - Hnd. induction Hnd as [|x l Hn _ IH]; simpl; constructor; auto.
    intros Hin. apply in_map_iff in Hin. destruct Hin as [y [E Hy]].
    injection E as ->. exact (Hn Hy).
  - intros k _ [].
Qed.

Lemma process_user_results (rows : list Row) (uidx : list nat)
    (st : State World Score Exn) d st' :
  _process_user engine_score rows uidx st = (inr d, st') ->
  exists sc,
    d = [(KUser, (uidx, sc))]
    /\ engine_score rows uidx (world st) = (inr sc, world st')
    /\ calls st' = calls st
    /\ RANDOM_NS st' = RANDOM_NS st
    /\ notified st' = notified st.
Proof.
  unfold _process_user, bind, score_call.
  destruct (engine_score rows uidx (world st)) as [[e|sc] w];
    [discriminate|].
  unfold ret. intros H. injection H as <- <-. exists sc. simpl. auto.
Qed.

Lemma append_if_frame (c : bool) (x : Q) (st : State World Score Exn) :
  exists st1,
    (if c then RANDOM_NS_append x else ret tt) st = (inr tt, st1)
    /\ calls st1 = calls st /\ notified st1 = notified st.
Proof. destruct c; eexists; repeat split. Qed.

Lemma simulate_random_frame (rows : list Row) (ns : list Q)
    (st : State World Score Exn) res st' :
  _simulate_random engine_select rows ns st = (res, st') ->
  notified st' = notified st /\ exists cs, calls st' = calls st ++ cs.
Proof.
  unfold _simulate_random, bind. intros H.
  match type of H with
  | context [mapM ?f ns st] => destruct (mapM f ns st) as [r st1] eqn:E
  end.
  apply simulation_blocks_outcome in E.
  destruct E as [_ [T [cs [C _]]]].
  assert (st' = st1) as ->
    by (destruct r; unfold ret in H; injection H as _ <-; reflexivity).
  split; [exact T|]. exists cs. exact C.
Qed.

Lemma conditional_runs (sw : bool) (errs : list ValidationError)
    (m : M World Score Exn (SurrDict Score)) (st : State World Score Exn) :
  sw && match errs with [] => true | _ => false end = true ->
  _process_conditional sw errs m st = m st.
Proof.
  destruct sw; [|discriminate]. destruct errs; [reflexivity | discriminate].
Qed.

(** X5.  What a click that invokes the callback has done, for a list of
    pairwise different strategies.  The published results hold one
    entry per selected strategy, in the order of the input, exactly
    when the automatic part runs, followed by the entry [user] exactly
    when the user part runs; at least one part has run.  Each strategy
    entry is what the recorded call of [select] for that strategy, with
    the size input, returned.  All other calls are RANDOM selections of
    the simulation, each of which returned normally.  The notifications
    added are the validation errors of the part that did not run. *)
Theorem select_publishes (desc : Desc Row) (inp : Inputs)
    (st st' : State World Score Exn)
    (surr : SurrDict Score) (sim : Sim Score) :
  NoDup (in_strats inp) ->
  select engine_select engine_score desc inp st
  = (inr (Some (surr, sim)), st') ->
  exists rs us sims,
    surr = map (@strategy_entry Score) rs ++ us
    /\ map fst rs = (if auto_runs inp then in_strats inp else [])
    /\ (if user_runs (map fst desc) inp
        then exists sc w w',
               us = [(KUser, (Text.user_idx (map fst desc) (in_user_ids inp),
                              sc))]
               /\ engine_score (map snd desc)
                    (Text.user_idx (map fst desc) (in_user_ids inp)) w
                  = (inr sc, w')
        else us = [])
    /\ calls st' = calls st ++ map (@real_call Score Exn (in_n inp)) rs ++ sims
    /\ Forall (fun c => call_strategy c = RANDOM /\ succeeded c) sims
    /\ notified st' = notified st ++ click_errors (map fst desc) inp
    /\ (auto_runs inp = true \/ user_runs (map fst desc) inp = true).
Proof.
  intros Hnd H. destruct desc as [|d0 ds].
  { simpl in H. unfold bind, error_notification, ret in H. discriminate. }
  remember (d0 :: ds) as desc eqn:Hd.
  assert (select_loaded engine_select engine_score desc inp st
          = (inr (Some (surr, sim)), st')) as H'
    by (rewrite <- H, Hd; reflexivity).
  assert (click_errors (map fst desc) inp
          = (if in_include_auto inp
             then _validate_auto (in_n inp) (in_strats inp) else [])
            ++ (if in_include_user inp
                then _validate_user
                       (Text.user_idx (map fst desc) (in_user_ids inp))
                else [])) as ->
    by (rewrite Hd; reflexivity).
  clear H Hd. rename H' into H.
  unfold select_loaded in H.
  set (uidx := Text.user_idx (map fst desc) (in_user_ids inp)) in *.
  set (rows := map snd desc) in *.
  (* the automatic part *)
  assert (exists rs auto st1,
            _process_conditional (in_include_auto inp)
              (_validate_auto (in_n inp) (in_strats inp))
              (_process_auto engine_select rows (in_n inp) (in_strats inp)) st
            = (inr auto, st1)
            /\ auto = map (@strategy_entry Score) rs
            /\ map fst rs = (if auto_runs inp then in_strats inp else [])
            /\ calls st1 = calls st ++ map (@real_call Score Exn (in_n inp)) rs
            /\ notified st1
               = notified st
                 ++ (if in_include_auto inp
                     then _validate_auto (in_n inp) (in_strats inp) else []))
    as [rs [auto [st1 [Ea [Ha [Hrs [Ca Ta]]]]]]].
  { unfold bind at 1 in H.
    destruct (auto_runs inp) eqn:Ra; unfold auto_runs in Ra.
    - rewrite (conditional_runs _ _ _ st Ra) in H.
      destruct (_process_auto engine_select rows (in_n inp) (in_strats inp) st)
        as [[e|auto] st1] eqn:E; [discriminate|].
      destruct (process_auto_results rows (in_n inp) (in_strats inp)
                  st auto st1 Hnd E) as [rs [A [B [C [_ T]]]]].
      exists rs, auto, st1.
      split; [rewrite (conditional_runs _ _ _ st Ra); exact E|].
      split; [exact A|]. split; [exact B|]. split; [exact C|].
      rewrite T. apply andb_prop in Ra. destruct Ra as [-> Rv].
      destruct (_validate_auto (in_n inp) (in_strats inp));
        [rewrite app_nil_r; reflexivity | discriminate].
    - destruct (conditional_skipped World Score Exn _ _
                  (_process_auto engine_select rows (in_n inp) (in_strats inp))
                  st Ra) as [st1 [E [_ [_ [C T]]]]].
      exists [], [], st1. split; [exact E|]. split; [reflexivity|].
      split; [reflexivity|]. split; [rewrite C, app_nil_r; reflexivity|].
      exact T. }
  unfold bind at 1 in H. rewrite Ea in H.
  (* the user part *)
  assert (exists us st2,
            _process_conditional (in_include_user inp)
              (_validate_user uidx)
              (_process_user engine_score rows uidx) st1
            = (inr us, st2)
            /\ (if user_runs (map fst desc) inp
                then exists sc w w',
                       us = [(KUser, (uidx, sc))]
                       /\ engine_score rows uidx w = (inr sc, w')
                else us = [])
            /\ calls st2 = calls st1
            /\ notified st2
               = notified st1
                 ++ (if in_include_user inp then _validate_user uidx else []))
    as [us [st2 [Eu [Hus [Cu Tu]]]]].
  { unfold bind at 1 in H.
    destruct (user_runs (map fst desc) inp) eqn:Ru; unfold user_runs in Ru;
      fold uidx in Ru.
    - rewrite (conditional_runs _ _ _ st1 Ru) in H.
      destruct (_process_user engine_score rows uidx st1)
        as [[e|us] st2] eqn:E; [discriminate|].
      destruct (process_user_results rows uidx st1 us st2 E)
        as [sc [A [B [C [_ T]]]]].
      exists us, st2.
      split; [rewrite (conditional_runs _ _ _ st1 Ru); exact E|].
      split; [exists sc, (world st1), (world st2); auto|].
      split; [exact C|].
      rewrite T. apply andb_prop in Ru. destruct Ru as [-> Rv].
      destruct (_validate_user uidx);
        [rewrite app_nil_r; reflexivity | discriminate].
    - destruct (conditional_skipped World Score Exn _ _
                  (_process_user engine_score rows uidx) st1 Ru)
        as [st2 [E [_ [_ [C T]]]]].
      exists [], st2. split; [exact E|]. split; [reflexivity|].
      split; [exact C | exact T]. }
  unfold bind at 1 in H. rewrite Eu in H.
  (* the merged results *)
  assert (dict_merge SurrKey_eqb auto us = auto ++ us) as Hm.
  { apply (DictFacts.dict_merge_fresh _ _ SurrKey_eqb
             DictFacts.SurrKey_eqb_eq).
    - destruct (user_runs (map fst desc) inp).
      + destruct Hus as [sc [w [w' [-> _]]]]. simpl.
        constructor; [intros [] | constructor].
      + rewrite Hus. constructor.
    - intros k Hk Hin. rewrite Ha, map_map in Hin.
      apply in_map_iff in Hin. destruct Hin as [p [<- _]].
      destruct (user_runs (map fst desc) inp).
      + destruct Hus as [sc [w [w' [-> _]]]]. simpl in Hk.
        destruct Hk as [Hk | []]. discriminate.
      + rewrite Hus in Hk. destruct Hk. }
  rewrite Hm in H.
  destruct (auto ++ us) as [|kv rest] eqn:Hau.
  { unfold ret in H. discriminate. }
  unfold bind at 1 in H.
  match type of H with
  | context [(if ?c then RANDOM_NS_append ?x else ret tt) st2] =>
      destruct (append_if_frame c x st2) as [st3 [E3 [C3 T3]]]; rewrite E3 in H
  end.
  unfold bind at 1 in H.
  match type of H with
  | context [(if ?c then RANDOM_NS_append ?x else ret tt) st3] =>
      destruct (append_if_frame c x st3) as [st4 [E4 [C4 T4]]]; rewrite E4 in H
  end.
  unfold bind at 1 in H. unfold RANDOM_NS_read at 1 in H.
  unfold bind at 1 in H.
  destruct (_simulate_random engine_select rows
              (simulation_sizes (List.length desc) (RANDOM_NS st4)) st4)
    as [rsim st5] eqn:E5.
  destruct rsim as [e|sim']; [discriminate|].
  unfold ret in H. injection H as Hsurr <- <-.
  unfold _simulate_random, bind in E5.
  match type of E5 with
  | context [mapM ?f ?ns st4] => destruct (mapM f ns st4) as [rb st6] eqn:E6
  end.
  apply simulation_blocks_outcome in E6.
  destruct E6 as [_ [T6 [sims [C6 [_ [S6 R6]]]]]].
  destruct rb as [e|blocks]; [discriminate|].
  unfold ret in E5. injection E5 as _ <-.
  exists rs, us, sims.
  split; [rewrite <- Hsurr, <- Hau, Ha; reflexivity|].
  split; [exact Hrs|]. split; [exact Hus|].
  split; [rewrite C6, C4, C3, Cu, Ca, <- app_assoc; reflexivity|].
  split.
  { clear - S6 R6. induction sims as [|c sims IH]; constructor.
    - inversion S6; inversion R6; subst; auto.
    - apply IH; [inversion S6 | inversion R6]; assumption. }
  split; [rewrite T6, T4, T3, Tu, Ta, <- app_assoc; reflexivity|].
  destruct (auto_runs inp); [left; reflexivity|].
  destruct (user_runs (map fst desc) inp); [right; reflexivity|].
  exfalso. destruct rs; [|discriminate Hrs].
  rewrite Ha, Hus in Hau. discriminate.
Qed.

End Publishing.

Lemma select_publishes_witness :
  NoDup (in_strats (Toy.auto_only (1 # 2)))
  /\ exists surr sim st' rs us sims,
       select Toy.select Toy.score (Toy.table 3) (Toy.auto_only (1 # 2))
         Toy.start
       = (inr (Some (surr, sim)), st')
       /\ surr = map (@strategy_entry Q) rs ++ us
       /\ map fst rs = [HIERARCHICAL]
       /\ us = []
       /\ calls st' = map (@real_call Q unit (1 # 2)) rs ++ sims.
Proof.
  assert (NoDup (in_strats (Toy.auto_only (1 # 2)))) as Hnd
    by (constructor; [intros [] | constructor]).
  split; [exact Hnd|].
  pose (out := select Toy.select Toy.score (Toy.table 3)
                 (Toy.auto_only (1 # 2)) Toy.start).
  pose (r := match fst out with
             | inr (Some p) => p
             | _ => ([], {| sim_scores := []; sim_ns := [] |})
             end).
  assert (fst out = inr (Some (fst r, snd r))) as F
    by (vm_compute; reflexivity).
  assert (out = (inr (Some (fst r, snd r)), snd out)) as E
    by (rewrite <- F; apply surjective_pairing).
  destruct (select_publishes nat Q unit unit Toy.select Toy.score
              (Toy.table 3) (Toy.auto_only (1 # 2)) Toy.start (snd out)
              (fst r) (snd r) Hnd E)
    as [rs [us [sims [A [B [C [D _]]]]]]].
  exists (fst r), (snd r), (snd out), rs, us, sims.
  split; [exact E|]. split; [exact A|]. split; [exact B|].
  split; [exact C | exact D].
Defined.

(** ** Identifiers entered one per line *)

Module LineFacts.
Import Text.

Lemma append_assoc (a b c : string) :
  String.append (String.append a b) c = String.append a (String.append b c).
Proof. induction a as [|x a IH]; simpl; [reflexivity | rewrite IH; reflexivity]. Qed.

Lemma append_empty (a : string) : String.append a EmptyString = a.
Proof. induction a as [|x a IH]; simpl; [reflexivity | rewrite IH; reflexivity]. Qed.

(** Characters that are no line boundaries are collected into the
    current line. *)
Lemma splitlines_from_plain (s : string) :
  forallb (fun c => negb (is_linebreak c)) (list_ascii_of_string s) = true ->
  forall cur rest,
    splitlines_from cur (String.append s rest)
    = splitlines_from (String.append cur s) rest.
Proof.
  induction s as [|c s IH]; intros H cur rest.
  - simpl. rewrite append_empty. reflexivity.
  - simpl in H. apply andb_prop in H. destruct H as [Hc Hs].
    apply negb_true_iff in Hc.
    cbn [String.append splitlines_from]. rewrite Hc.
    rewrite (IH Hs). rewrite append_assoc. reflexivity.
Qed.

Lemma one_line_inv (id : string) :
  one_line id = true ->
  id <> EmptyString
  /\ forallb (fun c => negb (is_linebreak c)) (list_ascii_of_string id) = true.
Proof.
  unfold one_line. intros H. apply andb_prop in H. destruct H as [H _].
  apply andb_prop in H. destruct H as [H1 H2].
  split; [|exact H2]. intros ->. discriminate.
Qed.

Lemma one_line_stored (ids : list string) :
  forallb one_line ids = true -> stored ids = ids.
Proof.
  unfold stored. induction ids as [|x ids IH]; intros H; [reflexivity|].
  simpl in H. apply andb_prop in H. destruct H as [Hx Hids].
  unfold one_line in Hx. apply andb_prop in Hx. destruct Hx as [_ Hx].
  simpl. rewrite (TextFacts.rstrip_nul_plain x Hx), (IH Hids). reflexivity.
Qed.

Lemma splitlines_from_LF (cur : string) (c : ascii) (rest : string) :
  splitlines_from cur (String.append LF (String c rest))
  = cur :: splitlines_from EmptyString (String c rest).
Proof. reflexivity. Qed.

Lemma splitlines_from_CRLF (cur rest : string) :
  splitlines_from cur (String.append (String.append CR LF) rest)
  = cur :: splitlines_from EmptyString rest.
Proof. reflexivity. Qed.

Lemma splitlines_joined (sep : string) (ids : list string) :
  sep = LF \/ sep = String.append CR LF ->
  forallb one_line ids = true ->
  splitlines (String.concat sep ids) = ids.
Proof.
  intros Hsep. unfold splitlines.
  induction ids as [|x ids IH]; intros H; [reflexivity|].
  simpl in H. apply andb_prop in H. destruct H as [Hx Hids].
  destruct (one_line_inv x Hx) as [Hne Hp].
  destruct ids as [|y ids].
  - simpl. rewrite <- (append_empty x) at 1.
    rewrite (splitlines_from_plain x Hp). simpl.
    destruct x; [contradiction | reflexivity].
  - specialize (IH Hids).
    change (String.concat sep (x :: y :: ids))
      with (String.append x (String.append sep (String.concat sep (y :: ids)))).
    rewrite (splitlines_from_plain x Hp).
    change (String.append EmptyString x) with x.
    destruct Hsep as [-> | ->].
    + destruct (String.concat LF (y :: ids)) as [|c rest] eqn:E.
      * simpl in IH. discriminate.
      * rewrite splitlines_from_LF. f_equal. exact IH.
    + rewrite splitlines_from_CRLF. f_equal. exact IH.
Qed.

End LineFacts.

(** X8.  Identifiers entered one per line, separated by LF or by CR LF:
    when no identifier is empty or holds a line boundary or a NUL, the
    lines read back are the identifiers, and the user subset lists
    exactly the positions of the rows bearing one of them. *)
Theorem user_ids_one_per_line (sep : string) (index ids : list string) :
  sep = Text.LF \/ sep = String.append Text.CR Text.LF ->
  forallb one_line ids = true ->
  Text.splitlines (String.concat sep ids) = ids
  /\ forall i,
       In i (Text.user_idx index (String.concat sep ids)) <->
       exists id, nth_error index i = Some id /\ In id ids.
Proof.
  intros Hsep H.
  pose proof (LineFacts.splitlines_joined sep ids Hsep H) as E.
  split; [exact E|]. intros i.
  unfold Text.user_idx, Text.np_where. rewrite E.
  rewrite TextFacts.np_where_from_In. split.
  - intros [j [-> Hj]]. simpl. apply TextFacts.np_isin_nth in Hj.
    rewrite (LineFacts.one_line_stored ids H) in Hj. exact Hj.
  - intros Hi. exists i. split; [reflexivity|].
    apply TextFacts.np_isin_nth.
    rewrite (LineFacts.one_line_stored ids H). exact Hi.
Qed.

Lemma user_ids_one_per_line_witness :
  Text.user_idx ["A"; "B"; "C"]%string
    (String.concat Text.LF ["C"; "A"; "Z"]%string) = [0; 2]%nat
  /\ Text.splitlines (String.concat Text.LF ["C"; "A"; "Z"]%string)
     = ["C"; "A"; "Z"]%string.
Proof.
  split; [reflexivity|].
  exact (proj1 (user_ids_one_per_line Text.LF ["A"; "B"; "C"]%string
                  ["C"; "A"; "Z"]%string (or_introl eq_refl) eq_refl)).
Defined.

(** ** The size list after a click *)

Lemma select_extends_RANDOM_NS_witness :
  exists r st',
    select Toy.select Toy.score (Toy.table 3) (Toy.auto_only (1 # 2))
      Toy.start
    = (inr (Some r), st')
    /\ RANDOM_NS st' = RANDOM_NS_init ++ [1 # 2].
Proof.
  pose (out := select Toy.select Toy.score (Toy.table 3)
                 (Toy.auto_only (1 # 2)) Toy.start).
  pose (r := match fst out with
             | inr (Some p) => p
             | _ => ([], {| sim_scores := []; sim_ns := [] |})
             end).
  assert (fst out = inr (Some r)) as F by (vm_compute; reflexivity).
  assert (out = (inr (Some r), snd out)) as E
    by (rewrite <- F; apply surjective_pairing).
  exists r, (snd out). split; [exact E|].
  exact (select_extends_RANDOM_NS nat Q unit unit Toy.select Toy.score
           (Toy.table 3) (Toy.auto_only (1 # 2)) Toy.start r (snd out) E).
Defined.

(** ** A click that raises *)

Section ClickFailure.

Variables (World Score Exn Row : Type).
Variable engine_select :
  list Row -> Q -> Strategy -> World -> (Exn + (Subset * Score)) * World.
Variable engine_score :
  list Row -> Subset -> World -> (Exn + Score) * World.

Lemma append_if_sizes (c : bool) (x : Q) (st : State World Score Exn) :
  exists st1,
    (if c then RANDOM_NS_append x else ret tt) st = (inr tt, st1)
    /\ calls st1 = calls st
    /\ RANDOM_NS st1 = RANDOM_NS st ++ (if c then [x] else []).
Proof.
  destruct c; eexists; (split; [reflexivity|]); split; try reflexivity.
  simpl. rewrite app_nil_r. reflexivity.
Qed.

(** X7.  A click that raises invokes no callback.  When the exception
    comes from the real selection or from the scoring of the user's
    rows, no simulation call has been made and the list [RANDOM_NS] is
    as before.  When it comes from the simulation, the raising call is
    the last one recorded, and the list [RANDOM_NS] has nevertheless
    been extended by the sizes of this click. *)
Theorem select_failure_sizes (desc : Desc Row) (inp : Inputs)
    (st st' : State World Score Exn) (e : Exn) :
  select engine_select engine_score desc inp st = (inl e, st') ->
  exists real sims,
    calls st' = calls st ++ real ++ sims
    /\ Forall (fun c => call_size c = in_n inp) real
    /\ ((sims = [] /\ RANDOM_NS st' = RANDOM_NS st)
        \/ (stopped_at e sims
            /\ Forall (fun c => call_strategy c = RANDOM) sims
            /\ RANDOM_NS st'
               = RANDOM_NS st ++ appended_sizes (map fst desc) inp)).
Proof.
  intros H. destruct desc as [|d0 ds].
  { simpl in H. unfold bind, error_notification, ret in H. discriminate. }
  remember (d0 :: ds) as desc eqn:Hd.
  assert (select_loaded engine_select engine_score desc inp st
          = (inl e, st')) as H' by (rewrite <- H, Hd; reflexivity).
  clear H Hd. rename H' into H. unfold select_loaded in H.
  unfold bind at 1 in H.
  match type of H with
  | context [_process_conditional ?sw ?errs ?m st] =>
      destruct (_process_conditional sw errs m st) as [ra st1] eqn:Ea
  end.
  apply conditional_auto_calls in Ea.
  destruct Ea as [N1 [real [C1 [F1 _]]]].
  destruct ra as [e1|auto].
  { injection H as <- <-. exists real, []. rewrite app_nil_r.
    split; [exact C1|]. split; [exact F1|]. left. auto. }
  unfold bind at 1 in H.
  match type of H with
  | context [_process_conditional ?sw ?errs ?m st1] =>
      destruct (_process_conditional sw errs m st1) as [ru st2] eqn:Eu
  end.
  apply conditional_user_calls in Eu. destruct Eu as [N2 C2].
  destruct ru as [e2|user].
  { injection H as <- <-. exists real, []. rewrite app_nil_r.
    split; [congruence|]. split; [exact F1|]. left.
    split; [reflexivity | congruence]. }
  destruct (dict_merge SurrKey_eqb auto user) as [|kv surr] eqn:Hs.
  { unfold ret in H. discriminate. }
  unfold bind at 1 in H.
  match type of H with
  | context [(if ?c then RANDOM_NS_append ?x else ret tt) st2] =>
      destruct (append_if_sizes c x st2) as [st3 [E3 [C3 N3]]]; rewrite E3 in H
  end.
  unfold bind at 1 in H.
  match type of H with
  | context [(if ?c then RANDOM_NS_append ?x else ret tt) st3] =>
      destruct (append_if_sizes c x st3) as [st4 [E4 [C4 N4]]]; rewrite E4 in H
  end.
  unfold bind at 1 in H. unfold RANDOM_NS_read at 1 in H.
  unfold bind at 1 in H.
  destruct (_simulate_random engine_select (map snd desc)
              (simulation_sizes (List.length desc) (RANDOM_NS st4)) st4)
    as [rsim st5] eqn:E5.
  destruct rsim as [e5|sim]; [|unfold ret in H; discriminate].
  injection H as <- <-.
  unfold _simulate_random, bind in E5.
  match type of E5 with
  | context [mapM ?f ?ns st4] => destruct (mapM f ns st4) as [rb st6] eqn:E6
  end.
  apply simulation_blocks_outcome in E6.
  destruct E6 as [N6 [_ [sims [C6 [_ [S6 R6]]]]]].
  destruct rb as [e6|blocks]; [|unfold ret in E5; discriminate].
  injection E5 as <- <-.
  exists real, sims.
  split; [rewrite C6, C4, C3, C2, C1, <- app_assoc; reflexivity|].
  split; [exact F1|]. right.
  split; [exact R6|]. split; [exact S6|].
  rewrite N6, N4, N3, N2, N1. unfold appended_sizes.
  rewrite <- app_assoc. reflexivity.
Qed.

End ClickFailure.

Lemma select_failure_sizes_witness :
  exists st' (sims : list (Call Q unit)),
    select Strict.select Toy.score (Toy.table 3) (Toy.auto_only (1 # 2))
      Toy.start
    = (inl tt, st')
    /\ stopped_at tt sims
    /\ RANDOM_NS st' = RANDOM_NS_init ++ [1 # 2].
Proof.
  pose (out := select Strict.select Toy.score (Toy.table 3)
                 (Toy.auto_only (1 # 2)) Toy.start).
  assert (fst out = inl tt) as F by (vm_compute; reflexivity).
  assert (out = (inl tt, snd out)) as E
    by (rewrite <- F; apply surjective_pairing).
  assert (RANDOM_NS (snd out) = RANDOM_NS_init ++ [1 # 2]) as N
    by (vm_compute; reflexivity).
  destruct (select_failure_sizes nat Q unit unit Strict.select Toy.score
              (Toy.table 3) (Toy.auto_only (1 # 2)) Toy.start (snd out) tt E)
    as [real [sims [C [_ [[S0 N0] | [S [_ _]]]]]]].
  - exfalso. rewrite N in N0. vm_compute in N0. discriminate.
  - exists (snd out), sims. split; [exact E|]. split; [exact S | exact N].
Defined.

(** ** The labels for any selection results *)

Module LabelFacts.
Import Store.

Lemma find_app (A : Type) (p : A -> bool) (a b : list A) :
  find p (a ++ b)
  = match find p a with Some x => Some x | None => find p b end.
Proof.
  induction a as [|x a IH]; simpl; [reflexivity|].
  destruct (p x); [reflexivity | exact IH].
Qed.

(** Marking one strategy's rows, for any index array. *)
Lemma mark_total (N : nat) (strat : string) :
  forall (idx : list Z) (f : nat -> list string),
    mark (map f (seq 0 N)) strat idx
    = match find (fun i => negb (is_row N i)) idx with
      | Some i => inl (KeyError_at i)
      | None =>
          inr (map (fun j => f j ++ repeat strat
                                      (count_occ Z.eq_dec idx (Z.of_nat j)))
                   (seq 0 N))
      end.
Proof.
  induction idx as [|i idx IH]; intros f.
  - simpl. f_equal. apply map_ext. intros j. rewrite app_nil_r. reflexivity.
  - cbn [mark find]. unfold labels_append_at.
    destruct (is_row N i) eqn:Hr; unfold is_row in Hr; cbn [negb].
    + apply andb_prop in Hr. destruct Hr as [H0 HN].
      apply Z.leb_le in H0. apply Z.ltb_lt in HN.
      destruct (i <? 0)%Z eqn:E; [apply Z.ltb_lt in E; lia|].
      rewrite (StoreFacts.labels_append_seq f strat N 0 (Z.to_nat i)) by lia.
      rewrite IH.
      destruct (find (fun i0 => negb (is_row N i0)) idx); [reflexivity|].
      f_equal. apply map_ext. intros j. rewrite <- app_assoc. f_equal.
      cbn [count_occ].
      destruct (j =? 0 + Z.to_nat i)%nat eqn:Ej.
      * apply Nat.eqb_eq in Ej.
        destruct (Z.eq_dec i (Z.of_nat j)) as [_|Hne]; [reflexivity | lia].
      * apply Nat.eqb_neq in Ej.
        destruct (Z.eq_dec i (Z.of_nat j)) as [He|_]; [lia | reflexivity].
    + destruct (i <? 0)%Z eqn:E; [reflexivity|].
      apply Z.ltb_ge in E.
      rewrite StoreFacts.labels_append_out; [reflexivity|].
      rewrite length_map, length_seq.
      apply andb_false_iff in Hr. destruct Hr as [Hr | Hr].
      * apply Z.leb_gt in Hr. lia.
      * apply Z.ltb_ge in Hr. lia.
Qed.

Lemma collect_total (Score : Type) (N : nat) :
  forall (items : SurrD Score) (f : nat -> list string),
    collect (map f (seq 0 N)) items
    = match first_outside N items with
      | Some i => inl (KeyError_at i)
      | None => inr (map (fun j => f j ++ appended items j) (seq 0 N))
      end.
Proof.
  induction items as [|[strat [idx sc]] items IH]; intros f.
  - simpl. f_equal. apply map_ext. intros j. rewrite app_nil_r. reflexivity.
  - cbn [collect]. rewrite mark_total.
    unfold first_outside. cbn [flat_map fst snd]. rewrite find_app.
    destruct (find (fun i => negb (is_row N i)) idx); [reflexivity|].
    rewrite IH. unfold first_outside.
    destruct (find (fun i => negb (is_row N i))
                (flat_map (fun kv => fst (snd kv)) items)); [reflexivity|].
    f_equal. apply map_ext. intros j. rewrite <- app_assoc. reflexivity.
Qed.

Lemma repeat_nil_seq (A : Type) (N : nat) :
  forall a, repeat (@nil A) N = map (fun _ : nat => @nil A) (seq a N).
Proof.
  induction N as [|N IH]; intros a; simpl;
    [reflexivity | rewrite <- IH; reflexivity].
Qed.

End LabelFacts.

(** X9.  [surrogate_labels] for any selection results.  It raises
    [KeyError] exactly when some index array holds an index outside
    [0, N), and names the first such index in dict order and array
    order.  Otherwise it returns one label per descriptor row: the
    names appended for the row, one per occurrence of the row in an
    array, sorted and joined by an ampersand, or "none" when there is
    no occurrence. *)
Theorem surrogate_labels_total (Cell Row Score SimVal : Type)
    (s : Store.DataStore Cell Row Score SimVal) :
  Store.surrogate_labels s
  = match first_outside (List.length (Store.desc s)) (Store.surr s) with
    | Some i => inl (Store.KeyError_at i)
    | None =>
        inr (map (fun i => Store.label_text (appended (Store.surr s) i))
                 (seq 0 (List.length (Store.desc s))))
    end.
Proof.
  unfold Store.surrogate_labels, Store.labels_of.
  rewrite (LabelFacts.repeat_nil_seq string _ 0).
  rewrite LabelFacts.collect_total.
  destruct (first_outside (List.length (Store.desc s)) (Store.surr s));
    [reflexivity|].
  f_equal. rewrite map_map. apply map_ext. intros j. reflexivity.
Qed.

(** ** Histories of the store *)

Module HistoryFacts.
Import Store.

Lemma trim_In (Cell Row : Type) (data_ : Frame Cell) (desc_ : Frame Row)
    (r : string * Cell) :
  In r (trim data_ desc_) <-> In r data_ /\ In (fst r) (map fst desc_).
Proof.
  unfold trim. rewrite filter_In, existsb_exists. split.
  - intros [H [x [Hx E]]]. apply String.eqb_eq in E. subst x. auto.
  - intros [H Hx]. split; [exact H|]. exists (fst r).
    split; [exact Hx | apply String.eqb_refl].
Qed.

Lemma history_snoc (Cell Row Score SimVal : Type)
    (ops : list (StoreOp Cell Row Score SimVal))
    (op : StoreOp Cell Row Score SimVal) :
  history (ops ++ [op]) = apply_op (history ops) op.
Proof. unfold history. rewrite fold_left_app. reflexivity. Qed.

Lemma last_load_snoc (Cell Row Score SimVal : Type)
    (ops : list (StoreOp Cell Row Score SimVal))
    (op : StoreOp Cell Row Score SimVal) :
  last_load (ops ++ [op])
  = match op with
    | Load _ _ data_ desc_ => Some (data_, desc_)
    | Publish _ _ _ _ => last_load ops
    end.
Proof.
  induction ops as [|o ops IH]; simpl.
  - destruct op; reflexivity.
  - rewrite IH. destruct op; [reflexivity|].
    destruct (last_load ops); reflexivity.
Qed.

End HistoryFacts.

(** X10.  After any sequence of [update_data] and [update_surrogates]
    on a new store, the descriptors are those of the last dataset
    loaded and the data are the rows of that dataset whose identifier
    occurs in its descriptor index, in their order; before any load
    both are empty.  Hence every data row of the store has a
    descriptor row, whatever was published in between. *)
Theorem store_holds_last_load (Cell Row Score SimVal : Type)
    (ops : list (StoreOp Cell Row Score SimVal)) :
  let s := history ops in
  match last_load ops with
  | Some (data_, desc_) =>
      Store.desc s = desc_
      /\ Store.data s = Store.trim data_ desc_
      /\ (forall r, In r (Store.data s) <->
                    In r data_ /\ In (fst r) (map fst desc_))
  | None => Store.desc s = [] /\ Store.data s = []
  end
  /\ forall r, In r (Store.data s) -> In (fst r) (map fst (Store.desc s)).
Proof.
  cbv zeta. induction ops as [|op ops IH] using rev_ind.
  - simpl. split; [split; reflexivity | intros r []].
  - rewrite HistoryFacts.history_snoc, HistoryFacts.last_load_snoc.
    destruct op as [data_ desc_ | surr_ sim_].
    + cbn [apply_op Store.update_data Store.set_sim Store.set_surr
             Store.set_data Store.set_desc Store.desc Store.data].
      split.
      * split; [reflexivity|]. split; [reflexivity|].
        intros r. apply HistoryFacts.trim_In.
      * intros r Hr. apply HistoryFacts.trim_In in Hr. tauto.
    + cbn [apply_op Store.update_surrogates Store.set_sim Store.set_surr
             Store.desc Store.data].
      exact IH.
Qed.

(** * The dataset name *)

Module NameFacts.
Import Names.

Lemma name_char_plain (c : ascii) :
  name_char c = true ->
  (nat_of_ascii c <> 47 /\ nat_of_ascii c <> 0 /\ nat_of_ascii c <> 46)%nat.
Proof.
  unfold name_char. intros H.
  repeat (apply orb_prop in H; destruct H as [H | H]);
    repeat (apply andb_prop in H; destruct H as [? H]);
    repeat match goal with
           | X : (_ <=? _) = true |- _ => apply Nat.leb_le in X
           | X : (_ =? _) = true |- _ => apply Nat.eqb_eq in X
           end; lia.
Qed.

(** A name matching the pattern is one path component. *)
Lemma pattern_component (name : string) :
  NAME_PATTERN name = true -> component name = true.
Proof.
  unfold NAME_PATTERN, component. intros H.
  apply andb_prop in H. destruct H as [H Hc].
  apply andb_prop in H. destruct H as [H2 _]. apply Nat.leb_le in H2.
  destruct name as [|a [|b r]]; simpl in H2; try lia.
  assert (forallb (fun c => negb (nat_of_ascii c =? 47)%nat
                            && negb (nat_of_ascii c =? 0)%nat)
                  (list_ascii_of_string (String a (String b r))) = true) as ->.
  { apply forallb_forall. intros c Hin.
    pose proof (proj1 (forallb_forall _ _) Hc c Hin) as Hn.
    apply name_char_plain in Hn. destruct Hn as [H47 [H0 _]].
    apply Nat.eqb_neq in H47. apply Nat.eqb_neq in H0.
    rewrite H47, H0. reflexivity. }
  assert (name_char a = true) as Ha.
  { apply (proj1 (forallb_forall _ _) Hc). left. reflexivity. }
  apply name_char_plain in Ha. destruct Ha as [_ [_ Ha]].
  assert (Ascii.eqb a "."%char = false) as Hd.
  { apply Ascii.eqb_neq. intros ->. apply Ha. reflexivity. }
  cbn [String.eqb]. rewrite Hd. reflexivity.
Qed.

Lemma lowered_names (names : list string) :
  Modals.lowered (map Modals.Name names) = inr (map lower names).
Proof.
  induction names as [|x names IH]; simpl; [reflexivity|].
  rewrite IH. reflexivity.
Qed.

Lemma lowered_paths (p : Files.Path) (ps : list Files.Path) :
  Modals.lowered (map Modals.PathObj (p :: ps)) = inl Modals.AttributeError_lower.
Proof. reflexivity. Qed.

End NameFacts.

(** X11.  [_validate_name] over a list of dataset names returns at most
    one error.  It returns none exactly when the name matches the
    pattern (2 to 32 letters, digits, underscores, dashes and spaces)
    and differs, letter case apart, from every listed name; such a
    name is a single path component.  The empty name is reported as
    missing, a repeated name as a duplicate even when it is not
    permissible, any other name as not permissible. *)
Theorem validate_name_outcome (name : string) (names : list string) :
  exists errs,
    Modals._validate_name name (map Modals.Name names) = inr errs
    /\ (List.length errs <= 1)%nat
    /\ (errs = [] <->
        Names.NAME_PATTERN name = true
        /\ forall x, In x names -> Names.lower x <> Names.lower name)
    /\ (errs = [] -> Names.component name = true)
    /\ (In Modals.NO_NAME errs <-> name = EmptyString)
    /\ (In Modals.NAME_DUP errs <->
        name <> EmptyString
        /\ exists x, In x names /\ Names.lower x = Names.lower name).
Proof.
  unfold Modals._validate_name. rewrite NameFacts.lowered_names.
  destruct (String.eqb name EmptyString) eqn:E0.
  { apply String.eqb_eq in E0. subst name. exists [Modals.NO_NAME].
    split; [reflexivity|]. split; [simpl; lia|].
    split; [split; [discriminate | intros [H _]; discriminate]|].
    split; [discriminate|].
    split; [split; [reflexivity | intros _; left; reflexivity]|].
    split; [intros [H | []]; discriminate | intros [H _]; contradiction]. }
  apply String.eqb_neq in E0.
  destruct (existsb (String.eqb (Names.lower name)) (map Names.lower names))
    eqn:Ed.
  { apply existsb_exists in Ed. destruct Ed as [y [Hy Ey]].
    apply String.eqb_eq in Ey. apply in_map_iff in Hy.
    destruct Hy as [x [Hx Hin]].
    exists [Modals.NAME_DUP]. split; [reflexivity|]. split; [simpl; lia|].
    split.
    { split; [discriminate|]. intros [_ H]. exfalso.
      apply (H x Hin). congruence. }
    split; [discriminate|].
    split; [split; [intros [H | []]; discriminate | contradiction]|].
    split; [intros _|intros _; left; reflexivity].
    split; [exact E0|]. exists x. split; [exact Hin | congruence]. }
  assert (forall x, In x names -> Names.lower x <> Names.lower name) as Hfresh.
  { intros x Hin Hx.
    assert (existsb (String.eqb (Names.lower name)) (map Names.lower names)
            = true) as Ht.
    { apply existsb_exists. exists (Names.lower x).
      split; [apply in_map; exact Hin|]. rewrite Hx. apply String.eqb_refl. }
    congruence. }
  assert (forall errs : list Modals.ValidationErrors,
            ~ In Modals.NAME_DUP errs ->
            (In Modals.NAME_DUP errs <->
             name <> EmptyString
             /\ exists x, In x names /\ Names.lower x = Names.lower name))
    as Hnd.
  { intros errs Hn. split; [contradiction|].
    intros [_ [x [Hin Hx]]]. destruct (Hfresh x Hin Hx). }
  destruct (Names.NAME_PATTERN name) eqn:Ep; cbn [negb].
  - exists []. split; [reflexivity|]. split; [simpl; lia|].
    split; [split; auto|].
    split; [intros _; apply NameFacts.pattern_component; exact Ep|].
    split; [split; [intros [] | contradiction]|].
    apply Hnd. intros [].
  - exists [Modals.NAME_INVALID]. split; [reflexivity|].
    split; [simpl; lia|].
    split; [split; [discriminate | intros [H _]; discriminate]|].
    split; [discriminate|].
    split; [split; [intros [H | []]; discriminate | contradiction]|].
    apply Hnd. intros [H | []]. discriminate.
Qed.

(** X12.  [get_datasets] lists path objects, which have no method
    [lower]: when the data folder holds a directory, [_validate_name]
    applied to that list raises [AttributeError] for every name that is
    not empty, permissible or not. *)
Theorem validate_name_on_listed_paths (fs : Files.Folder)
    (ps : list Files.Path) (name : string) :
  Files.get_datasets fs = inr ps ->
  (exists n files, In (n, Files.Dir files) (Files.entries fs)) ->
  name <> EmptyString ->
  Modals._validate_name name (map Modals.PathObj ps)
  = inl Modals.AttributeError_lower.
Proof.
  intros Hg [n [files Hin]] Hne.
  destruct fs as [es|]; [|discriminate].
  injection Hg as <-. simpl in Hin.
  assert (In (Files.Child n)
             (map (fun e => Files.Child (fst e))
                  (filter (fun e => Files.is_dir (snd e)) es))) as Hp.
  { apply in_map_iff. exists (n, Files.Dir files).
    split; [reflexivity|]. apply filter_In. split; [exact Hin | reflexivity]. }
  unfold Modals._validate_name.
  destruct (String.eqb name EmptyString) eqn:E0;
    [apply String.eqb_eq in E0; contradiction|].
  destruct (map (fun e => Files.Child (fst e))
               (filter (fun e => Files.is_dir (snd e)) es)) as [|p ps];
    [destruct Hp|].
  rewrite NameFacts.lowered_paths. reflexivity.
Qed.

Lemma validate_name_on_listed_paths_witness :
  Files.get_datasets (Some [("first set"%string, Files.Dir [])])
  = inr [Files.Child "first set"]
  /\ Modals._validate_name "second set"
       (map Modals.PathObj [Files.Child "first set"])
     = inl Modals.AttributeError_lower.
Proof.
  split; [reflexivity|].
  apply (validate_name_on_listed_paths
           (Some [("first set"%string, Files.Dir [])])
           [Files.Child "first set"] "second set" eq_refl).
  - exists "first set"%string, []. left. reflexivity.
  - discriminate.
Defined.

(** * The data folder *)

Module FileFacts.
Import Files.

Lemma assoc_app (V : Type) (k : string) (a b : list (string * V)) :
  assoc k (a ++ b)
  = match assoc k a with Some v => Some v | None => assoc k b end.
Proof.
  induction a as [|[k' v] a IH]; simpl; [reflexivity|].
  destruct (String.eqb k k'); [reflexivity | exact IH].
Qed.

Lemma assoc_set_same (V : Type) (k : string) (v : V) (l : list (string * V)) :
  assoc k (dict_set String.eqb k v l) = Some v.
Proof.
  induction l as [|[k' v'] l IH]; simpl.
  - rewrite String.eqb_refl. reflexivity.
  - destruct (String.eqb k k') eqn:E; simpl.
    + rewrite String.eqb_refl. reflexivity.
    + rewrite E. exact IH.
Qed.

Lemma assoc_set_other (V : Type) (k k' : string) (v : V)
    (l : list (string * V)) :
  k' <> k -> assoc k' (dict_set String.eqb k v l) = assoc k' l.
Proof.
  intros Hne. induction l as [|[k0 v0] l IH]; simpl.
  - apply String.eqb_neq in Hne. rewrite Hne. reflexivity.
  - destruct (String.eqb k k0) eqn:E; simpl.
    + apply String.eqb_eq in E. subst k0.
      apply String.eqb_neq in Hne. rewrite Hne. reflexivity.
    + destruct (String.eqb k' k0); [reflexivity | exact IH].
Qed.

Lemma assoc_write_other (name file content n : string)
    (es : list (string * Entry)) :
  n <> name -> assoc n (write_in name file content es) = assoc n es.
Proof.
  intros Hne. unfold write_in.
  induction es as [|[k e] es IH]; simpl; [reflexivity|].
  destruct (String.eqb k name) eqn:E.
  - apply String.eqb_eq in E. subst k.
    apply String.eqb_neq in Hne.
    destruct e; simpl; rewrite Hne; exact IH.
  - simpl. destruct (String.eqb n k); [reflexivity | exact IH].
Qed.

Lemma assoc_write_same (name file content : string)
    (es : list (string * Entry)) (files : list (string * string)) :
  assoc name es = Some (Dir files) ->
  assoc name (write_in name file content es)
  = Some (Dir (dict_set String.eqb file content files)).
Proof.
  unfold write_in. induction es as [|[k e] es IH]; simpl; [discriminate|].
  destruct (String.eqb name k) eqn:E.
  - apply String.eqb_eq in E. subst k. intros H. injection H as ->.
    rewrite String.eqb_refl. simpl. rewrite String.eqb_refl. reflexivity.
  - intros H. rewrite String.eqb_sym, E. simpl. rewrite E. exact (IH H).
Qed.

(** The directories listed, by name. *)
Lemma dirs_write (name file content : string) (es : list (string * Entry)) :
  map fst (filter (fun e => is_dir (snd e)) (write_in name file content es))
  = map fst (filter (fun e => is_dir (snd e)) es).
Proof.
  unfold write_in. induction es as [|[k e] es IH]; simpl; [reflexivity|].
  destruct (String.eqb k name); destruct e; simpl; rewrite ?IH; reflexivity.
Qed.

Lemma dirs_set_file (k content : string) (es : list (string * Entry)) :
  (forall files, assoc k es <> Some (Dir files)) ->
  filter (fun e => is_dir (snd e)) (dict_set String.eqb k (File content) es)
  = filter (fun e => is_dir (snd e)) es.
Proof.
  induction es as [|[k0 e] es IH]; simpl; intros H; [reflexivity|].
  destruct (String.eqb k k0) eqn:E; simpl.
  - destruct e as [c|files]; [reflexivity|].
    exfalso. apply (H files). reflexivity.
  - rewrite IH; [reflexivity | exact H].
Qed.

Lemma dirs_app (a b : list (string * Entry)) :
  filter (fun e => is_dir (snd e)) (a ++ b)
  = filter (fun e => is_dir (snd e)) a ++ filter (fun e => is_dir (snd e)) b.
Proof. apply filter_app. Qed.

(** [update_log] in full. *)
Lemma update_log_cases (now : string) (fs : Folder) :
  (exists files,
     assoc LAST_UPDATED (entries fs) = Some (Dir files)
     /\ update_log now fs = (inl IsADirectoryError, Some (entries fs)))
  \/ ((forall files, assoc LAST_UPDATED (entries fs) <> Some (Dir files))
      /\ update_log now fs
         = (inr tt, Some (dict_set String.eqb LAST_UPDATED (File now)
                            (entries fs)))).
Proof.
  unfold update_log.
  destruct (assoc LAST_UPDATED (entries fs)) as [[c|files]|] eqn:E.
  - right. split; [intros files H; discriminate | reflexivity].
  - left. exists files. auto.
  - right. split; [intros files H; discriminate | reflexivity].
Qed.

End FileFacts.

(** X13.  [update_log] raises only when the name of the log is taken by
    a directory.  Otherwise it leaves a folder that exists, in which
    the log holds the time written, every other entry is as before and
    the datasets listed are those listed before (none for a folder that
    was absent), so that [get_datasets] does not raise afterwards. *)
Theorem update_log_outcome (now : string) (fs fs' : Files.Folder)
    (res : Files.OSError + unit) :
  Files.update_log now fs = (res, fs') ->
  (res = inl Files.IsADirectoryError <->
   exists files,
     Files.assoc Files.LAST_UPDATED (Files.entries fs)
     = Some (Files.Dir files))
  /\ (res = inr tt ->
      Files.assoc Files.LAST_UPDATED (Files.entries fs')
      = Some (Files.File now)
      /\ (forall n, n <> Files.LAST_UPDATED ->
            Files.assoc n (Files.entries fs')
            = Files.assoc n (Files.entries fs))
      /\ Files.get_datasets fs'
         = inr (map (fun e => Files.Child (fst e))
                    (filter (fun e => Files.is_dir (snd e))
                            (Files.entries fs)))).
Proof.
  intros H.
  destruct (FileFacts.update_log_cases now fs)
    as [[files [E U]] | [E U]]; rewrite U in H; injection H as <- <-.
  - split; [split; [intros _; exists files; exact E | reflexivity]|].
    discriminate.
  - split.
    { split; [discriminate|]. intros [files Hf]. destruct (E files Hf). }
    intros _. cbn [Files.entries].
    split; [apply FileFacts.assoc_set_same|].
    split; [intros n Hn; apply FileFacts.assoc_set_other; exact Hn|].
    unfold Files.get_datasets. rewrite FileFacts.dirs_set_file by exact E.
    reflexivity.
Qed.

Lemma update_log_outcome_witness :
  Files.get_datasets None = inl Files.FileNotFoundError
  /\ Files.update_log "2026-11-03 09:00:00" None
     = (inr tt, Some [(Files.LAST_UPDATED, Files.File "2026-11-03 09:00:00")])
  /\ Files.get_datasets
       (Some [(Files.LAST_UPDATED, Files.File "2026-11-03 09:00:00")])
     = inr [].
Proof.
  split; [reflexivity|]. split; [reflexivity|].
  exact (proj2 (proj2 (proj2
           (update_log_outcome "2026-11-03 09:00:00" None
              (Some [(Files.LAST_UPDATED,
                      Files.File "2026-11-03 09:00:00")])
              (inr tt) eq_refl) eq_refl))).
Defined.

Section SaveFacts.

Variables (Table E : Type).
Variable to_parquet : Table -> E + string.
Variable read_parquet : string -> E + Table.

Lemma fresh_differs (name n : string) (es : list (string * Files.Entry))
    (e : Files.Entry) :
  Files.assoc name es = None -> Files.assoc n es = Some e -> n <> name.
Proof. intros H1 H2 ->. congruence. Qed.

(** The folder while [save_data] runs: the new directory appended,
    then the files written in it. *)
Lemma kept_by_new_dir (name n : string) (es : list (string * Files.Entry))
    (e : Files.Entry) :
  Files.assoc n es = Some e ->
  Files.assoc n (es ++ [(name, Files.Dir [])]) = Some e.
Proof. intros H. rewrite FileFacts.assoc_app, H. reflexivity. Qed.

Lemma kept_by_log (now n : string) (fs fs' : Files.Folder)
    (res : Files.OSError + unit) (files : list (string * string)) :
  Files.update_log now fs = (res, fs') ->
  Files.assoc n (Files.entries fs) = Some (Files.Dir files) ->
  Files.assoc n (Files.entries fs') = Some (Files.Dir files).
Proof.
  intros H Hn.
  destruct (FileFacts.update_log_cases now fs)
    as [[fl [El U]] | [El U]]; rewrite U in H; injection H as <- <-;
    cbn [Files.entries]; [exact Hn|].
  rewrite FileFacts.assoc_set_other; [exact Hn|].
  intros ->. exact (El files Hn).
Qed.

Lemma taken_by_log (now n : string) (fs fs' : Files.Folder)
    (res : Files.OSError + unit) :
  Files.update_log now fs = (res, fs') ->
  Files.taken fs n = true -> Files.taken fs' n = true.
Proof.
  intros H Hn. unfold Files.taken in *.
  destruct (FileFacts.update_log_cases now fs)
    as [[fl [El U]] | [El U]]; rewrite U in H; injection H as <- <-;
    cbn [Files.entries]; [exact Hn|].
  destruct (String.eqb n Files.LAST_UPDATED) eqn:En.
  - apply String.eqb_eq in En. subst n.
    rewrite FileFacts.assoc_set_same. reflexivity.
  - apply String.eqb_neq in En.
    rewrite FileFacts.assoc_set_other by exact En. exact Hn.
Qed.

(** Whatever [save_data] does, the entries of the folder stay: every
    dataset directory holds the same files and every name taken stays
    taken. *)
Lemma save_data_preserves (name : string) (data desc : Table)
    (now : string) (fs fs' : Files.Folder) (res : Files.Exn E + unit) :
  Files.save_data to_parquet name data desc now fs = (res, fs') ->
  (forall n files,
     Files.holds_dataset fs n files -> Files.holds_dataset fs' n files)
  /\ (forall n, Files.taken fs n = true -> Files.taken fs' n = true).
Proof.
  intros H. unfold Files.save_data in H.
  destruct (Files.assoc name (Files.entries fs)) as [e0|] eqn:E0.
  { injection H as <- <-. auto. }
  set (es1 := Files.entries fs ++ [(name, Files.Dir [])]) in *.
  assert (forall n e, Files.assoc n (Files.entries fs) = Some e ->
            n <> name /\ Files.assoc n es1 = Some e) as K1.
  { intros n e Hn. split; [exact (fresh_differs name n _ e E0 Hn)|].
    apply kept_by_new_dir. exact Hn. }
  assert (forall fsx : Files.Folder,
            (forall n e, Files.assoc n (Files.entries fs) = Some e ->
                         Files.assoc n (Files.entries fsx) = Some e) ->
            (forall n files, Files.holds_dataset fs n files ->
                             Files.holds_dataset fsx n files)
            /\ (forall n, Files.taken fs n = true ->
                          Files.taken fsx n = true)) as Done.
  { intros fsx Hx. split.
    - intros n files Hn. apply Hx. exact Hn.
    - intros n Hn. unfold Files.taken in *.
      destruct (Files.assoc n (Files.entries fs)) as [e|] eqn:En;
        [|discriminate].
      rewrite (Hx n e En). reflexivity. }
  destruct (to_parquet data) as [e1|b1].
  { injection H as <- <-. apply Done. intros n e Hn.
    cbn [Files.entries]. apply K1. exact Hn. }
  set (es2 := Files.write_in name Files.DATA_FILENAME b1 es1) in *.
  assert (forall n e, Files.assoc n (Files.entries fs) = Some e ->
            Files.assoc n es2 = Some e) as K2.
  { intros n e Hn. destruct (K1 n e Hn) as [Hne H1]. unfold es2.
    rewrite FileFacts.assoc_write_other by exact Hne. exact H1. }
  destruct (to_parquet desc) as [e2|b2].
  { injection H as <- <-. apply Done. exact K2. }
  set (es3 := Files.write_in name Files.DESC_FILENAME b2 es2) in *.
  assert (forall n e, Files.assoc n (Files.entries fs) = Some e ->
            Files.assoc n es3 = Some e) as K3.
  { intros n e Hn. destruct (K1 n e Hn) as [Hne _]. unfold es3.
    rewrite FileFacts.assoc_write_other by exact Hne. apply K2. exact Hn. }
  destruct (Files.update_log now (Some es3)) as [r4 fs4] eqn:E4.
  assert (fs' = fs4) as ->
    by (destruct r4; injection H as _ <-; reflexivity).
  split.
  - intros n files Hn. unfold Files.holds_dataset.
    apply (kept_by_log now n (Some es3) fs4 r4 files E4).
    cbn [Files.entries]. apply K3. exact Hn.
  - intros n Hn. apply (taken_by_log now n (Some es3) fs4 r4 E4).
    unfold Files.taken in *. cbn [Files.entries].
    destruct (Files.assoc n (Files.entries fs)) as [e|] eqn:En;
      [|discriminate].
    rewrite (K3 n e En). reflexivity.
Qed.

(** X14.  [save_data] under a name that is one path component never
    touches what the folder holds.  When the name is taken, by a
    dataset or by a file, it raises [FileExistsError] and the folder is
    as before.  Whatever the outcome, every dataset directory of the
    folder holds the same files afterwards, and every name taken stays
    taken. *)
Theorem save_data_keeps_existing (name : string) (data desc : Table)
    (now : string) (fs fs' : Files.Folder) (res : Files.Exn E + unit) :
  Names.component name = true ->
  Files.save_data to_parquet name data desc now fs = (res, fs') ->
  (Files.taken fs name = true ->
   res = inl (Files.OS E Files.FileExistsError) /\ fs' = fs)
  /\ (forall n files,
        Files.holds_dataset fs n files -> Files.holds_dataset fs' n files)
  /\ (forall n, Files.taken fs n = true -> Files.taken fs' n = true).
Proof.
  intros _ H. split.
  - intros T. unfold Files.save_data in H. unfold Files.taken in T.
    destruct (Files.assoc name (Files.entries fs)) as [e0|];
      [|discriminate].
    injection H as <- <-. auto.
  - exact (save_data_preserves name data desc now fs fs' res H).
Qed.

End SaveFacts.

Section SaveLoad.

Variables (Table E : Type).
Variable to_parquet : Table -> E + string.
Variable read_parquet : string -> E + Table.

Lemma new_dir_found (name : string) (es : list (string * Files.Entry)) :
  Files.assoc name es = None ->
  Files.assoc name (es ++ [(name, Files.Dir [])]) = Some (Files.Dir []).
Proof.
  intros H. rewrite FileFacts.assoc_app, H. simpl.
  rewrite String.eqb_refl. reflexivity.
Qed.

Lemma listed_names (es : list (string * Files.Entry)) :
  map (fun e => Files.Child (fst e)) es = map Files.Child (map fst es).
Proof. rewrite map_map. reflexivity. Qed.

(** The folder left by a [save_data] that returns. *)
Lemma save_data_written (name : string) (data desc : Table) (now : string)
    (fs fs' : Files.Folder) :
  Files.save_data to_parquet name data desc now fs = (inr tt, fs') ->
  exists b1 b2 es3,
    Files.assoc name (Files.entries fs) = None
    /\ to_parquet data = inr b1 /\ to_parquet desc = inr b2
    /\ es3 = Files.write_in name Files.DESC_FILENAME b2
               (Files.write_in name Files.DATA_FILENAME b1
                  (Files.entries fs ++ [(name, Files.Dir [])]))
    /\ (forall files,
          Files.assoc Files.LAST_UPDATED es3 <> Some (Files.Dir files))
    /\ fs' = Some (dict_set String.eqb Files.LAST_UPDATED (Files.File now) es3)
    /\ Files.assoc name es3
       = Some (Files.Dir [(Files.DATA_FILENAME, b1);
                          (Files.DESC_FILENAME, b2)]).
Proof.
  intros H. unfold Files.save_data in H.
  destruct (Files.assoc name (Files.entries fs)) as [e0|] eqn:E0;
    [discriminate|].
  pose proof (new_dir_found name _ E0) as A1.
  destruct (to_parquet data) as [e1|b1] eqn:T1; [discriminate|].
  pose proof (FileFacts.assoc_write_same name Files.DATA_FILENAME b1 _ []
                A1) as A2.
  destruct (to_parquet desc) as [e2|b2] eqn:T2; [discriminate|].
  pose proof (FileFacts.assoc_write_same name Files.DESC_FILENAME b2 _ _
                A2) as A3.
  destruct (FileFacts.update_log_cases now
              (Some (Files.write_in name Files.DESC_FILENAME b2
                       (Files.write_in name Files.DATA_FILENAME b1
                          (Files.entries fs ++ [(name, Files.Dir [])])))))
    as [[fl [El U]] | [El U]]; rewrite U in H; [discriminate|].
  injection H as <-. cbn [Files.entries] in *.
  exists b1, b2. eexists. repeat (split; [reflexivity|]).
  split; [exact El|]. split; [reflexivity | exact A3].
Qed.

(** What was written is what is loaded. *)
Lemma written_loads (name : string) (data desc : Table) (now : string)
    (fs fs' : Files.Folder) :
  (forall t bytes, to_parquet t = inr bytes -> read_parquet bytes = inr t) ->
  Files.save_data to_parquet name data desc now fs = (inr tt, fs') ->
  Files.taken fs name = false
  /\ Files.load_data read_parquet name fs' = inr (data, desc).
Proof.
  intros Hcodec H.
  destruct (save_data_written name data desc now fs fs' H)
    as [b1 [b2 [es3 [E0 [T1 [T2 [_ [El [-> A3]]]]]]]]].
  split; [unfold Files.taken; rewrite E0; reflexivity|].
  assert (name <> Files.LAST_UPDATED) as Hne.
  { intros Heq. rewrite Heq in A3. exact (El _ A3). }
  unfold Files.load_data, Files.read_at.
  rewrite FileFacts.assoc_set_other by exact Hne. rewrite A3.
  cbn. rewrite (Hcodec data b1 T1), (Hcodec desc b2 T2). reflexivity.
Qed.

(** X15.  A dataset saved is the dataset loaded, provided the parquet
    library reads back what it writes.  When [save_data] returns under
    a name that is one path component, the name was not taken before;
    afterwards [load_data] returns the two frames saved, [get_datasets]
    lists the datasets listed before and the new one, in some order,
    and the log holds the time of the save. *)
Theorem save_then_load (name : string) (data desc : Table) (now : string)
    (fs fs' : Files.Folder) :
  Names.component name = true ->
  (forall t bytes, to_parquet t = inr bytes -> read_parquet bytes = inr t) ->
  Files.save_data to_parquet name data desc now fs = (inr tt, fs') ->
  Files.taken fs name = false
  /\ Files.load_data read_parquet name fs' = inr (data, desc)
  /\ (exists ps,
        Files.get_datasets fs' = inr ps
        /\ Permutation ps
             (Files.Child name
              :: map (fun e => Files.Child (fst e))
                     (filter (fun e => Files.is_dir (snd e))
                             (Files.entries fs))))
  /\ Files.assoc Files.LAST_UPDATED (Files.entries fs')
     = Some (Files.File now).
Proof.
  intros _ Hcodec H.
  destruct (written_loads name data desc now fs fs' Hcodec H) as [Hfree Hload].
  split; [exact Hfree|]. split; [exact Hload|].
  destruct (save_data_written name data desc now fs fs' H)
    as [b1 [b2 [es3 [_ [_ [_ [Hes [El [-> _]]]]]]]]].
  split.
  - eexists. split; [reflexivity|].
    rewrite FileFacts.dirs_set_file by exact El.
    rewrite !listed_names. rewrite Hes.
    rewrite !FileFacts.dirs_write.
    rewrite FileFacts.dirs_app, map_app, map_app. cbn [filter map snd fst
      Files.is_dir app].
    apply Permutation_sym, Permutation_cons_append.
  - apply FileFacts.assoc_set_same.
Qed.

(** X16.  A save that fails while writing leaves the name taken.  When
    the name is free and the library cannot write one of the two
    frames, [save_data] raises the library's exception after the
    directory has been made: the name is listed by [get_datasets],
    [load_data] raises for it, and every later [save_data] under the
    name raises [FileExistsError]. *)
Theorem failed_save_takes_name (name : string) (data desc : Table)
    (now : string) (fs : Files.Folder) (e : E) :
  Names.component name = true ->
  Files.taken fs name = false ->
  to_parquet data = inl e
  \/ ((exists bytes, to_parquet data = inr bytes) /\ to_parquet desc = inl e) ->
  exists fs',
    Files.save_data to_parquet name data desc now fs
    = (inl (Files.Lib e), fs')
    /\ (exists ps, Files.get_datasets fs' = inr ps /\ In (Files.Child name) ps)
    /\ (exists e', Files.load_data read_parquet name fs' = inl e')
    /\ (forall data2 desc2 now2,
          Files.save_data to_parquet name data2 desc2 now2 fs'
          = (inl (Files.OS E Files.FileExistsError), fs')).
Proof.
  intros _ Hfree Hfail. unfold Files.taken in Hfree.
  destruct (Files.assoc name (Files.entries fs)) as [e0|] eqn:E0;
    [discriminate|].
  pose proof (new_dir_found name _ E0) as A1.
  assert (forall es : list (string * Files.Entry),
            (exists files,
               Files.assoc name es = Some (Files.Dir files)
               /\ Files.assoc Files.DESC_FILENAME files = None) ->
            (exists ps, Files.get_datasets (Some es) = inr ps
                        /\ In (Files.Child name) ps)
            /\ (exists e', Files.load_data read_parquet name (Some es)
                           = inl e')
            /\ (forall data2 desc2 now2,
                  Files.save_data to_parquet name data2 desc2 now2 (Some es)
                  = (inl (Files.OS E Files.FileExistsError), Some es)))
    as Blocked.
  { intros es [files [A D]]. split; [|split].
    - eexists. split; [reflexivity|].
      clear - A. induction es as [|[k en] es IH]; simpl in *; [discriminate|].
      destruct (String.eqb name k) eqn:Ek.
      + apply String.eqb_eq in Ek. subst k. injection A as ->. simpl.
        left. reflexivity.
      + destruct (Files.is_dir en); simpl; [right|]; apply IH; exact A.
    - unfold Files.load_data, Files.read_at. rewrite A, D.
      destruct (Files.assoc Files.DATA_FILENAME files) as [b|];
        [destruct (read_parquet b)|]; eexists; reflexivity.
    - intros data2 desc2 now2. unfold Files.save_data.
      cbn [Files.entries]. rewrite A. reflexivity. }
  unfold Files.save_data. rewrite E0.
  destruct Hfail as [T1 | [[b1 T1] T2]].
  - rewrite T1. eexists. split; [reflexivity|]. apply Blocked.
    exists []. split; [exact A1 | reflexivity].
  - rewrite T1, T2. eexists. split; [reflexivity|]. apply Blocked.
    eexists. split.
    + apply (FileFacts.assoc_write_same name Files.DATA_FILENAME b1 _ []).
      exact A1.
    + reflexivity.
Qed.

End SaveLoad.

(** ** The data folder with a stand-in library *)

Lemma save_data_keeps_existing_witness :
  Files.taken Plain.folder1 "first set" = true
  /\ Files.save_data Plain.to_parquet "first set" "d2"%string "s2"%string
       "2026-11-03 09:00:00" Plain.folder1
     = (inl (Files.OS unit Files.FileExistsError), Plain.folder1).
Proof.
  assert (Files.taken Plain.folder1 "first set" = true) as T by reflexivity.
  split; [exact T|].
  pose (out := Files.save_data Plain.to_parquet "first set" "d2"%string
                 "s2"%string "2026-11-03 09:00:00" Plain.folder1).
  destruct (proj1 (save_data_keeps_existing string unit Plain.to_parquet
                     "first set" "d2"%string "s2"%string
                     "2026-11-03 09:00:00" Plain.folder1 (snd out) (fst out)
                     eq_refl (surjective_pairing out)) T) as [R F].
  change (out = (inl (Files.OS unit Files.FileExistsError), Plain.folder1)).
  rewrite (surjective_pairing out), R, F. reflexivity.
Defined.

Lemma save_then_load_witness :
  exists fs',
    Files.save_data Plain.to_parquet "second set" "d2"%string "s2"%string
      "2026-11-03 09:00:00" Plain.folder1
    = (inr tt, fs')
    /\ Files.load_data Plain.read_parquet "second set" fs'
       = inr ("d2"%string, "s2"%string)
    /\ exists ps,
         Files.get_datasets fs' = inr ps
         /\ Permutation ps [Files.Child "second set"; Files.Child "first set"].
Proof.
  pose (out := Files.save_data Plain.to_parquet "second set" "d2"%string
                 "s2"%string "2026-11-03 09:00:00" Plain.folder1).
  assert (out = (inr tt, snd out)) as E by reflexivity.
  assert (forall t bytes : string,
            Plain.to_parquet t = inr bytes ->
            Plain.read_parquet bytes = inr t) as Hcodec.
  { intros t bytes. unfold Plain.to_parquet, Plain.read_parquet.
    destruct (String.eqb t EmptyString); [discriminate|].
    intros H. injection H as <-. reflexivity. }
  destruct (save_then_load string unit Plain.to_parquet Plain.read_parquet
              "second set" "d2"%string "s2"%string "2026-11-03 09:00:00"
              Plain.folder1 (snd out) eq_refl Hcodec E) as [_ [L [G _]]].
  exists (snd out). split; [exact E|]. split; [exact L | exact G].
Defined.

Lemma failed_save_takes_name_witness :
  exists fs',
    Files.save_data Plain.to_parquet "second set" "d2"%string EmptyString
      "2026-11-03 09:00:00" Plain.folder1
    = (inl (Files.Lib tt), fs')
    /\ Files.taken fs' "second set" = true
    /\ exists ps, Files.get_datasets fs' = inr ps
                  /\ In (Files.Child "second set") ps.
Proof.
  destruct (failed_save_takes_name string unit Plain.to_parquet
              Plain.read_parquet "second set" "d2"%string EmptyString
              "2026-11-03 09:00:00" Plain.folder1 tt eq_refl eq_refl
              (or_intror (conj (ex_intro _ "d2"%string eq_refl) eq_refl)))
    as [fs' [S [G _]]].
  exists fs'. split; [exact S|]. split; [|exact G].
  injection S as <-. reflexivity.
Defined.

(** * The upload dialog *)

Module FrameFacts.
Import Frames.

Lemma assoc_None (V : Type) (k : string) (l : list (string * V)) :
  Files.assoc k l = None <-> ~ In k (map fst l).
Proof.
  induction l as [|[k' v] l IH]; simpl; [tauto|].
  destruct (String.eqb k k') eqn:E.
  - apply String.eqb_eq in E. subst k'. split; [discriminate|].
    intros H. exfalso. apply H. left. reflexivity.
  - apply String.eqb_neq in E. rewrite IH. split.
    + intros H [H1 | H1]; [congruence | contradiction].
    + intros H H1. apply H. right. exact H1.
Qed.

Lemma has_column_In (Cell : Type) (t : Table Cell) (label : string) :
  has_column t label = true <-> In label (columns t).
Proof.
  unfold has_column. rewrite existsb_exists. split.
  - intros [x [Hx E]]. apply String.eqb_eq in E. subst x. exact Hx.
  - intros H. exists label. split; [exact H | apply String.eqb_refl].
Qed.

(** The columns left by [set_index] and by [drop]. *)
Lemma columns_without (Cell : Type) (p : string -> bool)
    (l : list (string * list Cell)) (c : string) :
  In c (map fst (filter (fun x => p (fst x)) l))
  <-> In c (map fst l) /\ p c = true.
Proof.
  rewrite !in_map_iff. split.
  - intros [x [E H]]. apply filter_In in H. destruct H as [H Hp].
    subst c. split; [exists x; auto | exact Hp].
  - intros [[x [E H]] Hp]. subst c. exists x. split; [reflexivity|].
    apply filter_In. auto.
Qed.

Lemma not_listed (labels : list string) (c : string) :
  negb (existsb (String.eqb c) labels) = true <-> ~ In c labels.
Proof.
  rewrite negb_true_iff. split.
  - intros H Hin.
    assert (existsb (String.eqb c) labels = true) as Ht
      by (apply existsb_exists; exists c; split;
          [exact Hin | apply String.eqb_refl]).
    congruence.
  - intros H. destruct (existsb (String.eqb c) labels) eqn:E; [|reflexivity].
    apply existsb_exists in E. destruct E as [x [Hx Ex]].
    apply String.eqb_eq in Ex. subst x. contradiction.
Qed.

End FrameFacts.

(** X17.  [_process_data] on a frame with pairwise different column
    labels.  It returns exactly when the chosen identifier column is a
    column and every ignored column other than the structure column is
    a column other than the identifier column; otherwise it raises
    [KeyError], so that ignoring the identifier column always raises.
    The frame returned is indexed by the cells of the identifier
    column and keeps, in order, the columns that are neither the
    identifier column nor ignored; the structure column is kept even
    when it is listed as ignored. *)
Theorem process_data_outcome (Cell : Type) (data : Frames.Table Cell)
    (id_col qrs_col : string) (ignore_cols : list string) :
  NoDup (Frames.columns data) ->
  let dropped :=
    filter (fun col => negb (String.eqb col qrs_col)) ignore_cols in
  match Modals._process_data data id_col qrs_col ignore_cols with
  | inr t =>
      (exists cells,
         Frames.getitem id_col data = inr cells
         /\ Frames.index t = map (@Frames.Key Cell) cells)
      /\ (forall c, In c dropped -> In c (Frames.columns data) /\ c <> id_col)
      /\ Frames.cols t
         = filter (fun c => negb (existsb (String.eqb (fst c)) dropped))
             (filter (fun c => negb (String.eqb (fst c) id_col))
                     (Frames.cols data))
      /\ (forall c, In c (Frames.columns t) <->
                    In c (Frames.columns data) /\ c <> id_col
                    /\ ~ In c dropped)
      /\ (In qrs_col (Frames.columns data) -> qrs_col <> id_col ->
          In qrs_col (Frames.columns t))
  | inl (Frames.KeyError_of missing) =>
      (~ In id_col (Frames.columns data) /\ missing = [id_col])
      \/ (In id_col (Frames.columns data)
          /\ missing <> []
          /\ forall c, In c missing <->
                       In c dropped
                       /\ (~ In c (Frames.columns data) \/ c = id_col))
  end.
Proof.
  intros _ dropped. unfold Modals._process_data, Frames.set_index.
  destruct (Files.assoc id_col (Frames.cols data)) as [cells|] eqn:Eid.
  2:{ left. split; [apply FrameFacts.assoc_None; exact Eid | reflexivity]. }
  assert (In id_col (Frames.columns data)) as Hid.
  { destruct (in_dec string_dec id_col (Frames.columns data)) as [H|H];
      [exact H|].
    apply FrameFacts.assoc_None in H. unfold Frames.columns in *. congruence. }
  fold dropped.
  set (t1 := {| Frames.index := map (@Frames.Key Cell) cells;
                Frames.cols := filter (fun c => negb (String.eqb (fst c) id_col))
                                      (Frames.cols data) |}).
  assert (forall c, In c (Frames.columns t1) <->
                    In c (Frames.columns data) /\ c <> id_col) as Hc1.
  { intros c. unfold Frames.columns, t1. cbn [Frames.cols].
    rewrite (FrameFacts.columns_without Cell
               (fun x => negb (String.eqb x id_col))).
    rewrite negb_true_iff, String.eqb_neq. reflexivity. }
  assert (forall c, In c (filter (fun l => negb (Frames.has_column t1 l))
                                 dropped) <->
                    In c dropped
                    /\ (~ In c (Frames.columns data) \/ c = id_col)) as Hm.
  { intros c. rewrite filter_In, negb_true_iff. split.
    - intros [Hd Hn]. split; [exact Hd|].
      destruct (string_dec c id_col) as [->|Hne]; [right; reflexivity|].
      left. intros Hin.
      assert (Frames.has_column t1 c = true) as Ht
        by (apply FrameFacts.has_column_In, Hc1; auto).
      congruence.
    - intros [Hd Hn]. split; [exact Hd|].
      destruct (Frames.has_column t1 c) eqn:Et; [|reflexivity].
      apply FrameFacts.has_column_In, Hc1 in Et. destruct Et as [Hin Hne].
      destruct Hn as [Hn | Hn]; contradiction. }
  unfold Frames.drop.
  destruct (filter (fun l => negb (Frames.has_column t1 l)) dropped)
    as [|m ms] eqn:Ef.
  - split.
    { exists cells. split; [|reflexivity].
      unfold Frames.getitem. rewrite Eid. reflexivity. }
    assert (forall c, In c dropped ->
                      In c (Frames.columns data) /\ c <> id_col) as Hd.
    { intros c Hin.
      destruct (in_dec string_dec c (Frames.columns data)) as [H1|H1].
      - split; [exact H1|]. intros ->.
        apply (proj2 (Hm id_col)). auto.
      - exfalso. apply (proj2 (Hm c)). auto. }
    split; [exact Hd|]. split; [reflexivity|].
    assert (forall c, In c (map fst
              (filter (fun c0 : string * list Cell =>
                         negb (existsb (String.eqb (fst c0)) dropped))
                      (Frames.cols t1))) <->
              In c (Frames.columns data) /\ c <> id_col /\ ~ In c dropped)
      as Hc2.
    { intros c.
      rewrite (FrameFacts.columns_without Cell
                 (fun x => negb (existsb (String.eqb x) dropped))).
      rewrite FrameFacts.not_listed.
      fold (Frames.columns t1). rewrite Hc1. tauto. }
    split; [exact Hc2|].
    intros Hq Hne. apply Hc2. split; [exact Hq|]. split; [exact Hne|].
    unfold dropped. intros Hin. apply filter_In in Hin.
    destruct Hin as [_ Hin]. rewrite String.eqb_refl in Hin. discriminate.
  - right. split; [exact Hid|]. split; [discriminate|]. exact Hm.
Qed.

Section UploadFacts.

Variables (Cell E : Type).
Variable to_parquet : Modals.Table Cell -> E + string.
Variable read_parquet : string -> E + Modals.Table Cell.
Variable calculate_ionization_efficiency :
  list Cell -> list (Frames.Label Cell) -> E + Modals.Table Cell.

(** A name that passes validation matches the pattern, whatever the
    list of datasets holds. *)
Lemma validated_name_matches (name : string)
    (datasets : list Modals.DatasetEntry) :
  Modals._validate_name name datasets = inr [] ->
  Names.NAME_PATTERN name = true.
Proof.
  unfold Modals._validate_name.
  destruct (String.eqb name EmptyString); [discriminate|].
  destruct (Modals.lowered datasets) as [e|names]; [discriminate|].
  destruct (existsb (String.eqb (Names.lower name)) names); [discriminate|].
  destruct (Names.NAME_PATTERN name); [reflexivity | discriminate].
Qed.

Lemma validate_name_short (name : string)
    (datasets : list Modals.DatasetEntry) (errs : list Modals.ValidationErrors) :
  Modals._validate_name name datasets = inr errs ->
  (List.length errs <= 1)%nat.
Proof.
  unfold Modals._validate_name.
  destruct (String.eqb name EmptyString);
    [intros H; injection H as <-; simpl; lia|].
  destruct (Modals.lowered datasets) as [e|names]; [discriminate|].
  destruct (existsb (String.eqb (Names.lower name)) names);
    [intros H; injection H as <-; simpl; lia|].
  destruct (Names.NAME_PATTERN name); intros H; injection H as <-;
    simpl; lia.
Qed.

Lemma validate_data_short (data : Modals.Table Cell) (id_col qrs_col : string) :
  (List.length (Modals._validate_data data id_col qrs_col) <= 1)%nat.
Proof.
  unfold Modals._validate_data.
  destruct (Frames.empty data); [simpl; lia|].
  destruct (String.eqb id_col qrs_col); simpl; lia.
Qed.

(** X18.  What [upload] never does.  Whatever the inputs and the
    outcome, every dataset directory of the data folder holds the same
    files afterwards.  At most two validation errors are notified, the
    one about the name first; when there is one, nothing else changes.
    The callback is invoked at most once, and only by an upload that
    returns; an upload that raises leaves the frame read from the
    file, the notifications and the dialog as they were. *)
Theorem upload_never_overwrites (inp : Modals.Inputs)
    (datasets : list Modals.DatasetEntry) (now : string)
    (st st' : Modals.State Cell) (res : Modals.Exn E + unit) :
  Modals.upload to_parquet calculate_ionization_efficiency inp datasets now st
  = (res, st') ->
  (forall n files,
     Files.holds_dataset (Modals.folder st) n files ->
     Files.holds_dataset (Modals.folder st') n files)
  /\ (exists errs,
        Modals.shown st' = Modals.shown st ++ errs
        /\ (List.length errs <= 2)%nat
        /\ (errs <> [] -> st' = Modals.notify errs st /\ res = inr tt))
  /\ (Modals.loaded st' = Modals.loaded st
      \/ exists data desc,
           Modals.loaded st' = Modals.loaded st ++ [(data, desc)]
           /\ res = inr tt)
  /\ (forall e, res = inl e ->
        Modals.temp st' = Modals.temp st
        /\ Modals.shown st' = Modals.shown st
        /\ Modals.loaded st' = Modals.loaded st
        /\ Modals.open st' = Modals.open st).
Proof.
  intros H. unfold Modals.upload in H.
  assert (forall r : Modals.Exn E + unit,
            (res, st') = (r, st) ->
            (forall n files,
               Files.holds_dataset (Modals.folder st) n files ->
               Files.holds_dataset (Modals.folder st') n files)
            /\ (exists errs,
                  Modals.shown st' = Modals.shown st ++ errs
                  /\ (List.length errs <= 2)%nat
                  /\ (errs <> [] -> st' = Modals.notify errs st
                                    /\ res = inr tt))
            /\ (Modals.loaded st' = Modals.loaded st
                \/ exists data desc,
                     Modals.loaded st' = Modals.loaded st ++ [(data, desc)]
                     /\ res = inr tt)
            /\ (forall e, res = inl e ->
                  Modals.temp st' = Modals.temp st
                  /\ Modals.shown st' = Modals.shown st
                  /\ Modals.loaded st' = Modals.loaded st
                  /\ Modals.open st' = Modals.open st)) as Same.
  { intros r Hr. injection Hr as -> ->. split; [auto|].
    split; [exists []; rewrite app_nil_r; split; [reflexivity|];
            split; [simpl; lia | intros C; destruct (C eq_refl)]|].
    split; [left; reflexivity | auto]. }
  destruct (Modals._validate_name (Modals.in_name inp) datasets)
    as [ea|name_errors] eqn:Vn.
  { symmetry in H. exact (Same _ H). }
  pose proof (validate_name_short _ _ _ Vn) as Ln.
  pose proof (validate_data_short (Modals.temp st) (Modals.in_id_col inp)
                (Modals.in_qrs_col inp)) as Ld.
  destruct (name_errors
            ++ Modals._validate_data (Modals.temp st) (Modals.in_id_col inp)
                 (Modals.in_qrs_col inp)) as [|err errs] eqn:Ve.
  2:{ injection H as <- <-. split; [auto|].
      split.
      { exists (err :: errs). split; [reflexivity|].
        split; [rewrite <- Ve, length_app; lia | auto]. }
      split; [left; reflexivity | discriminate]. }
  apply app_eq_nil in Ve. destruct Ve as [-> Vd].
  destruct (Modals._process_data (Modals.temp st) (Modals.in_id_col inp)
              (Modals.in_qrs_col inp) (Modals.in_ignore_cols inp))
    as [ek|data]; [symmetry in H; exact (Same _ H)|].
  destruct (Frames.getitem (Modals.in_qrs_col inp) data) as [ek|structures];
    [symmetry in H; exact (Same _ H)|].
  destruct (calculate_ionization_efficiency structures (Frames.index data))
    as [ec|desc]; [symmetry in H; exact (Same _ H)|].
  destruct (Files.save_data to_parquet (Modals.in_name inp) data desc now
              (Modals.folder st)) as [rs fs] eqn:Es.
  destruct (save_data_preserves (Modals.Table Cell) E to_parquet
              (Modals.in_name inp) data desc now (Modals.folder st) fs rs
              Es) as [Keep _].
  destruct rs as [es|[]]; injection H as <- <-; cbn.
  - split; [exact Keep|].
    split; [exists []; rewrite app_nil_r; split; [reflexivity|];
            split; [simpl; lia | intros C; destruct (C eq_refl)]|].
    split; [left; reflexivity | auto].
  - split; [exact Keep|].
    split; [exists []; rewrite app_nil_r; split; [reflexivity|];
            split; [simpl; lia | intros C; destruct (C eq_refl)]|].
    split; [right; exists data, desc; auto | discriminate].
Qed.

(** X19.  What a completed upload has done.  When [upload] returns
    without a notification, the name matches the pattern and was not
    taken, the frame read is not empty and the two chosen columns
    differ; the frames handed to the callback are the processed data
    and the descriptors calculated from its structure column and its
    index; the same two frames are what [load_data], and so the load
    dialog, returns for the name afterwards, provided the parquet
    library reads back what it writes; the frame read from the file is
    cleared and the dialog closed. *)
Theorem upload_stores (inp : Modals.Inputs)
    (datasets : list Modals.DatasetEntry) (now : string)
    (st st' : Modals.State Cell) :
  (forall t bytes, to_parquet t = inr bytes -> read_parquet bytes = inr t) ->
  Modals.upload to_parquet calculate_ionization_efficiency inp datasets now st
  = (inr tt, st') ->
  Modals.shown st' = Modals.shown st ->
  exists data desc structures,
    Modals._process_data (Modals.temp st) (Modals.in_id_col inp)
      (Modals.in_qrs_col inp) (Modals.in_ignore_cols inp) = inr data
    /\ Frames.getitem (Modals.in_qrs_col inp) data = inr structures
    /\ calculate_ionization_efficiency structures (Frames.index data)
       = inr desc
    /\ Modals.loaded st' = Modals.loaded st ++ [(data, desc)]
    /\ Modals.success st'
       = Modals.success st ++ [(Frames.shape0 data, Frames.shape0 desc)]
    /\ Modals.temp st' = Frames.empty_frame Cell
    /\ Modals.open st' = false
    /\ Names.NAME_PATTERN (Modals.in_name inp) = true
    /\ Files.taken (Modals.folder st) (Modals.in_name inp) = false
    /\ Frames.empty (Modals.temp st) = false
    /\ Modals.in_id_col inp <> Modals.in_qrs_col inp
    /\ Files.load_data read_parquet (Modals.in_name inp) (Modals.folder st')
       = inr (data, desc)
    /\ Modals.load read_parquet (Modals.in_name inp) st'
       = (inr tt, Modals.finish data desc st').
Proof.
  intros Hcodec H Hshown. unfold Modals.upload in H.
  destruct (Modals._validate_name (Modals.in_name inp) datasets)
    as [ea|name_errors] eqn:Vn; [discriminate|].
  destruct (name_errors
            ++ Modals._validate_data (Modals.temp st) (Modals.in_id_col inp)
                 (Modals.in_qrs_col inp)) as [|err errs] eqn:Ve.
  2:{ injection H as <-. cbn in Hshown. exfalso.
      apply (f_equal (@List.length _)) in Hshown.
      rewrite length_app in Hshown. simpl in Hshown. lia. }
  apply app_eq_nil in Ve. destruct Ve as [-> Vd].
  pose proof (validated_name_matches _ _ Vn) as Hp.
  destruct (Modals._process_data (Modals.temp st) (Modals.in_id_col inp)
              (Modals.in_qrs_col inp) (Modals.in_ignore_cols inp))
    as [ek|data] eqn:Ep; [discriminate|].
  destruct (Frames.getitem (Modals.in_qrs_col inp) data)
    as [ek|structures] eqn:Eg; [discriminate|].
  destruct (calculate_ionization_efficiency structures (Frames.index data))
    as [ec|desc] eqn:Ec; [discriminate|].
  destruct (Files.save_data to_parquet (Modals.in_name inp) data desc now
              (Modals.folder st)) as [rs fs] eqn:Es.
  destruct rs as [es|[]]; [discriminate|].
  injection H as <-.
  destruct (written_loads (Modals.Table Cell) E to_parquet read_parquet
              (Modals.in_name inp) data desc now (Modals.folder st) fs
              Hcodec Es) as [Hfree Hload].
  exists data, desc, structures.
  split; [reflexivity|]. split; [exact Eg|]. split; [exact Ec|].
  split; [reflexivity|]. split; [reflexivity|]. split; [reflexivity|].
  split; [reflexivity|].
  split; [exact Hp|]. split; [exact Hfree|].
  unfold Modals._validate_data in Vd.
  destruct (Frames.empty (Modals.temp st)); [discriminate|].
  split; [reflexivity|].
  destruct (String.eqb (Modals.in_id_col inp) (Modals.in_qrs_col inp))
    eqn:Eq; [discriminate|].
  split; [apply String.eqb_neq; exact Eq|].
  split; [exact Hload|].
  unfold Modals.load. cbn [Modals.folder Modals._clear_temp Modals.set_temp
                             Modals.finish Modals.set_folder].
  assert (String.eqb (Modals.in_name inp) EmptyString = false) as ->.
  { apply String.eqb_neq. intros Heq. rewrite Heq in Hp. discriminate. }
  rewrite Hload. reflexivity.
Qed.

End UploadFacts.

(** ** The upload dialog with stand-in libraries *)

Lemma process_data_outcome_witness :
  NoDup (Frames.columns PlainDialog.frame3)
  /\ Modals._process_data PlainDialog.frame3 "id" "smiles"
       ["mass"; "smiles"]%string
     = inr PlainDialog.data3
  /\ In "smiles"%string (Frames.columns PlainDialog.data3).
Proof.
  assert (NoDup (Frames.columns PlainDialog.frame3)) as Hnd.
  { repeat constructor; simpl; intuition discriminate. }
  split; [exact Hnd|]. split; [reflexivity|].
  pose proof (process_data_outcome string PlainDialog.frame3 "id" "smiles"
                ["mass"; "smiles"]%string Hnd) as H.
  cbv zeta in H.
  change (Modals._process_data PlainDialog.frame3 "id" "smiles"
            ["mass"; "smiles"]%string)
    with (@inr Frames.KeyError _ PlainDialog.data3) in H.
  cbv iota in H. destruct H as [_ [_ [_ [_ Hq]]]].
  apply Hq; [|discriminate].
  simpl. right. left. reflexivity.
Defined.

Lemma upload_never_overwrites_witness :
  exists st',
    Modals.upload PlainDialog.to_parquet PlainDialog.calculate
      (PlainDialog.inputs EmptyString) [Modals.Name "first set"]
      "2026-11-03 09:00:00" PlainDialog.opened
    = (inr tt, st')
    /\ Modals.shown st' = [Modals.NO_NAME; Modals.NO_FILE]
    /\ Files.holds_dataset (Modals.folder st') "first set"
         [(Files.DATA_FILENAME, "d1"%string);
          (Files.DESC_FILENAME, "s1"%string)].
Proof.
  pose (out := Modals.upload PlainDialog.to_parquet PlainDialog.calculate
                 (PlainDialog.inputs EmptyString) [Modals.Name "first set"]
                 "2026-11-03 09:00:00" PlainDialog.opened).
  assert (out = (inr tt, snd out)) as E by reflexivity.
  destruct (upload_never_overwrites string unit PlainDialog.to_parquet
              PlainDialog.calculate (PlainDialog.inputs EmptyString)
              [Modals.Name "first set"] "2026-11-03 09:00:00"
              PlainDialog.opened (snd out) (inr tt) E) as [Keep _].
  exists (snd out). split; [exact E|]. split; [reflexivity|].
  apply Keep. reflexivity.
Defined.

Lemma upload_stores_witness :
  exists st',
    Modals.upload PlainDialog.to_parquet PlainDialog.calculate
      (PlainDialog.inputs "second set") [Modals.Name "first set"]
      "2026-11-03 09:00:00" PlainDialog.ready
    = (inr tt, st')
    /\ Modals.loaded st' = [(PlainDialog.data3, PlainDialog.desc3)]
    /\ Files.load_data PlainDialog.read_parquet "second set"
         (Modals.folder st')
       = inr (PlainDialog.data3, PlainDialog.desc3).
Proof.
  pose (out := Modals.upload PlainDialog.to_parquet PlainDialog.calculate
                 (PlainDialog.inputs "second set") [Modals.Name "first set"]
                 "2026-11-03 09:00:00" PlainDialog.ready).
  assert (fst out = inr tt) as F by (vm_compute; reflexivity).
  assert (out = (inr tt, snd out)) as E
    by (rewrite <- F; apply surjective_pairing).
  assert (Modals.shown (snd out) = Modals.shown PlainDialog.ready) as S
    by (vm_compute; reflexivity).
  assert (forall (t : Modals.Table string) (bytes : string),
            PlainDialog.to_parquet t = inr bytes ->
            PlainDialog.read_parquet bytes = inr t) as Hcodec.
  { intros t bytes. unfold PlainDialog.to_parquet.
    destruct (PlainDialog.table_eq_dec t PlainDialog.data3) as [->|_].
    - intros H. injection H as <-. reflexivity.
    - destruct (PlainDialog.table_eq_dec t PlainDialog.desc3) as [->|_];
        [|discriminate].
      intros H. injection H as <-. reflexivity. }
  destruct (upload_stores string unit PlainDialog.to_parquet
              PlainDialog.read_parquet PlainDialog.calculate
              (PlainDialog.inputs "second set") [Modals.Name "first set"]
              "2026-11-03 09:00:00" PlainDialog.ready (snd out)
              Hcodec E S)
    as [data [desc [structures [P [_ [_ [L [_ [_ [_ [_ [_ [_ [_ [Ld _]]]]]]]]]]]]]]].
  assert (Modals.loaded (snd out)
          = [(PlainDialog.data3, PlainDialog.desc3)]) as L'
    by (vm_compute; reflexivity).
  exists (snd out). split; [exact E|]. split; [exact L'|].
  rewrite L in L'. simpl in L'. injection L' as -> ->.
  exact Ld.
Defined.

(** ** Reading the uploaded file *)

Module ExtFacts.
Import Modals.

(** Reading on from a component in which a character other than a dot
    has been seen, through text without slash and dot, keeps the
    extension found. *)
Lemma splitext_from_suffix (s : string) :
  plain_suffix s = true ->
  forall ext, splitext_from true ext s = ext.
Proof.
  unfold plain_suffix. induction s as [|c s IH]; intros H ext; [reflexivity|].
  simpl in H. apply andb_prop in H. destruct H as [Hc Hs].
  apply andb_prop in Hc. destruct Hc as [H47 H46].
  apply negb_true_iff in H47. apply negb_true_iff in H46.
  cbn [splitext_from]. rewrite H47, H46. apply IH. exact Hs.
Qed.

(** Reading through a base without slash. *)
Lemma splitext_from_base (s : string) :
  forallb (fun c => negb (nat_of_ascii c =? 47)%nat) (list_ascii_of_string s)
  = true ->
  forall seen ext rest,
  exists ext1,
    splitext_from seen ext (String.append s rest)
    = splitext_from
        (seen || existsb (fun c => negb (nat_of_ascii c =? 46)%nat)
                         (list_ascii_of_string s))
        ext1 rest.
Proof.
  induction s as [|c s IH]; intros H seen ext rest.
  - exists ext. simpl. rewrite orb_false_r. reflexivity.
  - simpl in H. apply andb_prop in H. destruct H as [H47 Hs].
    apply negb_true_iff in H47.
    cbn [String.append splitext_from list_ascii_of_string existsb].
    rewrite H47.
    destruct (nat_of_ascii c =? 46)%nat eqn:H46; cbn [negb orb].
    + destruct seen.
      * destruct (IH Hs true (String c (String.append s rest)) rest)
          as [ext1 E].
        exists ext1. rewrite E. reflexivity.
      * destruct (IH Hs false ext rest) as [ext1 E].
        exists ext1. rewrite E. reflexivity.
    + destruct (IH Hs true ext rest) as [ext1 E].
      exists ext1. rewrite E. cbn [orb]. rewrite orb_true_r. reflexivity.
Qed.

Lemma splitext_plain (base suffix : string) :
  plain_base base = true -> plain_suffix suffix = true ->
  splitext (String.append base (String "."%char suffix))
  = String "."%char suffix.
Proof.
  unfold plain_base, splitext. intros Hb Hs.
  apply andb_prop in Hb. destruct Hb as [Hb1 Hb2].
  destruct (splitext_from_base base Hb1 false EmptyString
              (String "."%char suffix)) as [ext1 E].
  rewrite E, Hb2. cbn [orb splitext_from].
  change (nat_of_ascii "."%char =? 47)%nat with false.
  change (nat_of_ascii "."%char =? 46)%nat with true.
  cbv iota. apply splitext_from_suffix. exact Hs.
Qed.

End ExtFacts.

Section ReadFacts.

Variables (Cell E : Type).
Variable read : Modals.Reader -> string -> Modals.Parse Cell E.

(** X20.  The file is read according to the text after the last dot of
    its name, compared as it is written: [.csv], [.xls], [.xlsx],
    [.tsv] and [.txt] select their reader, and for any other ending,
    such as [.CSV], no reader is called and the frame is empty.  Then
    [upload_temp] returns with the frame cleared and notifies that
    the file is invalid. *)
Theorem read_file_by_extension (base suffix content : string)
    (rest : list (string * string)) (st : Modals.State Cell) :
  plain_base base = true -> plain_suffix suffix = true ->
  let name := String.append base (String "."%char suffix) in
  Modals._read_file read (name, content)
  = match Modals.reader_of (String "."%char suffix) with
    | Some r => read r content
    | None => Modals.Parsed E (Frames.empty_frame Cell)
    end
  /\ (Modals.reader_of (String "."%char suffix) = None ->
      Modals.upload_temp read ((name, content) :: rest) st
      = (inr tt, Modals.notify [Modals.FILE_INVALID] (Modals._clear_temp st))).
Proof.
  intros Hb Hs name.
  assert (Modals._read_file read (name, content)
          = match Modals.reader_of (String "."%char suffix) with
            | Some r => read r content
            | None => Modals.Parsed E (Frames.empty_frame Cell)
            end) as R.
  { unfold Modals._read_file, name. cbn [fst snd].
    rewrite (ExtFacts.splitext_plain base suffix Hb Hs). reflexivity. }
  split; [exact R|]. intros Hn.
  unfold Modals.upload_temp. rewrite R, Hn. reflexivity.
Qed.

(** X21.  [upload_temp], run by the session on the value of the file
    input, changes nothing but the frame read and the notifications.
    While no file has been chosen the body does not run and nothing
    changes at all; on an empty list of files the frame is cleared
    without a notification.  With a file, the invalid-file notification is
    shown exactly when the frame is empty afterwards; when the reader
    raises one of the two parser errors the frame is cleared; when it
    raises anything else, the exception goes on, the frame read before
    stays, and the notification depends on that earlier frame. *)
Theorem upload_temp_outcome (file : option (list (string * string)))
    (st st1 : Modals.State Cell) (res : Modals.Exn E + unit) :
  Modals.upload_temp_event read file st = (res, st1) ->
  Modals.folder st1 = Modals.folder st
  /\ Modals.loaded st1 = Modals.loaded st
  /\ Modals.open st1 = Modals.open st
  /\ match file with
     | None => res = inr tt /\ st1 = st
     | Some [] => res = inr tt /\ st1 = Modals._clear_temp st
     | Some (f :: _) =>
         Modals.shown st1
         = Modals.shown st
           ++ (if Frames.empty (Modals.temp st1)
               then [Modals.FILE_INVALID] else [])
         /\ match Modals._read_file read f with
            | Modals.Parsed _ t => res = inr tt /\ Modals.temp st1 = t
            | Modals.EmptyDataError _ _ | Modals.ParserError _ _ =>
                res = inr tt /\ Modals.temp st1 = Frames.empty_frame Cell
            | Modals.OtherError _ e =>
                res = inl (Modals.Library e)
                /\ Modals.temp st1 = Modals.temp st
            end
     end.
Proof.
  unfold Modals.upload_temp_event, Modals.upload_temp. intros H.
  destruct file as [[|f rest]|].
  - injection H as <- <-. repeat split.
  - destruct (Modals._read_file read f) as [t| | |e];
      injection H as <- <-.
    + cbn [Modals.set_temp Modals.temp].
      destruct (Frames.empty t) eqn:Et; cbn; rewrite ?Et, ?app_nil_r;
        repeat split.
    + cbn. repeat split.
    + cbn. repeat split.
    + destruct (Frames.empty (Modals.temp st)) eqn:Et; cbn;
        rewrite ?Et, ?app_nil_r; repeat split.
  - injection H as <- <-. repeat split.
Qed.

End ReadFacts.

Lemma read_file_by_extension_witness :
  Modals._read_file PlainDialog.read ("data.csv", "id,smiles,mass")%string
  = Modals.Parsed unit PlainDialog.frame3
  /\ Modals.upload_temp PlainDialog.read
       [("data.CSV", "id,smiles,mass")%string] PlainDialog.ready
     = (inr tt, Modals.notify [Modals.FILE_INVALID]
                  (Modals._clear_temp PlainDialog.ready)).
Proof.
  split.
  - exact (proj1 (read_file_by_extension string unit PlainDialog.read
                    "data" "csv" "id,smiles,mass" [] PlainDialog.ready
                    eq_refl eq_refl)).
  - exact (proj2 (read_file_by_extension string unit PlainDialog.read
                    "data" "CSV" "id,smiles,mass" [] PlainDialog.ready
                    eq_refl eq_refl) eq_refl).
Defined.

Lemma upload_temp_outcome_witness :
  exists st1,
    Modals.upload_temp_event PlainDialog.read
      (Some [("data.tsv", "id")%string]) PlainDialog.ready
    = (inl (Modals.Library tt), st1)
    /\ Modals.temp st1 = PlainDialog.frame3
    /\ Modals.shown st1 = [].
Proof.
  pose (out := Modals.upload_temp_event PlainDialog.read
                 (Some [("data.tsv", "id")%string]) PlainDialog.ready).
  assert (out = (inl (Modals.Library tt), snd out)) as E by reflexivity.
  destruct (upload_temp_outcome string unit PlainDialog.read
              (Some [("data.tsv", "id")%string]) PlainDialog.ready (snd out)
              (inl (Modals.Library tt)) E) as [_ [_ [_ [S T]]]].
  exists (snd out). split; [exact E|]. split; [exact (proj2 T)|].
  reflexivity.
Defined.

(** ** The user's rows in the report *)

Module TakeFacts.

Lemma index_take_where (p : string -> bool) (index : list string) :
  forall pre,
    index_take (pre ++ index)
               (Text.np_where_from (List.length pre) (map p index))
    = inr (filter p index).
Proof.
  induction index as [|x index IH]; intros pre; [reflexivity|].
  cbn [map Text.np_where_from filter].
  assert (pre ++ x :: index = (pre ++ [x]) ++ index) as Hs
    by (rewrite <- app_assoc; reflexivity).
  assert (S (List.length pre) = List.length (pre ++ [x])) as Hl
    by (rewrite length_app; simpl; lia).
  destruct (p x).
  - cbn [index_take].
    rewrite nth_error_app2 by lia. rewrite Nat.sub_diag. cbn [nth_error].
    rewrite Hs, Hl, IH. reflexivity.
  - rewrite Hs, Hl, IH. reflexivity.
Qed.

End TakeFacts.

(** X22.  The identifiers the report lists for the user's rows.  The
    positions computed by [user_idx] are all rows of the table, so
    that looking them up in the index never raises; the identifiers
    found are those of the table that occur among the entered lines
    as the string array stores them (without their trailing NULs), in
    the order of the table and as often as the table holds them. *)
Theorem user_rows_reported (index : list string) (text : string) :
  index_take index (Text.user_idx index text)
  = inr (filter (fun id =>
                   existsb (String.eqb id)
                           (Text.stored (Text.splitlines text)))
                index).
Proof.
  unfold Text.user_idx, Text.np_where, Text.np_isin.
  exact (TakeFacts.index_take_where
           (fun id => existsb (String.eqb id)
                              (Text.stored (Text.splitlines text)))
           index []).
Qed.

(** ** The labels and the order of the selection results *)

Module OrderFacts.
Import Store.

Lemma str_le_trans (a b c : string) : str_le a b -> str_le b c -> str_le a c.
Proof.
  unfold str_le, String.leb. intros Hab Hbc.
  destruct (String.compare a b) eqn:Eab; [| |discriminate].
  - apply OrderedTypeEx.String_as_OT.cmp_eq in Eab. subst b. exact Hbc.
  - destruct (String.compare b c) eqn:Ebc; [| |discriminate].
    + apply OrderedTypeEx.String_as_OT.cmp_eq in Ebc. subst c.
      rewrite Eab. reflexivity.
    + apply OrderedTypeEx.String_as_OT.cmp_lt in Eab.
      apply OrderedTypeEx.String_as_OT.cmp_lt in Ebc.
      pose proof (OrderedTypeEx.String_as_OT.lt_trans _ _ _ Eab Ebc) as H.
      apply OrderedTypeEx.String_as_OT.cmp_lt in H.
      unfold OrderedTypeEx.String_as_OT.cmp in H. rewrite H. reflexivity.
Qed.

Lemma str_le_refl (a : string) : str_le a a.
Proof.
  unfold str_le. destruct (String.leb_total a a) as [H|H]; exact H.
Qed.

(** Two ascending lists with the same elements are equal. *)
Lemma ascending_unique (l : list string) :
  forall l', StronglySorted str_le l -> StronglySorted str_le l' ->
             Permutation l l' -> l = l'.
Proof.
  induction l as [|a l IH]; intros l' Hs Hs' Hp.
  - apply Permutation_nil in Hp. congruence.
  - destruct l' as [|b l'].
    { apply Permutation_sym, Permutation_nil in Hp. discriminate. }
    inversion Hs as [|x xs Hsl Hal]; subst.
    inversion Hs' as [|y ys Hsl' Hal']; subst.
    assert (a = b) as ->.
    { assert (In b (a :: l)) as Hb
        by (apply (Permutation_in b (Permutation_sym Hp)); left; reflexivity).
      assert (In a (b :: l')) as Ha
        by (apply (Permutation_in a Hp); left; reflexivity).
      destruct Hb as [Hb | Hb]; [exact Hb|].
      destruct Ha as [Ha | Ha]; [symmetry; exact Ha|].
      apply String.leb_antisym.
      - exact (proj1 (Forall_forall _ _) Hal b Hb).
      - exact (proj1 (Forall_forall _ _) Hal' a Ha). }
    f_equal. apply IH; [exact Hsl | exact Hsl'|].
    exact (Permutation_cons_inv Hp).
Qed.

Lemma sorted_str_of_perm (l l' : list string) :
  Permutation l l' -> sorted_str l = sorted_str l'.
Proof.
  intros Hp. apply ascending_unique.
  - apply Sorted_StronglySorted;
      [intros a b c; apply str_le_trans | apply StoreFacts.sorted_str_ascending].
  - apply Sorted_StronglySorted;
      [intros a b c; apply str_le_trans | apply StoreFacts.sorted_str_ascending].
  - rewrite StoreFacts.sorted_str_perm, StoreFacts.sorted_str_perm. exact Hp.
Qed.

Lemma label_text_of_perm (l l' : list string) :
  Permutation l l' -> label_text l = label_text l'.
Proof.
  intros Hp. unfold label_text.
  destruct l as [|a l], l' as [|b l'].
  - reflexivity.
  - apply Permutation_nil in Hp. discriminate.
  - apply Permutation_sym, Permutation_nil in Hp. discriminate.
  - rewrite (sorted_str_of_perm _ _ Hp). reflexivity.
Qed.

Lemma find_none_of_perm (A : Type) (p : A -> bool) (l l' : list A) :
  Permutation l l' -> find p l = None -> find p l' = None.
Proof.
  intros Hp Hn.
  destruct (find p l') as [x|] eqn:E; [|reflexivity].
  apply find_some in E. destruct E as [Hin Hx].
  apply (Permutation_in x (Permutation_sym Hp)) in Hin.
  pose proof (find_none p l Hn x Hin) as Hf. congruence.
Qed.

Lemma labels_of_total (Score : Type) (N : nat) (items : SurrD Score) :
  labels_of N items
  = match first_outside N items with
    | Some i => inl (KeyError_at i)
    | None => inr (map (fun i => label_text (appended items i)) (seq 0 N))
    end.
Proof.
  unfold labels_of.
  rewrite (LabelFacts.repeat_nil_seq string _ 0).
  rewrite LabelFacts.collect_total.
  destruct (first_outside N items); [reflexivity|].
  f_equal. rewrite map_map. apply map_ext. intros j. reflexivity.
Qed.

End OrderFacts.

(** X23.  The labels do not depend on the order of the selection
    results.  When [surrogate_labels] returns for given results, it
    returns the same labels for the same results in any other dict
    order. *)
Theorem labels_independent_of_order (Score : Type) (N : nat)
    (items items' : Store.SurrD Score) (labels : list string) :
  Permutation items items' ->
  Store.labels_of N items = inr labels ->
  Store.labels_of N items' = inr labels.
Proof.
  intros Hp. rewrite !OrderFacts.labels_of_total.
  unfold first_outside.
  destruct (find (fun i => negb (is_row N i))
              (flat_map (fun kv => fst (snd kv)) items)) as [i|] eqn:Ef;
    [discriminate|].
  intros H. injection H as <-.
  rewrite (OrderFacts.find_none_of_perm _ _ _ _
             (Permutation_flat_map (fun kv => fst (snd kv)) Hp) Ef).
  f_equal. apply map_ext. intros j.
  apply OrderFacts.label_text_of_perm. unfold appended.
  apply Permutation_sym. apply Permutation_flat_map. exact Hp.
Qed.

Lemma labels_independent_of_order_witness :
  Store.labels_of 3
    [("hierarchical"%string, ([0; 1]%Z, 2)); ("random"%string, ([2; 0]%Z, 1))]
  = inr ["hierarchical&random"%string; "hierarchical"%string;
         "random"%string].
Proof.
  apply (labels_independent_of_order Q 3
           [("random"%string, ([2; 0]%Z, 1));
            ("hierarchical"%string, ([0; 1]%Z, 2))]).
  - apply perm_swap.
  - reflexivity.
Defined.
